(** * xchngpassport: the remittance hub of [remittance_integration.go]

    A shallow embedding of the provider contract, the three provider
    adapters (Wise, Remitly, WorldRemit) and the orchestration hub
    ([GetAvailableProviders], [GetQuotes], [SendMoneyWithProvider],
    [GetBestQuote]), followed by the properties that the specification
    states about them and by further properties of the code.

    Conventions of the embedding:
    - [float64] is Rocq's primitive binary64 [float]; [+], [*], [<] and [==]
      of Go are [PrimFloat.add], [PrimFloat.mul], [PrimFloat.ltb] and
      [PrimFloat.eqb];
    - a Go result pair [(T, error)] is a value of [res T];
    - a Go call either returns or panics: [outcome];
    - the hub runs in the monad [M], which records the adapter methods that
      were invoked and the lines written with [log.Printf];
    - slices are lists, indexed with stdpp's [!!] and updated with [<[i:=x]>];
    - what the adapters reach through the network and the clock is the
      [World] they are run in, which also says whether the program was
      compiled to fuse [x*y + z] into one operation;
    - the [ctx] that every method hands on to the next is not nil
      ([main] passes [context.Background()]) and is not a parameter of the
      embedding: a cancellation or a deadline shows as a failure of the
      transport. *)

From Stdlib Require Import ZArith Floats DecimalString ZifyNat.
From Stdlib Require DecimalPos DecimalZ.
From stdpp Require Import list strings sorting.

Set Warnings "-inexact-float,-register-all".

Open Scope string_scope.

(** ** Go values: errors, result pairs, panics *)

(** The error values of the program, by the constructor that builds them. *)
Inductive error : Type :=
  | errorString (s : string)            (* errors.New(s) *)
  | wrapError (s : string)              (* fmt.Errorf(...), no %w *)
  | url_Error (s : string)              (* net/http: what client.Do returns *)
  | json_SyntaxError (s : string)       (* encoding/json: not JSON text *)
  | json_UnmarshalTypeError (s : string)  (* encoding/json: wrong Go type *)
  | json_UnsupportedValueError (s : string). (* encoding/json: NaN or Inf *)

(** [err.Error()]. *)
Definition Error (e : error) : string :=
  match e with
  | errorString s | wrapError s | url_Error s => s
  | json_SyntaxError s => s
  | json_UnmarshalTypeError s => "json: cannot unmarshal " ++ s
  | json_UnsupportedValueError s => "json: unsupported value: " ++ s
  end.

(** [(T, error)]: exactly one of the two components is non-nil. *)
Inductive res (T : Type) : Type :=
  | Ok (v : T)
  | Err (e : error).
Arguments Ok {T} v.
Arguments Err {T} e.

(** A call returns a value or panics with a run-time error message. *)
Inductive outcome (A : Type) : Type :=
  | Done (a : A)
  | Panicked (msg : string).
Arguments Done {A} a.
Arguments Panicked {A} msg.

Definition obind {A B} (m : outcome A) (k : A -> outcome B) : outcome B :=
  match m with
  | Done a => k a
  | Panicked msg => Panicked msg
  end.

Notation "'let!' x ':=' m 'in' k" := (obind m (fun x => k))
  (at level 10, x name, m at level 100, k at level 200, only parsing).

Definition float64 := float.
Definition time_Time := Z.           (* nanoseconds since the Unix epoch *)
Definition time_Duration := Z.       (* nanoseconds *)
Definition time_Second : time_Duration := 1000000000%Z.
Definition time_Minute : time_Duration := (60 * time_Second)%Z.
Definition time_Hour : time_Duration := (60 * time_Minute)%Z%Z.
Definition time_Add (t : time_Time) (d : time_Duration) : time_Time := (t + d)%Z.
Definition time_Unix (t : time_Time) : Z := (t / time_Second)%Z.

(** [fmt.Sprintf("%d", n)]. *)
Definition fmt_d (n : Z) : string := NilZero.string_of_int (Z.to_int n).

(** [x*y + z] rounded once, on the exact product: what a fused multiply-add
    computes.  The language lets an implementation fuse [x*y + z], also
    across statements; the compilers for arm64, ppc64le, s390x and riscv64
    do. *)
Definition SFfma (x y z : spec_float) : spec_float :=
  match x, y with
  | S754_finite sx mx ex, S754_finite sy my ey =>
      match z with
      | S754_zero _ => SFmul prec emax x y
      | _ => SFadd prec emax (S754_finite (xorb sx sy) (mx * my)%positive (ex + ey)%Z) z
      end
  | _, _ => SFadd prec emax (SFmul prec emax x y) z
  end.

Definition fma (x y z : float64) : float64 :=
  SF2Prim (SFfma (Prim2SF x) (Prim2SF y) (Prim2SF z)).

(** ** Common types *)

Definition Currency := string.
Definition TransactionStatus := string.
Definition PaymentMethod := string.

Definition USD : Currency := "USD".
Definition EUR : Currency := "EUR".
Definition GBP : Currency := "GBP".
Definition INR : Currency := "INR".
Definition PHP : Currency := "PHP".
Definition MXN : Currency := "MXN".

Definition StatusPending : TransactionStatus := "PENDING".
Definition StatusCompleted : TransactionStatus := "COMPLETED".
Definition StatusFailed : TransactionStatus := "FAILED".
Definition StatusCancelled : TransactionStatus := "CANCELLED".

Definition PaymentBankTransfer : PaymentMethod := "BANK_TRANSFER".
Definition PaymentCard : PaymentMethod := "CARD".
Definition PaymentWallet : PaymentMethod := "WALLET".
Definition PaymentCash : PaymentMethod := "CASH".

Module Address.
Record t : Type := mk {
  Street : string;
  City : string;
  State : string;
  PostalCode : string;
  Country : string;
  CountryCode : string
}.
End Address.

Module Recipient.
Record t : Type := mk {
  ID : string;
  Name : string;
  Email : string;
  Phone : string;
  Address : Address.t;
  BankDetails : list (string * string)
}.
End Recipient.

Module TransactionRequest.
Record t : Type := mk {
  SenderID : string;
  Recipient : Recipient.t;
  Amount : float64;
  FromCurrency : Currency;
  ToCurrency : Currency;
  PaymentMethod : PaymentMethod;
  Purpose : string;
  Reference : string
}.
End TransactionRequest.

Module TransactionResponse.
Record t : Type := mk {
  TransactionID : string;
  Status : TransactionStatus;
  Amount : float64;
  Fee : float64;
  ExchangeRate : float64;
  EstimatedTime : string;
  TrackingURL : string;
  Error : string
}.
End TransactionResponse.

Module RemittanceQuote.
Record t : Type := mk {
  Provider : string;
  Amount : float64;
  Fee : float64;
  ExchangeRate : float64;
  TotalCost : float64;
  ReceivedAmount : float64;
  EstimatedTime : string;
  ValidUntil : time_Time
}.
End RemittanceQuote.

(** ** The provider contract

    [RemittanceProvider] is the interface of the source; a value of it is one
    implementation, with the world it talks to already fixed.  Only the
    methods that the hub calls are kept.  A quote or a response that comes
    with a nil error is a non-nil pointer, as in every implementation of the
    repository. *)
Record RemittanceProvider : Type := {
  GetName : string;
  GetSupportedCurrencies : list Currency;
  GetSupportedCountries : list string;
  GetQuote : TransactionRequest.t -> outcome (res RemittanceQuote.t);
  SendMoney : TransactionRequest.t -> outcome (res TransactionResponse.t)
}.

(** ** encoding/json, as far as the adapters use it *)

(** What [Decode] stores in an [interface{}]: nil, bool, float64, string,
    []interface{} or map[string]interface{}.  The members of an object are
    kept in the order of the text; a later member overrides an earlier one. *)
Inductive json : Type :=
  | JNull
  | JBool (b : bool)
  | JNumber (f : float64)
  | JString (s : string)
  | JArray (l : list json)
  | JObject (m : list (string * json)).

Fixpoint lookup_member (key : string) (m : list (string * json)) : option json :=
  match m with
  | [] => None
  | (k, v) :: rest =>
      match lookup_member key rest with
      | Some later => Some later
      | None => if String.eqb k key then Some v else None
      end
  end.

(** [m[key]] on a decoded object: nil when the key is absent. *)
Definition member (key : string) (m : list (string * json)) : json :=
  default JNull (lookup_member key m).

Definition type_name (v : json) : string :=
  match v with
  | JNull => "nil"
  | JBool _ => "bool"
  | JNumber _ => "float64"
  | JString _ => "string"
  | JArray _ => "[]interface {}"
  | JObject _ => "map[string]interface {}"
  end.

(** The name that [encoding/json] gives a JSON value in an
    [UnmarshalTypeError]. *)
Definition value_kind (v : json) : string :=
  match v with
  | JNull => "null"
  | JBool _ => "bool"
  | JNumber _ => "number"
  | JString _ => "string"
  | JArray _ => "array"
  | JObject _ => "object"
  end.

(** The type assertions [v.(float64)] and [v.(string)], without the comma-ok
    form: they panic when the dynamic type is another one. *)
Definition assert_float64 (v : json) : outcome float64 :=
  match v with
  | JNumber f => Done f
  | _ => Panicked ("interface conversion: interface {} is " ++ type_name v ++ ", not float64")
  end.

Definition assert_string (v : json) : outcome string :=
  match v with
  | JString s => Done s
  | _ => Panicked ("interface conversion: interface {} is " ++ type_name v ++ ", not string")
  end.

Definition FormatFloat (f : float64) : string :=
  if is_nan f then "NaN" else if PrimFloat.ltb f 0 then "-Inf" else "+Inf".

(** [json.Marshal] refuses NaN and the infinities; [unsupported v] is the
    first such number of [v]. *)
Fixpoint unsupported (v : json) : option string :=
  match v with
  | JNumber f => if is_finite f then None else Some (FormatFloat f)
  | JArray l =>
      (fix go (l : list json) : option string :=
         match l with
         | [] => None
         | x :: r => match unsupported x with Some s => Some s | None => go r end
         end) l
  | JObject m =>
      (fix go (m : list (string * json)) : option string :=
         match m with
         | [] => None
         | (_, x) :: r => match unsupported x with Some s => Some s | None => go r end
         end) m
  | _ => None
  end.

Definition json_Marshal (v : json) : res json :=
  match unsupported v with
  | Some s => Err (json_UnsupportedValueError s)
  | None => Ok v
  end.

(** ** The world: clock and HTTP transport *)

Module http.
Record Request : Type := mk {
  Method : string;
  URL : string;
  Header : list (string * string);
  Body : option json
}.

(** The body of a response, as [json.NewDecoder(resp.Body)] will read it:
    nothing but white space; the beginning of a JSON text, cut short; a text
    that is not JSON, [text] being what the decoder says of it; a JSON
    text. *)
Inductive ResponseBody : Type :=
  | Empty
  | Truncated
  | NotJSON (text : string)
  | JSONText (v : json).

(** What [client.Do] gives back: a failure (timeout, refused connection,
    cancelled context, ...), reported as a [*url.Error], or a response.  The
    status code is not part of it: no adapter reads it. *)
Inductive RoundTrip : Type :=
  | Failed (msg : string)
  | Response (body : ResponseBody).
End http.

Record World : Type := {
  time_Now : time_Time;
  transport : http.Request -> http.RoundTrip;
  fused : bool    (* the program was compiled to fuse x*y + z *)
}.

Definition client_Do (wd : World) (req : http.Request) : res http.ResponseBody :=
  match transport wd req with
  | http.Failed msg => Err (url_Error msg)
  | http.Response body => Ok body
  end.

(** [io.EOF] and [io.ErrUnexpectedEOF]. *)
Definition io_EOF : error := errorString "EOF".
Definition io_ErrUnexpectedEOF : error := errorString "unexpected EOF".

(** [json.NewDecoder(body).Decode(&m)] with [m] a nil [map[string]interface{}]:
    an object fills the map, [null] leaves it nil, anything else is an error. *)
Definition Decode_map (body : http.ResponseBody) : res (list (string * json)) :=
  match body with
  | http.Empty => Err io_EOF
  | http.Truncated => Err io_ErrUnexpectedEOF
  | http.NotJSON text => Err (json_SyntaxError text)
  | http.JSONText (JObject m) => Ok m
  | http.JSONText JNull => Ok []
  | http.JSONText v =>
      Err (json_UnmarshalTypeError
             (value_kind v ++ " into Go value of type map[string]interface {}"))
  end.

(** ** net/http: building a request *)

(** [httpguts.IsTokenRune]: the characters of an HTTP token. *)
Definition isTokenRune (c : Ascii.ascii) : bool :=
  let n := Ascii.N_of_ascii c in
  ((48 <=? n) && (n <=? 57) || (65 <=? n) && (n <=? 90) || (97 <=? n) && (n <=? 122)
   || existsb (N.eqb n) [33; 35; 36; 37; 38; 39; 42; 43; 45; 46; 94; 95; 96; 124; 126])%N.

(** [validMethod]: [len(method) > 0 && strings.IndexFunc(method, isNotToken) == -1] *)
Definition validMethod (method : string) : bool :=
  negb (String.eqb method "") && forallb isTokenRune (String.list_ascii_of_string method).

Definition lowerhex (v : N) : Ascii.ascii :=
  match String.get (N.to_nat v) "0123456789abcdef" with
  | Some c => c
  | None => Ascii.ascii_of_nat 48
  end.

(** What [strconv.Quote] writes for one byte.  A byte above 0x7f is
    written the way a byte that is not UTF-8 is. *)
Definition quote_byte (c : Ascii.ascii) : string :=
  let n := Ascii.N_of_ascii c in
  let backslash := Ascii.ascii_of_nat 92 in
  if ((n =? 34) || (n =? 92))%N then String backslash (String c "")
  else if ((32 <=? n) && (n <=? 126))%N then String c ""
  else if (n =? 7)%N then String backslash "a"
  else if (n =? 8)%N then String backslash "b"
  else if (n =? 12)%N then String backslash "f"
  else if (n =? 10)%N then String backslash "n"
  else if (n =? 13)%N then String backslash "r"
  else if (n =? 9)%N then String backslash "t"
  else if (n =? 11)%N then String backslash "v"
  else String backslash
         (String (Ascii.ascii_of_nat 120)
            (String (lowerhex (n / 16)) (String (lowerhex (n mod 16)) ""))).

(** [strconv.Quote(s)], the text of [%q]. *)
Definition strconv_Quote (s : string) : string :=
  let mark := String (Ascii.ascii_of_nat 34) "" in
  mark ++ fold_right (fun c quoted => quote_byte c ++ quoted) "" (String.list_ascii_of_string s)
  ++ mark.

(** [http.NewRequestWithContext(ctx, method, url, body)] for a [ctx] that is
    not nil: the empty method stands for GET, and a method that is not a
    token is refused.  A [url] that does not parse is refused with a
    [*url.Error]; this is left to the [transport], which fails with the same
    type of error. *)
Definition http_NewRequestWithContext (method url : string) (body : option json)
  : res http.Request :=
  let method := if String.eqb method "" then "GET" else method in
  if validMethod method
  then Ok {| http.Method := method; http.URL := url; http.Header := []; http.Body := body |}
  else Err (wrapError ("net/http: invalid method " ++ strconv_Quote method)).

(** [req.Header.Set(key, value)] *)
Definition Header_Set (req : http.Request) (key value : string) : http.Request :=
  {| http.Method := http.Method req;
     http.URL := http.URL req;
     http.Header :=
       (filter (fun kv => kv.1 <> key) (http.Header req) ++ [(key, value)])%list;
     http.Body := http.Body req |}.

(** ** Wise *)

Module WiseProvider.
Record t : Type := mk {
  APIKey : string;
  BaseURL : string;
  ProfileID : string
}.
End WiseProvider.

Definition NewWiseProvider (apiKey profileID : string) : WiseProvider.t :=
  {| WiseProvider.APIKey := apiKey;
     WiseProvider.BaseURL := "https://api.transferwise.com";
     WiseProvider.ProfileID := profileID |}.

Section Wise.
Variable wd : World.
Variable w : WiseProvider.t.

Definition Wise_GetName : string := "Wise".
Definition Wise_GetSupportedCurrencies : list Currency := [USD; EUR; GBP; INR; PHP].
Definition Wise_GetSupportedCountries : list string :=
  ["US"; "GB"; "IN"; "PH"; "DE"; "FR"; "ES"].

Definition Wise_makeRequest (method endpoint : string) (body : option json)
  : res http.ResponseBody :=
  let marshalled :=
    match body with
    | Some b => match json_Marshal b with Ok j => Ok (Some j) | Err e => Err e end
    | None => Ok None
    end in
  match marshalled with
  | Err err => Err err
  | Ok reqBody =>
      match http_NewRequestWithContext method (WiseProvider.BaseURL w ++ endpoint) reqBody with
      | Err err => Err err
      | Ok req =>
          let req := Header_Set req "Authorization" ("Bearer " ++ WiseProvider.APIKey w) in
          let req := Header_Set req "Content-Type" "application/json" in
          client_Do wd req
      end
  end.

Definition Wise_GetQuote (req : TransactionRequest.t) : outcome (res RemittanceQuote.t) :=
  let quoteReq := JObject
    [("profile", JString (WiseProvider.ProfileID w));
     ("source", JString (TransactionRequest.FromCurrency req));
     ("target", JString (TransactionRequest.ToCurrency req));
     ("sourceAmount", JNumber (TransactionRequest.Amount req));
     ("type", JString "REGULAR")] in
  match Wise_makeRequest "POST" "/v1/quotes" (Some quoteReq) with
  | Err err => Done (Err err)
  | Ok resp =>
      match Decode_map resp with
      | Err err => Done (Err err)
      | Ok quoteResp =>
          let! fee := assert_float64 (member "fee" quoteResp) in
          let! rate := assert_float64 (member "rate" quoteResp) in
          let! targetAmount := assert_float64 (member "targetAmount" quoteResp) in
          Done (Ok {| RemittanceQuote.Provider := Wise_GetName;
                      RemittanceQuote.Amount := TransactionRequest.Amount req;
                      RemittanceQuote.Fee := fee;
                      RemittanceQuote.ExchangeRate := rate;
                      RemittanceQuote.TotalCost := (TransactionRequest.Amount req + fee)%float;
                      RemittanceQuote.ReceivedAmount := targetAmount;
                      RemittanceQuote.EstimatedTime := "1-2 business days";
                      RemittanceQuote.ValidUntil :=
                        time_Add (time_Now wd) (24 * time_Hour)%Z |})
      end
  end.

Definition Wise_SendMoney (req : TransactionRequest.t)
  : outcome (res TransactionResponse.t) :=
  let transferReq := JObject
    [("targetAccount", JString (Recipient.ID (TransactionRequest.Recipient req)));
     ("quote", JString "quote-id");
     ("customerTransactionId", JString (TransactionRequest.Reference req));
     ("details", JObject [("reference", JString (TransactionRequest.Purpose req))])] in
  match Wise_makeRequest "POST" "/v1/transfers" (Some transferReq) with
  | Err err => Done (Err err)
  | Ok resp =>
      match Decode_map resp with
      | Err err => Done (Err err)
      | Ok transferResp =>
          let! id := assert_string (member "id" transferResp) in
          Done (Ok {| TransactionResponse.TransactionID := id;
                      TransactionResponse.Status := StatusPending;
                      TransactionResponse.Amount := TransactionRequest.Amount req;
                      TransactionResponse.Fee := 10.0%float;
                      TransactionResponse.ExchangeRate := 1.2%float;
                      TransactionResponse.EstimatedTime := "1-2 business days";
                      TransactionResponse.TrackingURL := "https://wise.com/track/" ++ id;
                      TransactionResponse.Error := "" |})
      end
  end.

Definition Wise : RemittanceProvider :=
  {| GetName := Wise_GetName;
     GetSupportedCurrencies := Wise_GetSupportedCurrencies;
     GetSupportedCountries := Wise_GetSupportedCountries;
     GetQuote := Wise_GetQuote;
     SendMoney := Wise_SendMoney |}.
End Wise.

(** ** Remitly *)

Module RemitlyProvider.
Record t : Type := mk {
  APIKey : string;
  BaseURL : string
}.
End RemitlyProvider.

Definition NewRemitlyProvider (apiKey : string) : RemitlyProvider.t :=
  {| RemitlyProvider.APIKey := apiKey;
     RemitlyProvider.BaseURL := "https://api.remitly.com" |}.

Section Remitly.
Variable wd : World.

Definition Remitly_GetName : string := "Remitly".
Definition Remitly_GetSupportedCurrencies : list Currency := [USD; EUR; PHP; INR; MXN].
Definition Remitly_GetSupportedCountries : list string := ["US"; "PH"; "IN"; "MX"; "GB"].

Definition Remitly_GetQuote (req : TransactionRequest.t) : outcome (res RemittanceQuote.t) :=
  let fee := (TransactionRequest.Amount req * 0.02)%float in
  let rate := 1.15%float in
  let receivedAmount := (TransactionRequest.Amount req * rate)%float in
  Done (Ok {| RemittanceQuote.Provider := Remitly_GetName;
              RemittanceQuote.Amount := TransactionRequest.Amount req;
              RemittanceQuote.Fee := fee;
              RemittanceQuote.ExchangeRate := rate;
              RemittanceQuote.TotalCost :=
                (* req.Amount + fee, the product of [fee] fused into it or not *)
                if fused wd
                then fma (TransactionRequest.Amount req) 0.02%float
                         (TransactionRequest.Amount req)
                else (TransactionRequest.Amount req + fee)%float;
              RemittanceQuote.ReceivedAmount := receivedAmount;
              RemittanceQuote.EstimatedTime := "Minutes to hours";
              RemittanceQuote.ValidUntil := time_Add (time_Now wd) (30 * time_Minute)%Z |}).

Definition Remitly_SendMoney (req : TransactionRequest.t)
  : outcome (res TransactionResponse.t) :=
  let transactionID := "REM_" ++ fmt_d (time_Unix (time_Now wd)) in
  Done (Ok {| TransactionResponse.TransactionID := transactionID;
              TransactionResponse.Status := StatusPending;
              TransactionResponse.Amount := TransactionRequest.Amount req;
              TransactionResponse.Fee := (TransactionRequest.Amount req * 0.02)%float;
              TransactionResponse.ExchangeRate := 1.15%float;
              TransactionResponse.EstimatedTime := "Minutes to hours";
              TransactionResponse.TrackingURL := "https://remitly.com/track/" ++ transactionID;
              TransactionResponse.Error := "" |}).

(** No method of the simulated adapter reads its receiver [r]. *)
Definition Remitly (r : RemitlyProvider.t) : RemittanceProvider :=
  {| GetName := Remitly_GetName;
     GetSupportedCurrencies := Remitly_GetSupportedCurrencies;
     GetSupportedCountries := Remitly_GetSupportedCountries;
     GetQuote := Remitly_GetQuote;
     SendMoney := Remitly_SendMoney |}.
End Remitly.

(** ** WorldRemit *)

Module WorldRemitProvider.
Record t : Type := mk {
  APIKey : string;
  APISecret : string;
  BaseURL : string
}.
End WorldRemitProvider.

Definition NewWorldRemitProvider (apiKey apiSecret : string) : WorldRemitProvider.t :=
  {| WorldRemitProvider.APIKey := apiKey;
     WorldRemitProvider.APISecret := apiSecret;
     WorldRemitProvider.BaseURL := "https://api.worldremit.com" |}.

Section WorldRemit.
Variable wd : World.

Definition WorldRemit_GetName : string := "WorldRemit".
Definition WorldRemit_GetSupportedCurrencies : list Currency := [USD; EUR; GBP; INR; PHP].
Definition WorldRemit_GetSupportedCountries : list string :=
  ["US"; "GB"; "IN"; "PH"; "KE"; "GH"].

Definition WorldRemit_GetQuote (req : TransactionRequest.t)
  : outcome (res RemittanceQuote.t) :=
  let fee := 5.99%float in
  let rate := 1.18%float in
  let receivedAmount := (TransactionRequest.Amount req * rate)%float in
  Done (Ok {| RemittanceQuote.Provider := WorldRemit_GetName;
              RemittanceQuote.Amount := TransactionRequest.Amount req;
              RemittanceQuote.Fee := fee;
              RemittanceQuote.ExchangeRate := rate;
              RemittanceQuote.TotalCost := (TransactionRequest.Amount req + fee)%float;
              RemittanceQuote.ReceivedAmount := receivedAmount;
              RemittanceQuote.EstimatedTime := "Minutes";
              RemittanceQuote.ValidUntil := time_Add (time_Now wd) (15 * time_Minute)%Z |}).

Definition WorldRemit_SendMoney (req : TransactionRequest.t)
  : outcome (res TransactionResponse.t) :=
  let transactionID := "WR_" ++ fmt_d (time_Unix (time_Now wd)) in
  Done (Ok {| TransactionResponse.TransactionID := transactionID;
              TransactionResponse.Status := StatusPending;
              TransactionResponse.Amount := TransactionRequest.Amount req;
              TransactionResponse.Fee := 5.99%float;
              TransactionResponse.ExchangeRate := 1.18%float;
              TransactionResponse.EstimatedTime := "Minutes";
              TransactionResponse.TrackingURL :=
                "https://worldremit.com/track/" ++ transactionID;
              TransactionResponse.Error := "" |}).

(** No method of the simulated adapter reads its receiver [wr]. *)
Definition WorldRemit (wr : WorldRemitProvider.t) : RemittanceProvider :=
  {| GetName := WorldRemit_GetName;
     GetSupportedCurrencies := WorldRemit_GetSupportedCurrencies;
     GetSupportedCountries := WorldRemit_GetSupportedCountries;
     GetQuote := WorldRemit_GetQuote;
     SendMoney := WorldRemit_SendMoney |}.
End WorldRemit.

(** ** Package sort: [sort.Slice]

    [sort.Slice(x, less)] of the Go standard library (Go 1.19 and later,
    sort/zsortfunc.go): pattern-defeating quicksort over the pair of
    [Less(i, j)] and [Swap(i, j)], with insertion sort for at most 12
    elements and heap sort once [limit] bad pivots were chosen.  The slice is
    the list [data], threaded through every function; [less x y] is the
    [less] closure of the caller applied to the elements at the two indices.
    Every index that the functions pass to [Less] and [Swap] is within the
    slice; outside it (where Go would panic) [Less] is false and [Swap] does
    nothing.  The package promises of [sort.Slice] that it sorts, not that it
    keeps equal elements in their order, and earlier versions of Go, which
    sort with another quicksort, order them otherwise: nothing stated below
    about the hub rests on the order of equal elements. *)
Module sort.
Local Open Scope nat_scope.

Section lessSwap.
Context {A : Type}.
Variable less : A -> A -> bool.

Definition Less (data : list A) (i j : nat) : bool :=
  match data !! i, data !! j with
  | Some x, Some y => less x y
  | _, _ => false
  end.

Definition Swap (data : list A) (i j : nat) : list A :=
  match data !! i, data !! j with
  | Some x, Some y => <[i := y]> (<[j := x]> data)
  | _, _ => data
  end.

(** [for j := i; j > a && data.Less(j, j-1); j-- { data.Swap(j, j-1) }] *)
Fixpoint insertionSort_inner (data : list A) (a j : nat) : list A :=
  match j with
  | S j' =>
      if (a <? j) && Less data j j'
      then insertionSort_inner (Swap data j j') a j'
      else data
  | O => data
  end.

(** [for i := a + 1; i < b; i++ { ... }] *)
Definition insertionSort_func (data : list A) (a b : nat) : list A :=
  foldl (fun data i => insertionSort_inner data a i) data (seq (a + 1) (b - (a + 1))).

(** The loop of [siftDown_func]; [root] grows at every turn and the loop
    ends when [2*root+1 >= hi], so [hi - root] turns are enough. *)
Fixpoint siftDown_loop (turns : nat) (data : list A) (root hi first : nat) : list A :=
  match turns with
  | O => data
  | S turns =>
      let child := 2 * root + 1 in
      if hi <=? child then data
      else
        let child :=
          if (child + 1 <? hi) && Less data (first + child) (first + child + 1)
          then child + 1 else child in
        if negb (Less data (first + root) (first + child)) then data
        else siftDown_loop turns (Swap data (first + root) (first + child)) child hi first
  end.

Definition siftDown_func (data : list A) (lo hi first : nat) : list A :=
  siftDown_loop (hi - lo) data lo hi first.

Definition heapSort_func (data : list A) (a b : nat) : list A :=
  let first := a in
  let lo := 0 in
  let hi := b - a in
  (* for i := (hi - 1) / 2; i >= 0; i-- *)
  let data :=
    foldl (fun data i => siftDown_func data i hi first) data
          (rev (seq 0 (S ((hi - 1) / 2)))) in
  (* for i := hi - 1; i >= 0; i-- *)
  foldl (fun data i => siftDown_func (Swap data first (first + i)) lo i first) data
        (rev (seq 0 hi)).

(** [for i <= j && p(i) { i++ }], at most [j + 1 - i] turns. *)
Fixpoint scan_up (turns : nat) (p : nat -> bool) (i j : nat) : nat :=
  match turns with
  | O => i
  | S turns => if (i <=? j) && p i then scan_up turns p (S i) j else i
  end.

(** [for i <= j && p(j) { j-- }]; [i] is positive wherever it is used, so
    the loop never steps below index 0. *)
Fixpoint scan_down (p : nat -> bool) (i j : nat) : nat :=
  match j with
  | S j' => if (i <=? j) && p j then scan_down p i j' else j
  | O => O
  end.

(** The [for { ... }] loop of [partition_func]; every turn but the last
    moves [i] up, so [b - a] turns are enough. *)
Fixpoint partition_loop (turns : nat) (data : list A) (a i j : nat) : list A * nat :=
  match turns with
  | O => (data, j)
  | S turns =>
      let i := scan_up (j + 1 - i) (fun i => Less data i a) i j in
      let j := scan_down (fun j => negb (Less data j a)) i j in
      if j <? i then (data, j)
      else partition_loop turns (Swap data i j) a (i + 1) (j - 1)
  end.

Definition partition_func (data : list A) (a b pivot : nat) : list A * nat * bool :=
  let data := Swap data a pivot in
  let i := a + 1 in
  let j := b - 1 in
  let i := scan_up (j + 1 - i) (fun i => Less data i a) i j in
  let j := scan_down (fun j => negb (Less data j a)) i j in
  if j <? i then (Swap data j a, j, true)
  else
    let data := Swap data i j in
    let '(data, j) := partition_loop (b - a) data a (i + 1) (j - 1) in
    (Swap data j a, j, false).

Fixpoint partitionEqual_loop (turns : nat) (data : list A) (a i j : nat) : list A * nat :=
  match turns with
  | O => (data, i)
  | S turns =>
      let i := scan_up (j + 1 - i) (fun i => negb (Less data a i)) i j in
      let j := scan_down (fun j => Less data a j) i j in
      if j <? i then (data, i)
      else partitionEqual_loop turns (Swap data i j) a (i + 1) (j - 1)
  end.

Definition partitionEqual_func (data : list A) (a b pivot : nat) : list A * nat :=
  let data := Swap data a pivot in
  partitionEqual_loop (b - a) data a (a + 1) (b - 1).

(** [for i < b && !data.Less(i, i-1) { i++ }] *)
Fixpoint skip_ordered (turns : nat) (data : list A) (i b : nat) : nat :=
  match turns with
  | O => i
  | S turns =>
      if (i <? b) && negb (Less data i (i - 1)) then skip_ordered turns data (S i) b else i
  end.

(** [for j := i - 1; j >= 1; j-- { if !data.Less(j, j-1) { break }; data.Swap(j, j-1) }] *)
Fixpoint shift_left (data : list A) (j : nat) : list A :=
  match j with
  | S j' => if negb (Less data j j') then data else shift_left (Swap data j j') j'
  | O => data
  end.

(** [for j := i + 1; j < b; j++ { if !data.Less(j, j-1) { break }; data.Swap(j, j-1) }] *)
Fixpoint shift_right (turns : nat) (data : list A) (j b : nat) : list A :=
  match turns with
  | O => data
  | S turns =>
      if j <? b then
        if negb (Less data j (j - 1)) then data
        else shift_right turns (Swap data j (j - 1)) (S j) b
      else data
  end.

Definition maxSteps : nat := 5.
Definition shortestShifting : nat := 50.

Fixpoint partialInsertionSort_loop (steps : nat) (data : list A) (a b i : nat)
  : list A * bool :=
  match steps with
  | O => (data, false)
  | S steps =>
      let i := skip_ordered (b - i) data i b in
      if i =? b then (data, true)
      else if b - a <? shortestShifting then (data, false)
      else
        let data := Swap data i (i - 1) in
        let data := if 2 <=? i - a then shift_left data (i - 1) else data in
        let data := if 2 <=? b - i then shift_right (b - (i + 1)) data (i + 1) b else data in
        partialInsertionSort_loop steps data a b i
  end.

Definition partialInsertionSort_func (data : list A) (a b : nat) : list A * bool :=
  partialInsertionSort_loop maxSteps data a b (a + 1).

(** [bits.Len(uint(n))] *)
Definition bits_Len (n : nat) : nat := N.size_nat (N.of_nat n).

Definition nextPowerOfTwo (n : nat) : N := N.shiftl 1 (N.of_nat (bits_Len n)).

(** [xorshift.Next], on a [uint64]. *)
Definition xorshift_Next (r : N) : N :=
  let m := (2 ^ 64)%N in
  let r := N.lxor r (N.shiftl r 13 mod m) in
  let r := N.lxor r (N.shiftr r 7) in
  let r := N.lxor r (N.shiftl r 17 mod m) in
  r.

Definition breakPatterns_func (data : list A) (a b : nat) : list A :=
  let n := b - a in
  if 8 <=? n then
    let modulus := nextPowerOfTwo n in
    let idx := a + (n / 4) * 2 - 1 in
    let step (st : list A * N) (i : nat) : list A * N :=
      let '(data, random) := st in
      let random := xorshift_Next random in
      let other := N.to_nat (N.land random (modulus - 1)) in
      let other := if n <=? other then other - n else other in
      (Swap data (idx - 1 + i) (a + other), random) in
    fst (foldl step (data, N.of_nat n) (seq 0 3))
  else data.

Inductive sortedHint : Type := unknownHint | increasingHint | decreasingHint.

(** [order2_func], with the counter [*swaps] threaded through. *)
Definition order2_func (data : list A) (a b swaps : nat) : nat * nat * nat :=
  if Less data b a then (b, a, S swaps) else (a, b, swaps).

Definition median_func (data : list A) (a b c swaps : nat) : nat * nat :=
  let '(a, b, swaps) := order2_func data a b swaps in
  let '(b, c, swaps) := order2_func data b c swaps in
  let '(a, b, swaps) := order2_func data a b swaps in
  (b, swaps).

Definition medianAdjacent_func (data : list A) (a swaps : nat) : nat * nat :=
  median_func data (a - 1) a (a + 1) swaps.

Definition shortestNinther : nat := 50.
Definition maxSwaps : nat := 4 * 3.

Definition choosePivot_func (data : list A) (a b : nat) : nat * sortedHint :=
  let l := b - a in
  let swaps := 0 in
  let i := a + l / 4 * 1 in
  let j := a + l / 4 * 2 in
  let k := a + l / 4 * 3 in
  let '(j, swaps) :=
    if 8 <=? l then
      let '(i, j, k, swaps) :=
        if shortestNinther <=? l then
          let '(i, swaps) := medianAdjacent_func data i swaps in
          let '(j, swaps) := medianAdjacent_func data j swaps in
          let '(k, swaps) := medianAdjacent_func data k swaps in
          (i, j, k, swaps)
        else (i, j, k, swaps) in
      median_func data i j k swaps
    else (j, swaps) in
  if swaps =? 0 then (j, increasingHint)
  else if swaps =? maxSwaps then (j, decreasingHint)
  else (j, unknownHint).

(** [for i < j { data.Swap(i, j); i++; j-- }] with [i := a], [j := b - 1]. *)
Fixpoint reverseRange_loop (turns : nat) (data : list A) (i j : nat) : list A :=
  match turns with
  | O => data
  | S turns => if i <? j then reverseRange_loop turns (Swap data i j) (i + 1) (j - 1) else data
  end.

Definition reverseRange_func (data : list A) (a b : nat) : list A :=
  reverseRange_loop (b - a) data a (b - 1).

Definition maxInsertion : nat := 12.

(** [pdqsort_func(data, a, b, limit)]: one [turn] is one turn of its [for]
    loop, with the flags [wasBalanced] and [wasPartitioned] as arguments;
    each turn and each recursive call works on a shorter range, so
    [b - a + 1] turns are enough. *)
Fixpoint pdqsort_loop (turns : nat) (data : list A) (a b limit : nat)
    (wasBalanced wasPartitioned : bool) : list A :=
  match turns with
  | O => data
  | S turns =>
      let n := b - a in
      if n <=? maxInsertion then insertionSort_func data a b
      else if limit =? 0 then heapSort_func data a b
      else
        let '(data, limit) :=
          if negb wasBalanced then (breakPatterns_func data a b, limit - 1)
          else (data, limit) in
        let '(pivot, hint) := choosePivot_func data a b in
        let '(data, pivot, hint) :=
          match hint with
          | decreasingHint =>
              (reverseRange_func data a b, (b - 1) - (pivot - a), increasingHint)
          | _ => (data, pivot, hint)
          end in
        let '(data, sorted) :=
          match hint with
          | increasingHint =>
              if wasBalanced && wasPartitioned then partialInsertionSort_func data a b
              else (data, false)
          | _ => (data, false)
          end in
        if sorted then data
        else if (0 <? a) && negb (Less data (a - 1) pivot) then
          let '(data, mid) := partitionEqual_func data a b pivot in
          pdqsort_loop turns data mid b limit wasBalanced wasPartitioned
        else
          let '(data, mid, alreadyPartitioned) := partition_func data a b pivot in
          let wasPartitioned := alreadyPartitioned in
          let leftLen := mid - a in
          let rightLen := b - mid in
          let balanceThreshold := n / 8 in
          if leftLen <? rightLen then
            let wasBalanced := balanceThreshold <=? leftLen in
            let data := pdqsort_loop turns data a mid limit true true in
            pdqsort_loop turns data (mid + 1) b limit wasBalanced wasPartitioned
          else
            let wasBalanced := balanceThreshold <=? rightLen in
            let data := pdqsort_loop turns data (mid + 1) b limit true true in
            pdqsort_loop turns data a mid limit wasBalanced wasPartitioned
  end.

Definition pdqsort_func (data : list A) (a b limit : nat) : list A :=
  pdqsort_loop (b - a + 1) data a b limit true true.

Definition Slice (x : list A) : list A :=
  let n := length x in
  let limit := bits_Len n in
  pdqsort_func x 0 n limit.
End lessSwap.
End sort.

(** ** The monad of the hub

    A computation of the hub yields the list of adapter calls it made and of
    the lines it logged, and either returns or panics; a panic of an adapter
    is not recovered anywhere in the hub. *)
Inductive event : Type :=
  | call_GetQuote (provider : RemittanceProvider) (req : TransactionRequest.t)
  | call_SendMoney (provider : RemittanceProvider) (req : TransactionRequest.t)
  | log_line (line : string).

Definition M (A : Type) : Type := list event * outcome A.

Definition ret {A} (a : A) : M A := ([], Done a).

Definition bind {A B} (m : M A) (k : A -> M B) : M B :=
  match m with
  | (t, Done a) => let '(t', r) := k a in ((t ++ t')%list, r)
  | (t, Panicked msg) => (t, Panicked msg)
  end.

Notation "'do!' x ':=' m 'in' k" := (bind m (fun x => k))
  (at level 10, x name, m at level 100, k at level 200, only parsing).

Definition panic {A} (msg : string) : M A := ([], Panicked msg).
Definition trace {A} (m : M A) : list event := fst m.
Definition result {A} (m : M A) : outcome A := snd m.

(** [provider.GetQuote(ctx, req)] and [provider.SendMoney(ctx, req)]. *)
Definition invoke_GetQuote (provider : RemittanceProvider) (req : TransactionRequest.t)
  : M (res RemittanceQuote.t) :=
  ([call_GetQuote provider req], GetQuote provider req).

Definition invoke_SendMoney (provider : RemittanceProvider) (req : TransactionRequest.t)
  : M (res TransactionResponse.t) :=
  ([call_SendMoney provider req], SendMoney provider req).

Definition log_Printf (line : string) : M unit := ([log_line line], Done tt).

(** [s[i]] on a slice. *)
Definition index {A} (s : list A) (i : nat) : M A :=
  match s !! i with
  | Some x => ret x
  | None => panic "runtime error: index out of range"
  end.

(** ** Remittance Hub - main orchestrator *)

Record RemittanceHub : Type := { providers : list RemittanceProvider }.

Definition NewRemittanceHub : RemittanceHub := {| providers := [] |}.

Definition AddProvider (rh : RemittanceHub) (provider : RemittanceProvider) : RemittanceHub :=
  {| providers := (providers rh ++ [provider])%list |}.

(** The two inner loops of [GetAvailableProviders]:
    [for _, x := range items { if x == from || x == to { found = true; break } }] *)
Fixpoint supports (items : list string) (from to : string) : bool :=
  match items with
  | [] => false
  | x :: rest => if String.eqb x from || String.eqb x to then true else supports rest from to
  end.

Definition GetAvailableProviders (rh : RemittanceHub)
    (fromCountry toCountry : string) (fromCurrency toCurrency : Currency)
  : list RemittanceProvider :=
  foldl
    (fun available provider =>
       let supportsCurrencies :=
         supports (GetSupportedCurrencies provider) fromCurrency toCurrency in
       let supportsCountries :=
         supports (GetSupportedCountries provider) fromCountry toCountry in
       if supportsCurrencies && supportsCountries
       then (available ++ [provider])%list
       else available)
    [] (providers rh).

(** The loop of [GetQuotes] over the available providers, [quotes] being the
    slice built so far. *)
Fixpoint GetQuotes_range (available : list RemittanceProvider)
    (req : TransactionRequest.t) (quotes : list RemittanceQuote.t)
  : M (list RemittanceQuote.t) :=
  match available with
  | [] => ret quotes
  | provider :: rest =>
      do! r := invoke_GetQuote provider req in
      match r with
      | Err err =>
          do! _ := log_Printf ("Error getting quote from " ++ GetName provider
                               ++ ": " ++ Error err) in
          GetQuotes_range rest req quotes
      | Ok quote => GetQuotes_range rest req (quotes ++ [quote])%list
      end
  end.

(** [quotes[i].TotalCost < quotes[j].TotalCost] *)
Definition byTotalCost (qi qj : RemittanceQuote.t) : bool :=
  PrimFloat.ltb (RemittanceQuote.TotalCost qi) (RemittanceQuote.TotalCost qj).

Definition GetQuotes (rh : RemittanceHub) (req : TransactionRequest.t)
  : M (res (list RemittanceQuote.t)) :=
  let available :=
    GetAvailableProviders rh "US"
      (Address.CountryCode (Recipient.Address (TransactionRequest.Recipient req)))
      (TransactionRequest.FromCurrency req) (TransactionRequest.ToCurrency req) in
  do! quotes := GetQuotes_range available req [] in
  let quotes := sort.Slice byTotalCost quotes in
  ret (Ok quotes).

Fixpoint SendMoneyWithProvider_range (registered : list RemittanceProvider)
    (providerName : string) (req : TransactionRequest.t)
  : M (res TransactionResponse.t) :=
  match registered with
  | [] => ret (Err (wrapError ("provider " ++ providerName ++ " not found")))
  | provider :: rest =>
      if String.eqb (GetName provider) providerName
      then invoke_SendMoney provider req
      else SendMoneyWithProvider_range rest providerName req
  end.

Definition SendMoneyWithProvider (rh : RemittanceHub) (providerName : string)
    (req : TransactionRequest.t) : M (res TransactionResponse.t) :=
  SendMoneyWithProvider_range (providers rh) providerName req.

Definition GetBestQuote (rh : RemittanceHub) (req : TransactionRequest.t)
  : M (res RemittanceQuote.t) :=
  do! r := GetQuotes rh req in
  match r with
  | Err err => ret (Err err)
  | Ok quotes =>
      if (length quotes =? 0)%nat
      then ret (Err (errorString "no quotes available"))
      else
        do! best := index quotes 0 in
        ret (Ok best)
  end.

(** ** Wallet Service Integration *)

Record WalletRemittanceService : Type := { hub : RemittanceHub }.

Definition NewWalletRemittanceService (wd : World) : WalletRemittanceService :=
  let hub := NewRemittanceHub in
  let hub := AddProvider hub (Wise wd (NewWiseProvider "wise-api-key" "wise-profile-id")) in
  let hub := AddProvider hub (Remitly wd (NewRemitlyProvider "remitly-api-key")) in
  let hub := AddProvider hub
    (WorldRemit wd (NewWorldRemitProvider "worldremit-api-key" "worldremit-secret")) in
  {| hub := hub |}.

Definition GetRemittanceOptions (wrs : WalletRemittanceService) (req : TransactionRequest.t)
  : M (res (list RemittanceQuote.t)) :=
  GetQuotes (hub wrs) req.

Definition SendRemittance (wrs : WalletRemittanceService) (providerName : string)
    (req : TransactionRequest.t) : M (res TransactionResponse.t) :=
  SendMoneyWithProvider (hub wrs) providerName req.

Definition GetBestOption (wrs : WalletRemittanceService) (req : TransactionRequest.t)
  : M (res RemittanceQuote.t) :=
  GetBestQuote (hub wrs) req.

(** ** Notions used by the statements *)

(** [provider] supports one of the two currencies and one of the two countries. *)
Definition eligible (fromCountry toCountry : string) (fromCurrency toCurrency : Currency)
    (provider : RemittanceProvider) : Prop :=
  Exists (fun currency => currency = fromCurrency \/ currency = toCurrency)
         (GetSupportedCurrencies provider)
  /\ Exists (fun country => country = fromCountry \/ country = toCountry)
            (GetSupportedCountries provider).

#[global] Instance eligible_dec fromCountry toCountry fromCurrency toCurrency provider :
  Decision (eligible fromCountry toCountry fromCurrency toCurrency provider).
Proof. unfold eligible. apply _. Defined.

(** The providers that [GetQuotes] considers for [req]. *)
Definition corridor_providers (rh : RemittanceHub) (req : TransactionRequest.t)
  : list RemittanceProvider :=
  GetAvailableProviders rh "US"
    (Address.CountryCode (Recipient.Address (TransactionRequest.Recipient req)))
    (TransactionRequest.FromCurrency req) (TransactionRequest.ToCurrency req).

Definition succeeded (req : TransactionRequest.t) (provider : RemittanceProvider)
  : option RemittanceQuote.t :=
  match GetQuote provider req with
  | Done (Ok quote) => Some quote
  | _ => None
  end.

(** The quotes of the providers of [l] whose [GetQuote] succeeds, in the
    order of [l]. *)
Definition successful_quotes (req : TransactionRequest.t) (l : list RemittanceProvider)
  : list RemittanceQuote.t :=
  omap (succeeded req) l.

(** The message of the first provider of [l] whose [GetQuote] panics. *)
Fixpoint first_panic (req : TransactionRequest.t) (l : list RemittanceProvider)
  : option string :=
  match l with
  | [] => None
  | provider :: rest =>
      match GetQuote provider req with
      | Panicked msg => Some msg
      | Done _ => first_panic req rest
      end
  end.

(** The providers a trace called [GetQuote] or [SendMoney] on, in order. *)
Definition quoted (t : list event) : list RemittanceProvider :=
  omap (fun e => match e with call_GetQuote p _ => Some p | _ => None end) t.

Definition sent (t : list event) : list (RemittanceProvider * TransactionRequest.t) :=
  omap (fun e => match e with call_SendMoney p req => Some (p, req) | _ => None end) t.

(** The first provider registered under [name]. *)
Fixpoint lookup_provider (name : string) (l : list RemittanceProvider)
  : option RemittanceProvider :=
  match l with
  | [] => None
  | provider :: rest =>
      if decide (GetName provider = name) then Some provider else lookup_provider name rest
  end.

(** Go's [<=] and [==] on [TotalCost]. *)
Definition cost_le (q1 q2 : RemittanceQuote.t) : Prop :=
  PrimFloat.leb (RemittanceQuote.TotalCost q1) (RemittanceQuote.TotalCost q2) = true.

Definition same_cost (c : float64) (q : RemittanceQuote.t) : Prop :=
  PrimFloat.eqb (RemittanceQuote.TotalCost q) c = true.

#[global] Instance same_cost_dec c q : Decision (same_cost c q).
Proof. unfold same_cost. apply _. Defined.

(** [output] lists its quotes by non-decreasing [TotalCost]. *)
Definition sorted_by_TotalCost (output : list RemittanceQuote.t) : Prop :=
  StronglySorted cost_le output.

(** The quotes of every one cost come in [output] in the order they have in
    [input]. *)
Definition ties_in_order (input output : list RemittanceQuote.t) : Prop :=
  forall c : float64, filter (same_cost c) output = filter (same_cost c) input.

(** The [TotalCost] of [q] is a number. *)
Definition has_cost (q : RemittanceQuote.t) : Prop :=
  is_nan (RemittanceQuote.TotalCost q) = false.

Definition no_NaN (quotes : list RemittanceQuote.t) : Prop := Forall has_cost quotes.

(** The providers of [l] that the loop of [GetQuotes] reaches: all of them
    up to the first one whose [GetQuote] panics. *)
Fixpoint attempted (req : TransactionRequest.t) (l : list RemittanceProvider)
  : list RemittanceProvider :=
  match l with
  | [] => []
  | provider :: rest =>
      provider ::
      match GetQuote provider req with
      | Panicked _ => []
      | Done _ => attempted req rest
      end
  end.

(** ** The request of [main], and worlds to run it in *)

Definition main_recipient : Recipient.t :=
  {| Recipient.ID := "recipient-123";
     Recipient.Name := "John Doe";
     Recipient.Email := "john@example.com";
     Recipient.Phone := "+1234567890";
     Recipient.Address :=
       {| Address.Street := "123 Main St";
          Address.City := "Manila";
          Address.State := "";
          Address.PostalCode := "";
          Address.Country := "Philippines";
          Address.CountryCode := "PH" |};
     Recipient.BankDetails := [] |}.

Definition main_request : TransactionRequest.t :=
  {| TransactionRequest.SenderID := "sender-456";
     TransactionRequest.Recipient := main_recipient;
     TransactionRequest.Amount := 1000.0%float;
     TransactionRequest.FromCurrency := USD;
     TransactionRequest.ToCurrency := PHP;
     TransactionRequest.PaymentMethod := PaymentBankTransfer;
     TransactionRequest.Purpose := "Family support";
     TransactionRequest.Reference := "REF-001" |}.

(** A world whose Wise backend answers every request with [body]. *)
Definition world_answering (body : http.ResponseBody) : World :=
  {| time_Now := 1700000000000000000%Z;
     transport := fun _ => http.Response body;
     fused := false |}.

(** A world whose Wise backend cannot be reached. *)
Definition world_offline : World :=
  {| time_Now := 1700000000000000000%Z;
     transport := fun _ => http.Failed "Post https://api.transferwise.com/v1/quotes: dial tcp: i/o timeout";
     fused := false |}.

(** The answer of the example of the specification: fee 15 at rate 1.2. *)
Definition wise_answer : http.ResponseBody :=
  http.JSONText (JObject [("id", JString "T-1");
                          ("fee", JNumber 15%float);
                          ("rate", JNumber 1.2%float);
                          ("targetAmount", JNumber 1200%float)]).

(** An answer that is JSON but not a quote: the body of an error reply. *)
Definition wise_refusal : http.ResponseBody :=
  http.JSONText (JObject [("error", JString "unauthorized")]).

(** ** Insertion sort on lists

    What [insertionSort_func] computes on the range it is given, as a
    function on lists: the elements are taken from left to right, and each
    one, appended to those already placed, moves left past the elements it
    is [less] than. *)
Section insertion_on_lists.
Context {A : Type}.
Variable less : A -> A -> bool.

(** [insert_rev x l]: the insertion of [x], on the list of the elements
    already placed read from right to left. *)
Fixpoint insert_rev (x : A) (l : list A) : list A :=
  match l with
  | [] => [x]
  | y :: rest => if less x y then y :: insert_rev x rest else x :: y :: rest
  end.

Definition insert_last (placed : list A) (x : A) : list A :=
  reverse (insert_rev x (reverse placed)).

Definition isort (l : list A) : list A := foldl insert_last [] l.

(** [x] is not after [y] in the order of [less]. *)
Definition not_after (x y : A) : Prop := less y x = false.
End insertion_on_lists.

(** [less] is a strict weak order on the elements that satisfy [good]: it is
    asymmetric, and being not less is transitive. *)
Class StrictWeakOrder {A : Type} (less : A -> A -> bool) (good : A -> Prop) : Prop := {
  less_asym : forall x y, good x -> good y -> less x y = true -> less y x = false;
  less_negtrans : forall x y z, good x -> good y -> good z ->
    less x y = false -> less y z = false -> less x z = false
}.

(** ** Binary64 values as keys

    A binary64 value that is not NaN, as a triple of integers whose
    lexicographic order is the order of [<] (zeros of both signs are equal). *)
Definition rank (f : spec_float) : Z * Z * Z :=
  match f with
  | S754_zero _ | S754_nan => (0, 0, 0)%Z
  | S754_infinity s => (if s then (-2)%Z else 2%Z, 0%Z, 0%Z)
  | S754_finite s m e => if s then ((-1)%Z, (- e)%Z, (- Z.pos m)%Z) else (1%Z, e, Z.pos m)
  end.

Definition lex_compare (p q : Z * Z * Z) : comparison :=
  match (p.1.1 ?= q.1.1)%Z with
  | Eq => match (p.1.2 ?= q.1.2)%Z with
          | Eq => (p.2 ?= q.2)%Z
          | c => c
          end
  | c => c
  end.

(** ** Ranges of a slice

    The functions of package [sort] work on a range [data[a:b]] of the slice
    and leave the rest of it alone.  The notions below state what they do to
    the range. *)
Section ranges.
Context {A : Type}.
Local Open Scope nat_scope.

(** [data[a:b]] *)
Definition seg (a b : nat) (data : list A) : list A := take (b - a) (drop a data).

(** [data'] has the length of [data] and its elements outside [a, b). *)
Definition frame (a b : nat) (data data' : list A) : Prop :=
  length data' = length data
  /\ forall k, k < a \/ b <= k -> data' !! k = data !! k.

(** [data'] is [data] with the elements of [data[a:b]] in another order. *)
Definition rearranged (a b : nat) (data data' : list A) : Prop :=
  data' ≡ₚ data /\ frame a b data data'.

(** Every element of [data[a:b]] satisfies [P]. *)
Definition all_in (a b : nat) (data : list A) (P : A -> Prop) : Prop :=
  forall k x, a <= k < b -> data !! k = Some x -> P x.

(** [data[a:b]] is sorted for the relation [R]. *)
Definition sorted_range (R : relation A) (a b : nat) (data : list A) : Prop :=
  forall i j x y, a <= i -> i < j -> j < b ->
    data !! i = Some x -> data !! j = Some y -> R x y.

(** The state of the two scans of [partition_func] and of
    [partitionEqual_func]: [p] is at [a], the elements of [(a, i)] pass the
    test [f] that sends an element to the left, those of [(j, b)] fail it. *)
Definition scanned (f : A -> bool) (a b : nat) (p : A) (data : list A) (i j : nat) : Prop :=
  a < i /\ i <= j + 1 /\ j < b /\ b <= length data
  /\ data !! a = Some p
  /\ all_in (a + 1) i data (fun x => f x = true)
  /\ all_in (j + 1) b data (fun x => f x = false).

Variable less : A -> A -> bool.

(** The elements of [data[first:first+hi]], read as a binary tree with the
    children of [k] at [2k+1] and [2k+2], are not after their parent,
    wherever the parent is at [lo] or later. *)
Definition heap_from (lo hi first : nat) (data : list A) : Prop :=
  forall c x y, 1 <= c -> c < hi -> lo <= (c - 1) / 2 ->
    data !! (first + c) = Some x -> data !! (first + (c - 1) / 2) = Some y ->
    not_after less x y.

(** The state of the loop of [siftDown_func] at [root]: the heap order holds
    except between [root] and its children, which are not after the parent
    of [root]. *)
Definition sifting (lo hi first root : nat) (data : list A) : Prop :=
  (forall c x y, 1 <= c -> c < hi -> lo <= (c - 1) / 2 -> (c - 1) / 2 <> root ->
     data !! (first + c) = Some x -> data !! (first + (c - 1) / 2) = Some y ->
     not_after less x y)
  /\ (1 <= root -> lo <= (root - 1) / 2 ->
      forall c x y, 1 <= c -> c < hi -> (c - 1) / 2 = root ->
        data !! (first + c) = Some x -> data !! (first + (root - 1) / 2) = Some y ->
        not_after less x y).

(** The element before [data[a:b]], if there is one, is not after any
    element of it. *)
Definition lower_bound (a b : nat) (data : list A) : Prop :=
  forall p, 1 <= a -> data !! (a - 1) = Some p -> all_in a b data (not_after less p).
End ranges.

(** ** Adapters with a flat fee, and hubs built from them

    Further implementations of the provider contract, to run the hub with
    more than the three adapters of the repository. *)

(** An adapter for the corridor of [main] that quotes [fee] on every request. *)
Definition flat_fee (name : string) (fee : float64) : RemittanceProvider :=
  {| GetName := name;
     GetSupportedCurrencies := [USD; PHP];
     GetSupportedCountries := ["US"; "PH"];
     GetQuote := fun req =>
       Done (Ok {| RemittanceQuote.Provider := name;
                   RemittanceQuote.Amount := TransactionRequest.Amount req;
                   RemittanceQuote.Fee := fee;
                   RemittanceQuote.ExchangeRate := 1%float;
                   RemittanceQuote.TotalCost := (TransactionRequest.Amount req + fee)%float;
                   RemittanceQuote.ReceivedAmount := TransactionRequest.Amount req;
                   RemittanceQuote.EstimatedTime := "Minutes";
                   RemittanceQuote.ValidUntil := 0%Z |});
     SendMoney := fun _ => Done (Err (errorString "transfers are not supported")) |}.

(** The hub after [AddProvider] was called with each adapter of [l] in turn. *)
Definition hub_of (l : list RemittanceProvider) : RemittanceHub :=
  foldl AddProvider NewRemittanceHub l.

(** Thirteen adapters: the first two charge 2, the other eleven charge 1. *)
Definition thirteen_providers : list RemittanceProvider :=
  [flat_fee "P01" 2%float; flat_fee "P02" 2%float; flat_fee "P03" 1%float; flat_fee "P04" 1%float;
   flat_fee "P05" 1%float; flat_fee "P06" 1%float; flat_fee "P07" 1%float; flat_fee "P08" 1%float;
   flat_fee "P09" 1%float; flat_fee "P10" 1%float; flat_fee "P11" 1%float; flat_fee "P12" 1%float;
   flat_fee "P13" 1%float].

(** Three adapters, the second of which quotes a fee that is not a number. *)
Definition providers_with_NaN : list RemittanceProvider :=
  [flat_fee "A" 2%float; flat_fee "B" nan%float; flat_fee "C" 1%float].

(** A hub whose only adapter is Wise. *)
Definition wise_only (wd : World) : RemittanceHub :=
  hub_of [Wise wd (NewWiseProvider "wise-api-key" "wise-profile-id")].

(** ** The other methods of the adapters

    [GetTransactionStatus] and [GetExchangeRates] of the three adapters, which
    the hub does not call, and the request plumbing of Remitly.  A
    transaction id or a currency that makes the URL unparsable makes
    [http.NewRequestWithContext] fail with a [*url.Error]; this failure is
    among those of the [transport]. *)

Module ExchangeRate.
Record t : Type := mk {
  From : Currency;
  To : Currency;
  Rate : float64;
  Fee : float64;
  ValidUntil : time_Time
}.
End ExchangeRate.

(** The elements of a JSON array decoded into [map[string]interface{}] each:
    an object fills a map, [null] leaves the map nil, and the first element
    that is anything else is the error that [Decode] reports once it has read
    the whole array. *)
Fixpoint Decode_elements (l : list json) : res (list (list (string * json))) :=
  match l with
  | [] => Ok []
  | JObject m :: rest =>
      match Decode_elements rest with
      | Ok maps => Ok (m :: maps)
      | Err err => Err err
      end
  | JNull :: rest =>
      match Decode_elements rest with
      | Ok maps => Ok ([] :: maps)
      | Err err => Err err
      end
  | v :: _ =>
      Err (json_UnmarshalTypeError
             (value_kind v ++ " into Go value of type map[string]interface {}"))
  end.

(** [json.NewDecoder(body).Decode(&rates)] with [rates] a nil
    [[]map[string]interface{}]. *)
Definition Decode_maps (body : http.ResponseBody) : res (list (list (string * json))) :=
  match body with
  | http.Empty => Err io_EOF
  | http.Truncated => Err io_ErrUnexpectedEOF
  | http.NotJSON text => Err (json_SyntaxError text)
  | http.JSONText (JArray l) => Decode_elements l
  | http.JSONText JNull => Ok []
  | http.JSONText v =>
      Err (json_UnmarshalTypeError
             (value_kind v ++ " into Go value of type []map[string]interface {}"))
  end.

(** A [TransactionResponse] with the fields that [GetTransactionStatus] sets;
    the others keep their zero value. *)
Definition status_response (transactionID : string) (status : TransactionStatus)
    (trackingURL : string) : TransactionResponse.t :=
  {| TransactionResponse.TransactionID := transactionID;
     TransactionResponse.Status := status;
     TransactionResponse.Amount := 0%float;
     TransactionResponse.Fee := 0%float;
     TransactionResponse.ExchangeRate := 0%float;
     TransactionResponse.EstimatedTime := "";
     TransactionResponse.TrackingURL := trackingURL;
     TransactionResponse.Error := "" |}.

Section Wise_more.
Variable wd : World.
Variable w : WiseProvider.t.

Definition Wise_GetTransactionStatus (transactionID : string)
  : outcome (res TransactionResponse.t) :=
  match Wise_makeRequest wd w "GET" ("/v1/transfers/" ++ transactionID) None with
  | Err err => Done (Err err)
  | Ok resp =>
      match Decode_map resp with
      | Err err => Done (Err err)
      | Ok statusResp =>
          let! reported := assert_string (member "status" statusResp) in
          let status :=
            if String.eqb reported "outgoing_payment_sent"
            then StatusCompleted else StatusPending in
          Done (Ok (status_response transactionID status
                      ("https://wise.com/track/" ++ transactionID)))
      end
  end.

Definition Wise_GetExchangeRates (from to : Currency) : outcome (res ExchangeRate.t) :=
  let endpoint := "/v1/rates?source=" ++ from ++ "&target=" ++ to in
  match Wise_makeRequest wd w "GET" endpoint None with
  | Err err => Done (Err err)
  | Ok resp =>
      match Decode_maps resp with
      | Err err => Done (Err err)
      | Ok rates =>
          match rates with
          | [] => Done (Err (errorString "no exchange rate found"))
          | first :: _ =>
              let! rate := assert_float64 (member "rate" first) in
              Done (Ok {| ExchangeRate.From := from;
                          ExchangeRate.To := to;
                          ExchangeRate.Rate := rate;
                          ExchangeRate.Fee := 5.0%float;
                          ExchangeRate.ValidUntil :=
                            time_Add (time_Now wd) (1 * time_Hour)%Z |})
          end
      end
  end.
End Wise_more.

Section Remitly_more.
Variable wd : World.
Variable r : RemitlyProvider.t.


Definition Remitly_GetTransactionStatus (transactionID : string)
  : outcome (res TransactionResponse.t) :=
  Done (Ok (status_response transactionID StatusCompleted
              ("https://remitly.com/track/" ++ transactionID))).

Definition Remitly_GetExchangeRates (from to : Currency) : outcome (res ExchangeRate.t) :=
  Done (Ok {| ExchangeRate.From := from;
              ExchangeRate.To := to;
              ExchangeRate.Rate := 1.15%float;
              ExchangeRate.Fee := 3.0%float;
              ExchangeRate.ValidUntil := time_Add (time_Now wd) (30 * time_Minute)%Z |}).
End Remitly_more.

Section WorldRemit_more.
Variable wd : World.

Definition WorldRemit_GetTransactionStatus (transactionID : string)
  : outcome (res TransactionResponse.t) :=
  Done (Ok (status_response transactionID StatusCompleted
              ("https://worldremit.com/track/" ++ transactionID))).

Definition WorldRemit_GetExchangeRates (from to : Currency) : outcome (res ExchangeRate.t) :=
  Done (Ok {| ExchangeRate.From := from;
              ExchangeRate.To := to;
              ExchangeRate.Rate := 1.18%float;
              ExchangeRate.Fee := 5.99%float;
              ExchangeRate.ValidUntil := time_Add (time_Now wd) (15 * time_Minute)%Z |}).
End WorldRemit_more.

(** ** The request signature of WorldRemit

    [generateSignature] signs with HMAC-SHA256 and writes the tag in
    hexadecimal.  The packages [crypto/sha256], [crypto/hmac] and
    [encoding/hex] of the Go standard library are embedded as far as it uses
    them; a [[]byte] is a list of numbers below 256, a [uint32] a number
    below 2^32. *)

(** [[]byte(s)] *)
Definition bytes_of (s : string) : list N := map Ascii.N_of_ascii (String.list_ascii_of_string s).

Module sha256.
Local Open Scope list_scope.
Local Open Scope N_scope.

Definition uint32 (x : N) : N := x mod 2 ^ 32.

(** [bits.RotateLeft32(x, -k)] *)
Definition rotateRight (x k : N) : N :=
  N.lor (N.shiftr x k) (uint32 (N.shiftl x (32 - k))).

(** The table [_K]: the first 32 bits of the fractional parts of the cube roots
    of the first 64 primes, from 0x428a2f98 for 2 to 0xc67178f2 for 311. *)
Definition _K : list N :=
  [1116352408; 1899447441; 3049323471; 3921009573; 961987163; 1508970993;
   2453635748; 2870763221; 3624381080; 310598401; 607225278; 1426881987;
   1925078388; 2162078206; 2614888103; 3248222580; 3835390401; 4022224774;
   264347078; 604807628; 770255983; 1249150122; 1555081692; 1996064986;
   2554220882; 2821834349; 2952996808; 3210313671; 3336571891; 3584528711;
   113926993; 338241895; 666307205; 773529912; 1294757372; 1396182291;
   1695183700; 1986661051; 2177026350; 2456956037; 2730485921; 2820302411;
   3259730800; 3345764771; 3516065817; 3600352804; 4094571909; 275423344;
   430227734; 506948616; 659060556; 883997877; 958139571; 1322822218;
   1537002063; 1747873779; 1955562222; 2024104815; 2227730452; 2361852424;
   2428436474; 2756734187; 3204031479; 3329325298].

(** The eight words [h[0..7]] of a digest. *)
Definition state : Type := N * N * N * N * N * N * N * N.

(** The initial digest: the first 32 bits of the fractional parts of the
    square roots of the first 8 primes, from 0x6a09e667 to 0x5be0cd19. *)
Definition init : state :=
  (1779033703, 3144134277, 1013904242, 2773480762,
   1359893119, 2600822924, 528734635, 1541459225).

(** [w[i] = uint32(p[j])<<24 | uint32(p[j+1])<<16 | uint32(p[j+2])<<8 | uint32(p[j+3])]
    for the 16 words of a chunk. *)
Fixpoint words (turns : nat) (p : list N) : list N :=
  match turns with
  | O => []
  | S turns =>
      N.lor (N.lor (N.lor (N.shiftl (nth 0 p 0) 24) (N.shiftl (nth 1 p 0) 16))
                   (N.shiftl (nth 2 p 0) 8))
            (nth 3 p 0)
      :: words turns (drop 4 p)
  end.

(** The loop [for i := 16; i < 64; i++] that extends [w], which holds
    [w[0..i-1]]. *)
Fixpoint schedule (turns : nat) (w : list N) : list N :=
  match turns with
  | O => w
  | S turns =>
      let i := length w in
      let v1 := nth (i - 2)%nat w 0 in
      let t1 := N.lxor (N.lxor (rotateRight v1 17) (rotateRight v1 19)) (N.shiftr v1 10) in
      let v2 := nth (i - 15)%nat w 0 in
      let t2 := N.lxor (N.lxor (rotateRight v2 7) (rotateRight v2 18)) (N.shiftr v2 3) in
      schedule turns (w ++ [uint32 (t1 + nth (i - 7)%nat w 0 + t2 + nth (i - 16)%nat w 0)])
  end.

(** The loop [for i := 0; i < 64; i++] over [_K[i]] and [w[i]]. *)
Fixpoint rounds (ks ws : list N) (s : state) : state :=
  match ks, ws with
  | k :: ks, w :: ws =>
      let '(a, b, c, d, e, f, g, h) := s in
      let t1 :=
        uint32 (h + N.lxor (N.lxor (rotateRight e 6) (rotateRight e 11)) (rotateRight e 25)
                + N.lxor (N.land e f) (N.land (N.lxor e 0xffffffff) g) + k + w) in
      let t2 :=
        uint32 (N.lxor (N.lxor (rotateRight a 2) (rotateRight a 13)) (rotateRight a 22)
                + N.lxor (N.lxor (N.land a b) (N.land a c)) (N.land b c)) in
      rounds ks ws (uint32 (t1 + t2), a, b, c, uint32 (d + t1), e, f, g)
  | _, _ => s
  end.

(** [blockGeneric]: the loop [for len(p) >= chunk]. *)
Fixpoint blockGeneric (turns : nat) (dig : state) (p : list N) : state :=
  match turns with
  | O => dig
  | S turns =>
      if (64 <=? length p)%nat then
        let w := schedule 48 (words 16 p) in
        let '(h0, h1, h2, h3, h4, h5, h6, h7) := dig in
        let '(a, b, c, d, e, f, g, h) := rounds _K w dig in
        blockGeneric turns
          (uint32 (h0 + a), uint32 (h1 + b), uint32 (h2 + c), uint32 (h3 + d),
           uint32 (h4 + e), uint32 (h5 + f), uint32 (h6 + g), uint32 (h7 + h))
          (drop 64 p)
      else dig
  end.

(** [binary.BigEndian.PutUint32] and [PutUint64]. *)
Definition PutUint32 (v : N) : list N :=
  [N.shiftr v 24 mod 256; N.shiftr v 16 mod 256; N.shiftr v 8 mod 256; v mod 256].

Definition PutUint64 (v : N) : list N :=
  PutUint32 (N.shiftr v 32 mod 2 ^ 32) ++ PutUint32 (v mod 2 ^ 32).

(** [checkSum]: the padding, a 1 bit and 0 bits up to 56 bytes mod 64, the
    length in bits, and the digest in big-endian bytes. *)
Definition Sum256 (data : list N) : list N :=
  let len := N.of_nat (length data) in
  let t := if len mod 64 <? 56 then 56 - len mod 64 else 64 + 56 - len mod 64 in
  let padlen := 0x80 :: repeat 0 (N.to_nat t - 1)%nat ++ PutUint64 (N.shiftl len 3 mod 2 ^ 64) in
  let p := data ++ padlen in
  let '(h0, h1, h2, h3, h4, h5, h6, h7) := blockGeneric (length p / 64)%nat init p in
  PutUint32 h0 ++ PutUint32 h1 ++ PutUint32 h2 ++ PutUint32 h3
  ++ PutUint32 h4 ++ PutUint32 h5 ++ PutUint32 h6 ++ PutUint32 h7.
End sha256.

Module hmac.
(** [h := hmac.New(sha256.New, key); h.Write(message); h.Sum(nil)] *)
Definition Sum (key message : list N) : list N :=
  let blocksize := 64%nat in
  let key := if (blocksize <? length key)%nat then sha256.Sum256 key else key in
  let padded := (key ++ repeat 0%N (blocksize - length key))%list in
  let ipad := map (N.lxor 0x36%N) padded in
  let opad := map (N.lxor 0x5c%N) padded in
  sha256.Sum256 (opad ++ sha256.Sum256 (ipad ++ message))%list.
End hmac.

Module hex.
Local Open Scope string_scope.
Definition hextable : string := "0123456789abcdef".

Definition digit (v : N) : Ascii.ascii :=
  match String.get (N.to_nat v) hextable with
  | Some c => c
  | None => Ascii.ascii_of_nat 48
  end.

(** [dst[j] = hextable[v>>4]; dst[j+1] = hextable[v&0x0f]] for every byte. *)
Fixpoint EncodeToString (src : list N) : string :=
  match src with
  | [] => ""
  | v :: rest =>
      String (digit (N.shiftr v 4)) (String (digit (N.land v 0x0f)) (EncodeToString rest))
  end.
End hex.

(** The string ["\n"]. *)
Definition newline : string := String (Ascii.ascii_of_nat 10) "".

(** The [message] that [generateSignature] signs. *)
Definition signing_message (method endpoint timestamp body : string) : string :=
  method ++ newline ++ endpoint ++ newline ++ timestamp ++ newline ++ body.

Definition WorldRemit_generateSignature (wr : WorldRemitProvider.t)
    (method endpoint timestamp body : string) : string :=
  let message := signing_message method endpoint timestamp body in
  hex.EncodeToString (hmac.Sum (bytes_of (WorldRemitProvider.APISecret wr)) (bytes_of message)).

(** ** Further notions used by the statements *)

(** The lines a trace wrote with [log.Printf], in order. *)
Definition logged (t : list event) : list string :=
  omap (fun e => match e with log_line line => Some line | _ => None end) t.

(** The line that [GetQuotes] logs for [provider] when its [GetQuote]
    returns an error. *)
Definition failure_line (req : TransactionRequest.t) (provider : RemittanceProvider)
  : option string :=
  match GetQuote provider req with
  | Done (Err err) =>
      Some ("Error getting quote from " ++ GetName provider ++ ": " ++ Error err)
  | _ => None
  end.

(** [provider] puts its own name on the quote it returns for [req]. *)
Definition names_its_quote (req : TransactionRequest.t) (provider : RemittanceProvider)
  : Prop :=
  forall quote, GetQuote provider req = Done (Ok quote) ->
    RemittanceQuote.Provider quote = GetName provider.

(** The two requests ask for the same amount in the same pair of currencies. *)
Definition same_transfer (req1 req2 : TransactionRequest.t) : Prop :=
  TransactionRequest.Amount req1 = TransactionRequest.Amount req2
  /\ TransactionRequest.FromCurrency req1 = TransactionRequest.FromCurrency req2
  /\ TransactionRequest.ToCurrency req1 = TransactionRequest.ToCurrency req2.

(** The request that [makeRequest] of the Wise adapter hands to its client. *)
Definition Wise_request (w : WiseProvider.t) (method endpoint : string) (body : option json)
  : http.Request :=
  {| http.Method := if String.eqb method "" then "GET" else method;
     http.URL := WiseProvider.BaseURL w ++ endpoint;
     http.Header := [("Authorization", "Bearer " ++ WiseProvider.APIKey w);
                     ("Content-Type", "application/json")];
     http.Body := body |}.

(** A world whose clock shows [now] and whose Wise backend answers every
    request with [body]. *)
Definition world_at (now : time_Time) (body : http.ResponseBody) : World :=
  {| time_Now := now; transport := fun _ => http.Response body; fused := false |}.

(** [req] with another recipient. *)
Definition with_recipient (req : TransactionRequest.t) (recipient : Recipient.t)
  : TransactionRequest.t :=
  {| TransactionRequest.SenderID := TransactionRequest.SenderID req;
     TransactionRequest.Recipient := recipient;
     TransactionRequest.Amount := TransactionRequest.Amount req;
     TransactionRequest.FromCurrency := TransactionRequest.FromCurrency req;
     TransactionRequest.ToCurrency := TransactionRequest.ToCurrency req;
     TransactionRequest.PaymentMethod := TransactionRequest.PaymentMethod req;
     TransactionRequest.Purpose := TransactionRequest.Purpose req;
     TransactionRequest.Reference := TransactionRequest.Reference req |}.

(** [req] for another amount in another pair of currencies. *)
Definition with_transfer (req : TransactionRequest.t) (amount : float64)
    (fromCurrency toCurrency : Currency) : TransactionRequest.t :=
  {| TransactionRequest.SenderID := TransactionRequest.SenderID req;
     TransactionRequest.Recipient := TransactionRequest.Recipient req;
     TransactionRequest.Amount := amount;
     TransactionRequest.FromCurrency := fromCurrency;
     TransactionRequest.ToCurrency := toCurrency;
     TransactionRequest.PaymentMethod := TransactionRequest.PaymentMethod req;
     TransactionRequest.Purpose := TransactionRequest.Purpose req;
     TransactionRequest.Reference := TransactionRequest.Reference req |}.

(** A recipient in a country that no adapter lists. *)
Definition recipient_elsewhere : Recipient.t :=
  {| Recipient.ID := "recipient-999";
     Recipient.Name := "Jane Roe";
     Recipient.Email := "";
     Recipient.Phone := "";
     Recipient.Address :=
       {| Address.Street := "";
          Address.City := "";
          Address.State := "";
          Address.PostalCode := "";
          Address.Country := "Elsewhere";
          Address.CountryCode := "ZZ" |};
     Recipient.BankDetails := [] |}.

(** [resp] reports a transfer of the amount of [req] that is under way. *)
Definition pending_for (req : TransactionRequest.t) (resp : TransactionResponse.t) : Prop :=
  TransactionResponse.Status resp = StatusPending
  /\ TransactionResponse.Amount resp = TransactionRequest.Amount req
  /\ TransactionResponse.Error resp = "".

(** [st] is a status report on the transaction of [resp]. *)
Definition reports_on (resp st : TransactionResponse.t) : Prop :=
  TransactionResponse.TransactionID st = TransactionResponse.TransactionID resp
  /\ TransactionResponse.TrackingURL st = TransactionResponse.TrackingURL resp
  /\ (TransactionResponse.Status st = StatusPending
      \/ TransactionResponse.Status st = StatusCompleted).

(** A JSON text whose "status" member is [reported]. *)
Definition wise_transfer (reported : string) : http.ResponseBody :=
  http.JSONText (JObject [("id", JString "T-1"); ("status", JString reported)]).

(** A JSON value that [Decode] stores in a [map[string]interface{}] without
    an error: an object or [null]. *)
Definition decodes_as_map (v : json) : Prop :=
  match v with
  | JObject _ | JNull => True
  | _ => False
  end.

(** An answer of Wise to a request for rates: two rates, the first one 1.2. *)
Definition wise_rates : http.ResponseBody :=
  http.JSONText (JArray [JObject [("rate", JNumber 1.2%float); ("source", JString "USD")];
                         JObject [("rate", JNumber 1.3%float)]]).

(** [s] holds no line break. *)
Definition unbroken (s : string) : Prop :=
  Ascii.ascii_of_nat 10 ∉ String.list_ascii_of_string s.

(** [s] is written with the digits of lower-case hexadecimal. *)
Definition lower_hex (s : string) : Prop :=
  Forall (fun c => c ∈ String.list_ascii_of_string "0123456789abcdef")
         (String.list_ascii_of_string s).

(** A world in which the program was compiled to fuse [x*y + z], as for
    arm64, and the Wise backend is out of reach. *)
Definition world_fusing : World :=
  {| time_Now := 1700000000000000000%Z;
     transport := fun _ => http.Failed "Post https://api.transferwise.com/v1/quotes: dial tcp: i/o timeout";
     fused := true |}.

Open Scope list_scope.

(** * Properties *)

(** ** The order of binary64 values *)

Module float_facts.
Local Open Scope Z_scope.

Lemma SFcompare_rank f1 f2 :
  f1 <> S754_nan -> f2 <> S754_nan ->
  SFcompare f1 f2 = Some (lex_compare (rank f1) (rank f2)).
Proof.
  intros H1 H2. unfold lex_compare.
  destruct f1 as [s1|s1| |s1 m1 e1], f2 as [s2|s2| |s2 m2 e2]; try done;
    try (destruct s1; try destruct s2; done); try (destruct s2; done).
  simpl. destruct s1, s2; simpl; try done.
  rewrite (Z.compare_opp e1 e2), (Z.compare_antisym e1 e2).
  destruct (e1 ?= e2); reflexivity.
Qed.
Lemma lex_compare_Lt p q :
  lex_compare p q = Lt <->
  p.1.1 < q.1.1 \/ (p.1.1 = q.1.1 /\ (p.1.2 < q.1.2 \/ (p.1.2 = q.1.2 /\ p.2 < q.2))).
Proof.
  unfold lex_compare.
  destruct (Z.compare_spec p.1.1 q.1.1), (Z.compare_spec p.1.2 q.1.2), (Z.compare_spec p.2 q.2);
    split; try done; try lia.
Qed.
Lemma lex_compare_Gt p q :
  lex_compare p q = Gt <-> lex_compare q p = Lt.
Proof.
  unfold lex_compare.
  destruct (Z.compare_spec p.1.1 q.1.1), (Z.compare_spec p.1.2 q.1.2), (Z.compare_spec p.2 q.2);
  destruct (Z.compare_spec q.1.1 p.1.1), (Z.compare_spec q.1.2 p.1.2), (Z.compare_spec q.2 p.2);
    split; try done; try lia.
Qed.

Local Open Scope float_scope.

Lemma SFeqb_refl f : f <> S754_nan -> SFeqb f f = true.
Proof.
  intros Hf. unfold SFeqb. rewrite SFcompare_rank by done.
  unfold lex_compare. by rewrite !Z.compare_refl.
Qed.

Lemma is_nan_Prim2SF x : is_nan x = false <-> Prim2SF x <> S754_nan.
Proof.
  unfold is_nan. rewrite FloatAxioms.eqb_spec. split.
  - intros H Hn. rewrite Hn in H. done.
  - intros H. by rewrite SFeqb_refl.
Qed.

Lemma ltb_lex x y :
  is_nan x = false -> is_nan y = false ->
  (x <? y) = true <-> lex_compare (rank (Prim2SF x)) (rank (Prim2SF y)) = Lt.
Proof.
  intros Hx%is_nan_Prim2SF Hy%is_nan_Prim2SF.
  rewrite FloatAxioms.ltb_spec. unfold SFltb. rewrite SFcompare_rank by done.
  destruct (lex_compare _ _); split; done.
Qed.

Lemma leb_lex x y :
  is_nan x = false -> is_nan y = false ->
  (x <=? y) = true <-> lex_compare (rank (Prim2SF x)) (rank (Prim2SF y)) <> Gt.
Proof.
  intros Hx%is_nan_Prim2SF Hy%is_nan_Prim2SF.
  rewrite FloatAxioms.leb_spec. unfold SFleb. rewrite SFcompare_rank by done.
  destruct (lex_compare _ _); split; done.
Qed.

Lemma ltb_asym x y :
  is_nan x = false -> is_nan y = false -> (x <? y) = true -> (y <? x) = false.
Proof.
  intros Hx Hy H. apply not_true_is_false. revert H.
  rewrite !ltb_lex, !lex_compare_Lt by done. lia.
Qed.

Lemma ltb_negtrans x y z :
  is_nan x = false -> is_nan y = false -> is_nan z = false ->
  (x <? y) = false -> (y <? z) = false -> (x <? z) = false.
Proof.
  intros Hx Hy Hz H1%not_true_iff_false H2%not_true_iff_false.
  apply not_true_is_false. revert H1 H2.
  rewrite !ltb_lex, !lex_compare_Lt by done. lia.
Qed.

Lemma not_ltb_leb x y :
  is_nan x = false -> is_nan y = false -> (y <? x) = false -> (x <=? y) = true.
Proof.
  intros Hx Hy H%not_true_iff_false. revert H.
  rewrite ltb_lex, leb_lex, lex_compare_Gt by done. tauto.
Qed.

Lemma eqb_is_nan x c : (x =? c) = true -> is_nan x = false.
Proof.
  rewrite FloatAxioms.eqb_spec. intros H. apply is_nan_Prim2SF. intros Hn. rewrite Hn in H. done.
Qed.

Lemma eqb_not_ltb x y c : (x =? c) = true -> (y =? c) = true -> (x <? y) = false.
Proof.
  intros Hx Hy. pose proof (eqb_is_nan _ _ Hx) as Nx. pose proof (eqb_is_nan _ _ Hy) as Ny.
  assert (is_nan c = false) as Nc.
  { apply is_nan_Prim2SF. intros Hn. rewrite FloatAxioms.eqb_spec, Hn in Hx. by destruct (Prim2SF x). }
  apply not_true_is_false.
  revert Hx Hy. rewrite !FloatAxioms.eqb_spec. unfold SFeqb.
  apply is_nan_Prim2SF in Nx, Ny, Nc.
  rewrite !SFcompare_rank by done. rewrite ltb_lex by (by apply is_nan_Prim2SF).
  destruct (lex_compare (rank (Prim2SF x)) _) eqn:H1; try done.
  destruct (lex_compare (rank (Prim2SF y)) _) eqn:H2; try done.
  intros _ _. revert H1 H2. rewrite lex_compare_Lt. unfold lex_compare.
  destruct (Z.compare_spec (rank (Prim2SF x)).1.1 (rank (Prim2SF c)).1.1); try done.
  destruct (Z.compare_spec (rank (Prim2SF x)).1.2 (rank (Prim2SF c)).1.2); try done.
  destruct (Z.compare_spec (rank (Prim2SF y)).1.1 (rank (Prim2SF c)).1.1); try done.
  destruct (Z.compare_spec (rank (Prim2SF y)).1.2 (rank (Prim2SF c)).1.2); try done.
  intros ?%Z.compare_eq ?%Z.compare_eq. lia.
Qed.
End float_facts.

(** ** [sort.Slice] permutes its argument *)

Module sort_facts.
Import sort.
Local Open Scope nat_scope.
Local Open Scope list_scope.

Section permutation.
Context {A : Type} (less : A -> A -> bool).
Implicit Types data : list A.

Lemma Swap_Permutation data i j : Swap data i j ≡ₚ data.
Proof.
  unfold Swap.
  destruct (data !! i) as [x|] eqn:Hi; [|done].
  destruct (data !! j) as [y|] eqn:Hj; [|done].
  by apply Permutation_insert_swap.
Qed.

Lemma foldl_Permutation {B} (f : list A -> B -> list A) (l : list B) :
  (forall data i, f data i ≡ₚ data) -> forall data, foldl f data l ≡ₚ data.
Proof.
  intros Hf. induction l as [|i l IH]; intros data; simpl; [done|].
  by rewrite IH, Hf.
Qed.

Lemma insertionSort_inner_Permutation a j : forall data,
  insertionSort_inner less data a j ≡ₚ data.
Proof.
  induction j as [|j IH]; intros data; simpl; [done|].
  destruct (_ && _); [|done]. by rewrite IH, Swap_Permutation.
Qed.

Lemma insertionSort_func_Permutation data a b :
  insertionSort_func less data a b ≡ₚ data.
Proof.
  apply foldl_Permutation. intros. apply insertionSort_inner_Permutation.
Qed.

Lemma siftDown_loop_Permutation turns hi first : forall data root,
  siftDown_loop less turns data root hi first ≡ₚ data.
Proof.
  induction turns as [|turns IH]; intros data root; simpl; [done|].
  destruct (hi <=? _); [done|].
  destruct (negb _); [done|].
  by rewrite IH, Swap_Permutation.
Qed.

Lemma siftDown_func_Permutation data lo hi first :
  siftDown_func less data lo hi first ≡ₚ data.
Proof. apply siftDown_loop_Permutation. Qed.

Lemma heapSort_func_Permutation data a b : heapSort_func less data a b ≡ₚ data.
Proof.
  unfold heapSort_func.
  rewrite foldl_Permutation.
  - apply foldl_Permutation. intros. apply siftDown_func_Permutation.
  - intros. by rewrite siftDown_func_Permutation, Swap_Permutation.
Qed.

Lemma partition_loop_Permutation turns a : forall data i j,
  (partition_loop less turns data a i j).1 ≡ₚ data.
Proof.
  induction turns as [|turns IH]; intros data i j; simpl; [done|].
  destruct (_ <? _); [done|]. by rewrite IH, Swap_Permutation.
Qed.

Lemma partition_func_Permutation data a b pivot :
  (partition_func less data a b pivot).1.1 ≡ₚ data.
Proof.
  unfold partition_func.
  destruct (_ <? _); simpl.
  - by rewrite !Swap_Permutation.
  - destruct (partition_loop _ _ _ _ _ _) as [data' j'] eqn:Hl; simpl.
    rewrite Swap_Permutation.
    change data' with (data', j').1. rewrite <- Hl.
    by rewrite partition_loop_Permutation, !Swap_Permutation.
Qed.

Lemma partitionEqual_loop_Permutation turns a : forall data i j,
  (partitionEqual_loop less turns data a i j).1 ≡ₚ data.
Proof.
  induction turns as [|turns IH]; intros data i j; simpl; [done|].
  destruct (_ <? _); [done|]. by rewrite IH, Swap_Permutation.
Qed.

Lemma partitionEqual_func_Permutation data a b pivot :
  (partitionEqual_func less data a b pivot).1 ≡ₚ data.
Proof.
  unfold partitionEqual_func.
  by rewrite partitionEqual_loop_Permutation, Swap_Permutation.
Qed.

Lemma shift_left_Permutation j : forall data, shift_left less data j ≡ₚ data.
Proof.
  induction j as [|j IH]; intros data; simpl; [done|].
  destruct (negb _); [done|]. by rewrite IH, Swap_Permutation.
Qed.

Lemma shift_right_Permutation turns b : forall data j,
  shift_right less turns data j b ≡ₚ data.
Proof.
  induction turns as [|turns IH]; intros data j; simpl; [done|].
  destruct (_ <? _); [|done]. destruct (negb _); [done|].
  by rewrite IH, Swap_Permutation.
Qed.

Lemma partialInsertionSort_loop_Permutation steps a b : forall data i,
  (partialInsertionSort_loop less steps data a b i).1 ≡ₚ data.
Proof.
  induction steps as [|steps IH]; intros data i; simpl; [done|].
  destruct (_ =? _); [done|]. destruct (_ <? _); [done|].
  rewrite IH.
  repeat match goal with |- context [if ?c then _ else _] => destruct c end;
    by rewrite ?shift_right_Permutation, ?shift_left_Permutation, Swap_Permutation.
Qed.

Lemma partialInsertionSort_func_Permutation data a b :
  (partialInsertionSort_func less data a b).1 ≡ₚ data.
Proof. apply partialInsertionSort_loop_Permutation. Qed.

Lemma breakPatterns_func_Permutation data a b : breakPatterns_func data a b ≡ₚ data.
Proof.
  unfold breakPatterns_func. destruct (8 <=? _); [|done].
  generalize (N.of_nat (b - a)) as random. generalize (seq 0 3) as l.
  intros l. revert data. induction l as [|i l IH]; intros data random; simpl; [done|].
  by rewrite IH, Swap_Permutation.
Qed.

Lemma reverseRange_loop_Permutation turns : forall data i j,
  reverseRange_loop turns data i j ≡ₚ data.
Proof.
  induction turns as [|turns IH]; intros data i j; simpl; [done|].
  destruct (_ <? _); [|done]. by rewrite IH, Swap_Permutation.
Qed.

Lemma reverseRange_func_Permutation data a b : reverseRange_func data a b ≡ₚ data.
Proof. apply reverseRange_loop_Permutation. Qed.

Lemma pdqsort_loop_Permutation turns : forall data a b limit wasBalanced wasPartitioned,
  pdqsort_loop less turns data a b limit wasBalanced wasPartitioned ≡ₚ data.
Proof.
  induction turns as [|turns IH]; intros data a b limit wasBalanced wasPartitioned;
    simpl; [done|].
  destruct (_ <=? maxInsertion); [apply insertionSort_func_Permutation|].
  destruct (limit =? 0); [apply heapSort_func_Permutation|].
  set (st := if negb wasBalanced then _ else _).
  assert (st.1 ≡ₚ data) as Hst.
  { subst st. destruct (negb wasBalanced); simpl; [apply breakPatterns_func_Permutation|done]. }
  destruct st as [data1 limit1]; simpl in Hst.
  destruct (choosePivot_func less data1 a b) as [pivot hint].
  set (st := match hint with decreasingHint => _ | _ => _ end).
  assert (st.1.1 ≡ₚ data) as Hst2.
  { subst st. destruct hint; simpl; [done|done|].
    by rewrite reverseRange_func_Permutation. }
  destruct st as [[data2 pivot2] hint2]; simpl in Hst2.
  set (st := match hint2 with increasingHint => _ | _ => _ end).
  assert (st.1 ≡ₚ data) as Hst3.
  { subst st. destruct hint2; simpl; [done| |done].
    destruct (_ && _); [|done]. by rewrite partialInsertionSort_func_Permutation. }
  destruct st as [data3 sorted]; simpl in Hst3.
  destruct sorted; [done|].
  destruct (_ && _).
  - pose proof (partitionEqual_func_Permutation data3 a b pivot2) as Hp.
    destruct (partitionEqual_func less data3 a b pivot2) as [data4 mid]; simpl in Hp.
    by rewrite IH, Hp.
  - pose proof (partition_func_Permutation data3 a b pivot2) as Hp.
    destruct (partition_func less data3 a b pivot2) as [[data4 mid] already]; simpl in Hp.
    destruct (_ <? _); by rewrite !IH, Hp.
Qed.

Lemma Slice_Permutation (x : list A) : Slice less x ≡ₚ x.
Proof. apply pdqsort_loop_Permutation. Qed.
End permutation.
End sort_facts.

(** ** Insertion sort *)

Module insertion_facts.
Import sort.
Local Open Scope nat_scope.
Local Open Scope list_scope.

Section insertion.
Context {A : Type} (less : A -> A -> bool).
Implicit Types data placed : list A.

Lemma insert_last_nil x : insert_last less [] x = [x].
Proof. done. Qed.

Lemma insert_last_snoc placed y x :
  insert_last less (placed ++ [y]) x
  = if less x y then insert_last less placed x ++ [y] else placed ++ [y; x].
Proof.
  unfold insert_last. rewrite reverse_snoc. simpl.
  destruct (less x y).
  - by rewrite reverse_cons.
  - by rewrite !reverse_cons, reverse_involutive, <- app_assoc.
Qed.

Lemma insert_last_Permutation placed x : insert_last less placed x ≡ₚ x :: placed.
Proof.
  induction placed as [|y placed IH] using rev_ind; [done|].
  rewrite insert_last_snoc. destruct (less x y).
  - by rewrite IH.
  - rewrite (Permutation_app_comm placed [y; x]), (Permutation_app_comm placed [y]).
    simpl. apply Permutation_swap.
Qed.

Lemma insert_last_length placed x : length (insert_last less placed x) = S (length placed).
Proof. by rewrite insert_last_Permutation. Qed.

Lemma isort_from_Permutation l : forall placed,
  foldl (insert_last less) placed l ≡ₚ placed ++ l.
Proof.
  induction l as [|x l IH]; intros placed; simpl; [by rewrite app_nil_r|].
  rewrite IH, insert_last_Permutation. by rewrite <- Permutation_middle.
Qed.

Lemma isort_Permutation l : isort less l ≡ₚ l.
Proof. apply isort_from_Permutation. Qed.

(** *** The loops of [insertionSort_func] compute [isort] *)

Lemma lookup_middle (l1 l2 : list A) x : (l1 ++ x :: l2) !! length l1 = Some x.
Proof. by rewrite list_lookup_middle. Qed.

Lemma Less_adjacent (l1 l2 : list A) y x :
  Less less (l1 ++ y :: x :: l2) (S (length l1)) (length l1) = less x y.
Proof.
  unfold Less. rewrite lookup_middle.
  replace (l1 ++ y :: x :: l2) with ((l1 ++ [y]) ++ x :: l2) by (by rewrite <- app_assoc).
  replace (S (length l1)) with (length (l1 ++ [y])) by (rewrite length_app; simpl; lia).
  by rewrite lookup_middle.
Qed.

Lemma Swap_adjacent (l1 l2 : list A) y x :
  Swap (l1 ++ y :: x :: l2) (S (length l1)) (length l1) = l1 ++ x :: y :: l2.
Proof.
  unfold Swap. rewrite lookup_middle.
  replace (l1 ++ y :: x :: l2) with ((l1 ++ [y]) ++ x :: l2) at 1 by (by rewrite <- app_assoc).
  replace (S (length l1)) with (length (l1 ++ [y])) at 1 by (rewrite length_app; simpl; lia).
  rewrite lookup_middle.
  rewrite insert_app_r_alt by lia. rewrite Nat.sub_diag. simpl.
  rewrite insert_app_r_alt by lia.
  replace (S (length l1) - length l1) with 1 by lia. done.
Qed.

Lemma insertionSort_inner_spec placed : forall (before after : list A) x,
  insertionSort_inner less (before ++ placed ++ x :: after) (length before)
                      (length before + length placed)
  = before ++ insert_last less placed x ++ after.
Proof.
  induction placed as [|y placed IH] using rev_ind; intros before after x.
  - simpl. rewrite Nat.add_0_r.
    destruct (length before) as [|n] eqn:Hn; simpl; [done|].
    replace (n <? n) with false by (symmetry; apply Nat.ltb_ge; lia).
    by rewrite Nat.ltb_irrefl.
  - rewrite length_app. simpl.
    replace (length before + (length placed + 1)) with (S (length before + length placed))
      by lia.
    simpl.
    replace (length before <? S (length before + length placed)) with true
      by (symmetry; apply Nat.ltb_lt; lia).
    simpl.
    replace (before ++ (placed ++ [y]) ++ x :: after)
      with ((before ++ placed) ++ y :: x :: after)
      by (by rewrite <- !app_assoc).
    replace (length before + length placed) with (length (before ++ placed))
      by (by rewrite length_app).
    rewrite Less_adjacent, Swap_adjacent, insert_last_snoc.
    destruct (less x y).
    + rewrite <- app_assoc, length_app, IH. by rewrite <- !app_assoc.
    + by rewrite <- !app_assoc.
Qed.

Lemma insertionSort_loop_spec (before after : list A) todo : forall placed,
  foldl (fun data i => insertionSort_inner less data (length before) i)
        (before ++ placed ++ todo ++ after)
        (seq (length before + length placed) (length todo))
  = before ++ foldl (insert_last less) placed todo ++ after.
Proof.
  induction todo as [|x todo IH]; intros placed; simpl; [done|].
  rewrite insertionSort_inner_spec.
  replace (S (length before + length placed))
    with (length before + length (insert_last less placed x))
    by (rewrite insert_last_length; lia).
  apply IH.
Qed.

Lemma insertionSort_func_spec (before middle after : list A) :
  insertionSort_func less (before ++ middle ++ after)
                     (length before) (length before + length middle)
  = before ++ isort less middle ++ after.
Proof.
  unfold insertionSort_func, isort.
  destruct middle as [|x todo]; simpl.
  - by replace (length before + 0 - (length before + 1)) with 0 by lia.
  - replace (length before + S (length todo) - (length before + 1)) with (length todo)
      by lia.
    replace (length before + 1) with (length before + length [x]) by (simpl; lia).
    apply (insertionSort_loop_spec before after todo [x]).
Qed.

(** *** [isort] keeps the order of ties *)

Section stable.
Context (P : A -> Prop) `{forall x, Decision (P x)}.
Hypothesis ties : forall x y, P x -> P y -> less x y = false.

Lemma insert_last_filter placed x :
  filter P (insert_last less placed x) = filter P (placed ++ [x]).
Proof.
  induction placed as [|y placed IH] using rev_ind; [done|].
  rewrite insert_last_snoc. destruct (less x y) eqn:Hxy; [|by rewrite <- app_assoc].
  rewrite !filter_app, IH, filter_app, <- !app_assoc. f_equal.
  rewrite !filter_cons, !filter_nil.
  destruct (decide (P x)) as [Hx|Hx], (decide (P y)) as [Hy|Hy]; try done.
  rewrite ties in Hxy by done. done.
Qed.

Lemma isort_from_filter l : forall placed,
  filter P (foldl (insert_last less) placed l) = filter P (placed ++ l).
Proof.
  induction l as [|x l IH]; intros placed; simpl; [by rewrite app_nil_r|].
  rewrite IH, !filter_app, insert_last_filter, filter_app, <- app_assoc.
  f_equal. by rewrite (filter_app _ [x] l).
Qed.

Lemma isort_filter l : filter P (isort less l) = filter P l.
Proof. apply isort_from_filter. Qed.
End stable.

(** *** [isort] sorts, when [less] is a strict weak order on the elements *)

Section sorted.
Context (good : A -> Prop).
Context `{!StrictWeakOrder less good}.

Lemma insert_last_sorted placed x :
  good x -> Forall good placed ->
  StronglySorted (not_after less) placed -> StronglySorted (not_after less) (insert_last less placed x).
Proof.
  intros Hx. induction placed as [|y placed IH] using rev_ind; intros Hgood Hsorted.
  - simpl. repeat constructor.
  - rewrite insert_last_snoc.
    apply Forall_app in Hgood as [Hgood Hy]. apply Forall_cons in Hy as [Hy _].
    apply StronglySorted_app in Hsorted as (Hle & Hs & _).
    destruct (less x y) eqn:Hxy.
    + apply StronglySorted_app. split; [|split; [auto|repeat constructor]].
      intros x1 x2 Hx1 ->%list_elem_of_singleton.
      rewrite insert_last_Permutation in Hx1. apply elem_of_cons in Hx1 as [->|Hx1].
      * unfold not_after. by apply less_asym.
      * apply Hle; [done|by apply list_elem_of_singleton].
    + change (placed ++ [y; x]) with (placed ++ [y] ++ [x]). rewrite app_assoc.
      apply StronglySorted_app. split; [|split; [|repeat constructor]].
      * intros x1 x2 Hx1 ->%list_elem_of_singleton.
        apply elem_of_app in Hx1 as [Hx1| ->%list_elem_of_singleton]; [|done].
        unfold not_after. apply (less_negtrans x y x1); try done.
        -- rewrite Forall_forall in Hgood. auto.
        -- apply Hle; [done|by apply list_elem_of_singleton].
      * apply StronglySorted_app. split; [done|]. split; [done|repeat constructor].
Qed.

Lemma isort_from_sorted l : forall placed,
  Forall good placed -> Forall good l -> StronglySorted (not_after less) placed ->
  StronglySorted (not_after less) (foldl (insert_last less) placed l).
Proof.
  induction l as [|x l IH]; intros placed Hp Hl Hs; simpl; [done|].
  apply Forall_cons in Hl as [Hx Hl].
  apply IH; [|done|by apply insert_last_sorted].
  rewrite insert_last_Permutation. by constructor.
Qed.

Lemma isort_sorted l : Forall good l -> StronglySorted (not_after less) (isort less l).
Proof. intros. apply isort_from_sorted; [done|done|constructor]. Qed.
End sorted.
End insertion.
End insertion_facts.

(** ** The eligibility filter *)

Lemma supports_Exists items from to :
  supports items from to = true <-> Exists (fun x => x = from \/ x = to) items.
Proof.
  induction items as [|x rest IH]; simpl.
  - split; [discriminate | intros H; inversion H].
  - rewrite Exists_cons, <- IH.
    destruct (String.eqb_spec x from) as [->|Hf]; simpl; [tauto|].
    destruct (String.eqb_spec x to) as [->|Ht]; simpl; tauto.
Qed.

Lemma supports_eligible fromCountry toCountry fromCurrency toCurrency provider :
  supports (GetSupportedCurrencies provider) fromCurrency toCurrency
  && supports (GetSupportedCountries provider) fromCountry toCountry = true
  <-> eligible fromCountry toCountry fromCurrency toCurrency provider.
Proof.
  unfold eligible. rewrite andb_true_iff, !supports_Exists. tauto.
Qed.

Lemma GetAvailableProviders_loop fromCountry toCountry fromCurrency toCurrency registered :
  forall available,
    foldl
      (fun available provider =>
         if supports (GetSupportedCurrencies provider) fromCurrency toCurrency
            && supports (GetSupportedCountries provider) fromCountry toCountry
         then (available ++ [provider])%list
         else available)
      available registered
    = (available
       ++ filter (eligible fromCountry toCountry fromCurrency toCurrency) registered)%list.
Proof.
  induction registered as [|provider rest IH]; intros available; simpl.
  - by rewrite app_nil_r.
  - rewrite IH, filter_cons.
    pose proof (supports_eligible fromCountry toCountry fromCurrency toCurrency provider) as Hs.
    destruct (supports _ _ _ && supports _ _ _).
    + rewrite decide_True by (by apply Hs). by rewrite <- app_assoc.
    + rewrite decide_False; [done|]. intros He. apply Hs in He. discriminate.
Qed.

Lemma GetAvailableProviders_filter rh fromCountry toCountry fromCurrency toCurrency :
  GetAvailableProviders rh fromCountry toCountry fromCurrency toCurrency
  = filter (eligible fromCountry toCountry fromCurrency toCurrency) (providers rh).
Proof. unfold GetAvailableProviders. by rewrite GetAvailableProviders_loop. Qed.

(** ** The loop of [GetQuotes] *)

#[local] Arguments bind : simpl never.
#[local] Arguments invoke_GetQuote : simpl never.
#[local] Arguments log_Printf : simpl never.

Lemma result_bind {A B} (m : M A) (k : A -> M B) :
  result (bind m k) = match result m with
                      | Done a => result (k a)
                      | Panicked msg => Panicked msg
                      end.
Proof.
  unfold bind, result. destruct m as [t [a|msg]]; simpl; [|done]. by destruct (k a).
Qed.

Lemma trace_bind {A B} (m : M A) (k : A -> M B) :
  trace (bind m k) = (trace m ++ match result m with
                                 | Done a => trace (k a)
                                 | Panicked _ => []
                                 end)%list.
Proof.
  unfold bind, trace, result.
  destruct m as [t [a|msg]]; simpl; [|by rewrite app_nil_r]. by destruct (k a).
Qed.

Lemma GetQuotes_range_result req available : forall quotes,
  result (GetQuotes_range available req quotes)
  = match first_panic req available with
    | Some msg => Panicked msg
    | None => Done (quotes ++ successful_quotes req available)%list
    end.
Proof.
  induction available as [|provider rest IH]; intros quotes; simpl.
  - by rewrite app_nil_r.
  - rewrite result_bind. unfold successful_quotes, succeeded at 1.
    unfold invoke_GetQuote at 1. simpl.
    destruct (GetQuote provider req) as [[quote|err]|msg]; simpl; [| |done].
    + rewrite IH. destruct (first_panic req rest); [done|].
      by rewrite <- app_assoc.
    + rewrite result_bind. simpl. apply IH.
Qed.

Lemma GetQuotes_range_quoted req available : forall quotes,
  quoted (trace (GetQuotes_range available req quotes)) = attempted req available.
Proof.
  induction available as [|provider rest IH]; intros quotes; simpl; [done|].
  rewrite trace_bind. unfold invoke_GetQuote at 1 2. simpl. f_equal.
  destruct (GetQuote provider req) as [[quote|err]|msg]; simpl; [| |done].
  - apply IH.
  - rewrite trace_bind. simpl. apply IH.
Qed.

Lemma attempted_all req available :
  first_panic req available = None -> attempted req available = available.
Proof.
  induction available as [|provider rest IH]; simpl; [done|].
  destruct (GetQuote provider req); [|done]. intros. f_equal. auto.
Qed.

Lemma attempted_prefix req available : attempted req available `prefix_of` available.
Proof.
  induction available as [|provider rest IH]; simpl; [done|].
  apply prefix_cons. destruct (GetQuote provider req); [done|]. apply prefix_nil.
Qed.

Lemma first_panic_None req available :
  first_panic req available = None
  <-> Forall (fun provider => exists r, GetQuote provider req = Done r) available.
Proof.
  induction available as [|provider rest IH]; simpl.
  - split; [constructor|done].
  - rewrite Forall_cons, <- IH.
    destruct (GetQuote provider req) as [r|msg].
    + split; [eauto|tauto].
    + split; [done|]. intros [[r Hr] _]. discriminate.
Qed.

(** What [GetQuotes] returns, in one equation. *)
Lemma GetQuotes_result rh req :
  result (GetQuotes rh req)
  = match first_panic req (corridor_providers rh req) with
    | Some msg => Panicked msg
    | None =>
        Done (Ok (sort.Slice byTotalCost (successful_quotes req (corridor_providers rh req))))
    end.
Proof.
  unfold GetQuotes. fold (corridor_providers rh req).
  rewrite result_bind, GetQuotes_range_result.
  by destruct (first_panic _ _).
Qed.

Lemma GetQuotes_quoted rh req :
  quoted (trace (GetQuotes rh req)) = attempted req (corridor_providers rh req).
Proof.
  unfold GetQuotes. fold (corridor_providers rh req).
  rewrite trace_bind. unfold quoted. rewrite omap_app.
  fold (quoted (trace (GetQuotes_range (corridor_providers rh req) req []))).
  rewrite GetQuotes_range_quoted.
  destruct (result _); simpl; by rewrite app_nil_r.
Qed.

Lemma successful_quotes_app req l1 l2 :
  successful_quotes req (l1 ++ l2)
  = (successful_quotes req l1 ++ successful_quotes req l2)%list.
Proof. apply omap_app. Qed.

Lemma successful_quotes_all req l :
  Forall (fun provider => exists quote, GetQuote provider req = Done (Ok quote)) l ->
  length (successful_quotes req l) = length l.
Proof.
  induction 1 as [|provider rest [quote Hq] _ IH]; simpl; [done|].
  unfold succeeded. rewrite Hq. simpl. by f_equal.
Qed.

Lemma successful_quotes_none req l :
  Forall (fun provider => exists err, GetQuote provider req = Done (Err err)) l ->
  successful_quotes req l = [].
Proof.
  induction 1 as [|provider rest [err He] _ IH]; simpl; [done|].
  unfold succeeded. by rewrite He.
Qed.

Lemma GetQuotes_range_logs req before failing after err : forall quotes,
  Forall (fun provider => exists r, GetQuote provider req = Done r) before ->
  GetQuote failing req = Done (Err err) ->
  log_line ("Error getting quote from " ++ GetName failing ++ ": " ++ Error err)
    ∈ trace (GetQuotes_range (before ++ failing :: after) req quotes).
Proof.
  intros quotes Hbefore Hfail. revert quotes.
  induction Hbefore as [|provider rest [r Hr] _ IH]; intros quotes; simpl.
  - rewrite trace_bind. unfold invoke_GetQuote at 1 2. simpl. rewrite Hfail.
    rewrite trace_bind. simpl. right. left.
  - rewrite trace_bind. unfold invoke_GetQuote at 1 2. simpl. rewrite Hr.
    right. destruct r as [quote|err']; [apply IH|].
    rewrite trace_bind. simpl. right. apply IH.
Qed.

Lemma GetBestQuote_result rh req :
  result (GetBestQuote rh req)
  = match result (GetQuotes rh req) with
    | Done (Ok (best :: _)) => Done (Ok best)
    | Done (Ok []) => Done (Err (errorString "no quotes available"))
    | Done (Err err) => Done (Err err)
    | Panicked msg => Panicked msg
    end.
Proof.
  unfold GetBestQuote. rewrite result_bind.
  destruct (result (GetQuotes rh req)) as [[[|best quotes]|err]|msg]; done.
Qed.

Lemma GetBestQuote_trace rh req : trace (GetBestQuote rh req) = trace (GetQuotes rh req).
Proof.
  unfold GetBestQuote. rewrite trace_bind.
  destruct (result (GetQuotes rh req)) as [[[|best quotes]|err]|msg];
    simpl; by rewrite app_nil_r.
Qed.

(** The errors that [GetQuote] of the Wise adapter returns come from
    [json.Marshal], [client.Do] and [Decode]. *)
Lemma Wise_GetQuote_errors wd w req err :
  GetQuote (Wise wd w) req = Done (Err err) ->
  (exists s, err = json_UnsupportedValueError s) \/ (exists s, err = url_Error s)
  \/ (exists s, err = json_SyntaxError s) \/ (exists s, err = json_UnmarshalTypeError s)
  \/ err = io_EOF \/ err = io_ErrUnexpectedEOF.
Proof.
  simpl. unfold Wise_GetQuote, Wise_makeRequest, json_Marshal.
  destruct (unsupported _) as [s|]; [intros [= <-]; eauto|].
  change (http_NewRequestWithContext "POST" ?url ?body)
    with (Ok {| http.Method := "POST"; http.URL := url; http.Header := [];
                http.Body := body |} : res http.Request).
  cbv beta iota. unfold client_Do.
  destruct (transport wd _) as [msg|body]; [intros [= <-]; eauto|].
  destruct body as [| |text|[]]; simpl; try (intros [= <-]; by eauto 7).
  all: repeat (destruct (assert_float64 _); simpl; [|done]); done.
Qed.

(** ** The order of the quotes *)

Lemma Slice_small {A} (less : A -> A -> bool) (x : list A) :
  (length x <= sort.maxInsertion)%nat -> sort.Slice less x = isort less x.
Proof.
  intros Hn. unfold sort.Slice, sort.pdqsort_func.
  rewrite Nat.add_1_r. simpl sort.pdqsort_loop.
  rewrite Nat.sub_0_r.
  replace (length x <=? sort.maxInsertion)%nat with true
    by (symmetry; by apply Nat.leb_le).
  pose proof (insertion_facts.insertionSort_func_spec less [] x []) as Hspec.
  simpl in Hspec. by rewrite !app_nil_r in Hspec.
Qed.

Lemma StronglySorted_weaken {A} (R R' : relation A) (P : A -> Prop) (l : list A) :
  (forall x y, P x -> P y -> R x y -> R' x y) ->
  Forall P l -> StronglySorted R l -> StronglySorted R' l.
Proof.
  intros HR HP Hs. induction Hs as [|x l Hs IH Hx]; [constructor|].
  apply Forall_cons in HP as [Px Pl]. constructor; [auto|].
  rewrite Forall_forall in *. intros y Hy. apply HR; auto.
Qed.

#[global] Instance byTotalCost_order : StrictWeakOrder byTotalCost has_cost.
Proof.
  split.
  - intros x y. apply float_facts.ltb_asym.
  - intros x y z. apply float_facts.ltb_negtrans.
Qed.

Lemma byTotalCost_ties c x y : same_cost c x -> same_cost c y -> byTotalCost x y = false.
Proof. apply float_facts.eqb_not_ltb. Qed.

Lemma not_after_cost_le x y :
  has_cost x -> has_cost y -> not_after byTotalCost x y -> cost_le x y.
Proof. apply float_facts.not_ltb_leb. Qed.

(** ** The sort of [sort.Slice] *)
Module range_facts.
Import sort.
Local Open Scope nat_scope.
Local Open Scope list_scope.

Section ranges.
Context {A : Type}.
Implicit Types data : list A.

Lemma frame_refl a b data : frame a b data data.
Proof. by split. Qed.

Lemma frame_trans a b data1 data2 data3 :
  frame a b data1 data2 -> frame a b data2 data3 -> frame a b data1 data3.
Proof.
  intros [Hl1 H1] [Hl2 H2]. split; [congruence|].
  intros k Hk. by rewrite H2, H1.
Qed.

Lemma frame_weaken a b a' b' data data' :
  a <= a' -> b' <= b -> frame a' b' data data' -> frame a b data data'.
Proof.
  intros Ha Hb [Hl H]. split; [done|]. intros k Hk. apply H. lia.
Qed.

Lemma frame_length a b data data' : frame a b data data' -> length data' = length data.
Proof. by intros [? _]. Qed.

Lemma rearranged_refl a b data : rearranged a b data data.
Proof. split; [done|apply frame_refl]. Qed.

Lemma rearranged_trans a b data1 data2 data3 :
  rearranged a b data1 data2 -> rearranged a b data2 data3 -> rearranged a b data1 data3.
Proof.
  intros [Hp1 H1] [Hp2 H2]. split; [by rewrite Hp2|by eapply frame_trans].
Qed.

Lemma rearranged_weaken a b a' b' data data' :
  a <= a' -> b' <= b -> rearranged a' b' data data' -> rearranged a b data data'.
Proof. intros Ha Hb [Hp H]. split; [done|by eapply frame_weaken]. Qed.

Lemma rearranged_length a b data data' :
  rearranged a b data data' -> length data' = length data.
Proof. intros [_ H]. by eapply frame_length. Qed.

Lemma Swap_length data i j : length (Swap data i j) = length data.
Proof.
  unfold Swap. destruct (data !! i); [|done]. destruct (data !! j); [|done].
  by rewrite !length_insert.
Qed.

Lemma Swap_lookup data i j k :
  i < length data -> j < length data ->
  Swap data i j !! k
  = if decide (k = i) then data !! j else if decide (k = j) then data !! i else data !! k.
Proof.
  intros Hi Hj. unfold Swap.
  destruct (lookup_lt_is_Some_2 data i Hi) as [x Hx].
  destruct (lookup_lt_is_Some_2 data j Hj) as [y Hy].
  rewrite Hx, Hy.
  destruct (decide (k = i)) as [->|Hki].
  - rewrite list_lookup_insert_eq; [done|]. by rewrite length_insert.
  - rewrite list_lookup_insert_ne by done.
    destruct (decide (k = j)) as [->|Hkj].
    + by rewrite list_lookup_insert_eq.
    + by rewrite list_lookup_insert_ne.
Qed.

Lemma Swap_frame a b data i j :
  a <= i < b -> a <= j < b -> frame a b data (Swap data i j).
Proof.
  intros Hi Hj. split; [apply Swap_length|].
  intros k Hk. unfold Swap.
  destruct (data !! i) eqn:Hx; [|done]. destruct (data !! j) eqn:Hy; [|done].
  rewrite !list_lookup_insert_ne by lia. done.
Qed.

Lemma Swap_rearranged a b data i j :
  a <= i < b -> a <= j < b -> rearranged a b data (Swap data i j).
Proof.
  intros. split; [apply sort_facts.Swap_Permutation|by apply Swap_frame].
Qed.

Lemma Less_lookup (less : A -> A -> bool) data i j x y :
  data !! i = Some x -> data !! j = Some y -> Less less data i j = less x y.
Proof. intros Hx Hy. unfold Less. by rewrite Hx, Hy. Qed.

Lemma elem_of_seg a b data x :
  x ∈ seg a b data <-> exists k, a <= k < b /\ data !! k = Some x.
Proof.
  unfold seg. rewrite list_elem_of_lookup. split.
  - intros [i Hi]. apply lookup_take_Some in Hi as [Hi Hlt].
    rewrite lookup_drop in Hi. exists (a + i). split; [lia|done].
  - intros (k & Hk & Hx). exists (k - a).
    apply lookup_take_Some. split; [|lia].
    rewrite lookup_drop. by replace (a + (k - a)) with k by lia.
Qed.

Lemma all_in_seg a b data (P : A -> Prop) :
  all_in a b data P <-> Forall P (seg a b data).
Proof.
  rewrite Forall_forall. unfold all_in. split.
  - intros H x (k & Hk & Hx)%elem_of_seg. eauto.
  - intros H k x Hk Hx. apply H, elem_of_seg. eauto.
Qed.

Lemma seg_split a b data :
  a <= b <= length data -> data = take a data ++ seg a b data ++ drop b data.
Proof.
  intros Hab. unfold seg.
  rewrite <- (take_drop a data) at 1. f_equal.
  rewrite <- (take_drop (b - a) (drop a data)) at 1. f_equal.
  rewrite drop_drop. f_equal. lia.
Qed.

Lemma frame_take a b data data' : frame a b data data' -> take a data' = take a data.
Proof.
  intros [Hl H]. apply list_eq. intros k.
  destruct (decide (k < a)) as [Hk|Hk].
  - rewrite !lookup_take_lt by done. apply H. lia.
  - rewrite !lookup_take_ge by lia. done.
Qed.

Lemma frame_drop a b data data' : frame a b data data' -> drop b data' = drop b data.
Proof.
  intros [Hl H]. apply list_eq. intros k. rewrite !lookup_drop. apply H. lia.
Qed.

Lemma seg_Permutation a b data data' :
  a <= b <= length data -> rearranged a b data data' -> seg a b data' ≡ₚ seg a b data.
Proof.
  intros Hab [Hp Hf].
  pose proof (seg_split a b data Hab) as Hd.
  pose proof (seg_split a b data') as Hd'.
  rewrite (frame_length _ _ _ _ Hf) in Hd'. specialize (Hd' Hab).
  rewrite (frame_take _ _ _ _ Hf), (frame_drop _ _ _ _ Hf) in Hd'.
  assert (take a data ++ seg a b data' ++ drop b data
          ≡ₚ take a data ++ seg a b data ++ drop b data) as H.
  { rewrite <- Hd', <- Hd. exact Hp. }
  apply Permutation_app_inv_l in H. by apply Permutation_app_inv_r in H.
Qed.

Lemma all_in_rearranged a b data data' (P : A -> Prop) :
  a <= b <= length data -> rearranged a b data data' ->
  all_in a b data P -> all_in a b data' P.
Proof.
  intros Hab Hr. rewrite !all_in_seg. by rewrite (seg_Permutation a b data data').
Qed.

Lemma all_in_frame a b a' b' data data' (P : A -> Prop) :
  frame a' b' data data' -> (b <= a' \/ b' <= a) ->
  all_in a b data P -> all_in a b data' P.
Proof.
  intros [_ Hf] Hdisj H k x Hk Hx. apply (H k x Hk). rewrite <- Hf; [done|lia].
Qed.

Lemma all_in_weaken a b a' b' data (P : A -> Prop) :
  a <= a' -> b' <= b -> all_in a b data P -> all_in a' b' data P.
Proof. intros Ha Hb H k x Hk. apply H. lia. Qed.

Lemma all_in_impl a b data (P Q : A -> Prop) :
  (forall x, P x -> Q x) -> all_in a b data P -> all_in a b data Q.
Proof. intros HPQ H k x Hk Hx. eauto. Qed.
End ranges.
End range_facts.

Module partition_facts.
Import sort range_facts.
Local Open Scope nat_scope.
Local Open Scope list_scope.

Section partition.
Context {A : Type} (less : A -> A -> bool).
Implicit Types data : list A.

Lemma Swap_same data i : Swap data i i = data.
Proof.
  unfold Swap. destruct (data !! i) as [x|] eqn:Hx; [|done].
  by rewrite list_insert_insert_eq, list_insert_id.
Qed.

Lemma scan_up_spec (p : nat -> bool) j : forall turns i,
  j + 1 - i <= turns ->
  i <= scan_up turns p i j
  /\ (i <= j + 1 -> scan_up turns p i j <= j + 1)
  /\ (forall k, i <= k < scan_up turns p i j -> p k = true)
  /\ (scan_up turns p i j <= j -> p (scan_up turns p i j) = false).
Proof.
  induction turns as [|turns IH]; intros i Hturns; simpl.
  - repeat split; try lia.
  - destruct (i <=? j) eqn:Hij; simpl.
    + apply Nat.leb_le in Hij. destruct (p i) eqn:Hp.
      * destruct (IH (S i)) as (H1 & H2 & H3 & H4); [lia|].
        repeat split; try lia; [|done].
        intros k Hk. destruct (decide (k = i)) as [->|]; [done|]. apply H3. lia.
      * repeat split; try lia. done.
    + apply Nat.leb_gt in Hij. repeat split; try lia.
Qed.

Lemma scan_down_spec (p : nat -> bool) i : forall j,
  1 <= i ->
  scan_down p i j <= j
  /\ (i <= j + 1 -> i <= scan_down p i j + 1)
  /\ (forall k, scan_down p i j < k <= j -> p k = true)
  /\ (i <= scan_down p i j -> p (scan_down p i j) = false).
Proof.
  intros j Hi. induction j as [|j IH]; simpl.
  - repeat split; try lia.
  - destruct (i <=? S j) eqn:Hij; simpl.
    + apply Nat.leb_le in Hij. destruct (p (S j)) eqn:Hp.
      * destruct IH as (H1 & H2 & H3 & H4).
        repeat split; try lia; [|done].
        intros k Hk. destruct (decide (k = S j)) as [->|]; [done|]. apply H3. lia.
      * repeat split; try lia. done.
    + apply Nat.leb_gt in Hij. repeat split; try lia.
Qed.


Lemma scanned_scans f (up down : nat -> bool) a b p data i j :
  (forall k x, data !! k = Some x -> up k = f x) ->
  (forall k x, data !! k = Some x -> down k = negb (f x)) ->
  scanned f a b p data i j ->
  let i' := scan_up (j + 1 - i) up i j in
  let j' := scan_down down i' j in
  scanned f a b p data i' j'
  /\ i <= i' /\ j' <= j
  /\ (i' <= j' -> exists x y, data !! i' = Some x /\ data !! j' = Some y
                              /\ f x = false /\ f y = true).
Proof.
  intros Hup Hdown (Hai & Hij & Hjb & Hb & Hp & Hlt & Hge) i' j'.
  destruct (scan_up_spec up j (j + 1 - i) i) as (U1 & U2 & U3 & U4);
    [lia|]. fold i' in U1, U2, U3, U4.
  destruct (scan_down_spec down i' j) as (D1 & D2 & D3 & D4);
    [lia|]. fold j' in D1, D2, D3, D4.
  split; [|split; [done|split; [done|]]].
  - repeat split; try lia; try done.
    + intros k x Hk Hx. destruct (decide (k < i)) as [Hki|Hki]; [apply (Hlt k); [lia|done]|].
      specialize (U3 k ltac:(lia)). by rewrite (Hup k x) in U3.
    + intros k x Hk Hx. destruct (decide (j < k)) as [Hjk|Hjk]; [apply (Hge k); [lia|done]|].
      specialize (D3 k ltac:(lia)). rewrite (Hdown k x) in D3 by done.
      by apply negb_true_iff.
  - intros Hle.
    destruct (lookup_lt_is_Some_2 data i') as [x Hx]; [lia|].
    destruct (lookup_lt_is_Some_2 data j') as [y Hy]; [lia|].
    exists x, y. split; [done|]. split; [done|].
    specialize (U4 ltac:(lia)). specialize (D4 ltac:(lia)).
    rewrite (Hup i' x) in U4 by done. rewrite (Hdown j' y) in D4 by done.
    split; [done|]. by apply negb_false_iff.
Qed.

Lemma scanned_Swap f a b p data i j x y :
  scanned f a b p data i j -> i <= j ->
  data !! i = Some x -> data !! j = Some y -> f x = false -> f y = true ->
  scanned f a b p (Swap data i j) (i + 1) (j - 1).
Proof.
  intros (Hai & Hij & Hjb & Hb & Hp & Hlt & Hge) Hle Hx Hy Hxp Hyp.
  assert (i <> j) by (intros ->; congruence).
  repeat split; try lia.
  - by rewrite Swap_length.
  - rewrite Swap_lookup by lia. by rewrite !decide_False by lia.
  - intros k z Hk. rewrite Swap_lookup by lia.
    destruct (decide (k = i)) as [->|]; [congruence|].
    rewrite decide_False by lia. apply Hlt. lia.
  - intros k z Hk. rewrite Swap_lookup by lia.
    rewrite decide_False by lia.
    destruct (decide (k = j)) as [->|]; [congruence|]. apply Hge. lia.
Qed.

Lemma scanned_done f a b p data i j :
  scanned f a b p data i j -> j < i -> scanned f a b p data (j + 1) j.
Proof.
  intros (Hai & Hij & Hjb & Hb & Hp & Hlt & Hge) Hji.
  repeat split; try lia; try done. intros k x Hk. apply Hlt. lia.
Qed.

Lemma Less_left data a p k x :
  data !! a = Some p -> data !! k = Some x -> Less less data k a = less x p.
Proof. intros. by apply Less_lookup. Qed.

Lemma partition_loop_spec a b p : forall turns data i j,
  scanned (fun x => less x p) a b p data i j -> j + 1 - i < turns ->
  let r := partition_loop less turns data a i j in
  rearranged (a + 1) b data r.1
  /\ scanned (fun x => less x p) a b p r.1 (r.2 + 1) r.2.
Proof.
  induction turns as [|turns IH]; intros data i j Hs Hturns; [lia|].
  simpl.
  destruct (scanned_scans (fun x => less x p)
              (fun i => Less less data i a) (fun j => negb (Less less data j a))
              a b p data i j) as (Hs' & Hi' & Hj' & Hswap); [| |done|].
  { intros k x Hx. apply Less_lookup; [done|]. apply Hs. }
  { intros k x Hx. f_equal. apply Less_lookup; [done|]. apply Hs. }
  set (i' := scan_up (j + 1 - i) (fun i => Less less data i a) i j) in *.
  set (j' := scan_down (fun j => negb (Less less data j a)) i' j) in *.
  destruct (j' <? i') eqn:Hji.
  - apply Nat.ltb_lt in Hji. simpl. split; [apply rearranged_refl|].
    by apply (scanned_done _ a b p data i' j').
  - apply Nat.ltb_ge in Hji.
    destruct (Hswap Hji) as (x & y & Hx & Hy & Hxp & Hyp).
    pose proof (scanned_Swap _ a b p data i' j' x y Hs' Hji Hx Hy Hxp Hyp) as Hs''.
    destruct (IH (Swap data i' j') (i' + 1) (j' - 1) Hs'') as [Hr Hfin]; [lia|].
    split; [|done].
    eapply rearranged_trans; [|exact Hr].
    destruct Hs' as (Hai & Hij & Hjb & Hb & _). apply Swap_rearranged; lia.
Qed.

(** [partition_func]: the element [p] that was at [pivot] ends at [mid],
    after the elements less than [p] and before the others. *)
Lemma partition_func_spec data a b pivot p :
  a <= pivot < b -> b <= length data -> data !! pivot = Some p ->
  let r := partition_func less data a b pivot in
  rearranged a b data r.1.1
  /\ a <= r.1.2 < b
  /\ r.1.1 !! r.1.2 = Some p
  /\ all_in a r.1.2 r.1.1 (fun x => less x p = true)
  /\ all_in (r.1.2 + 1) b r.1.1 (fun x => less x p = false).
Proof.
  intros Hpivot Hb Hp. unfold partition_func.
  set (data0 := Swap data a pivot).
  assert (rearranged a b data data0) as Hr0 by (apply Swap_rearranged; lia).
  assert (scanned (fun x => less x p) a b p data0 (a + 1) (b - 1)) as Hs0.
  { repeat split; try lia.
    - unfold data0. by rewrite Swap_length.
    - unfold data0. rewrite Swap_lookup by lia. by rewrite decide_True.
    - intros k x Hk. lia.
    - intros k x Hk. lia. }
  destruct (scanned_scans (fun x => less x p)
              (fun i => Less less data0 i a) (fun j => negb (Less less data0 j a))
              a b p data0 (a + 1) (b - 1)) as (Hs1 & Hi1 & Hj1 & Hswap); [| |done|].
  { intros k x Hx. apply Less_lookup; [done|]. apply Hs0. }
  { intros k x Hx. f_equal. apply Less_lookup; [done|]. apply Hs0. }
  set (i1 := scan_up (b - 1 + 1 - (a + 1)) (fun i => Less less data0 i a) (a + 1) (b - 1)) in *.
  set (j1 := scan_down (fun j => negb (Less less data0 j a)) i1 (b - 1)) in *.
  assert (forall data1 j, rearranged a b data data1 ->
            scanned (fun x => less x p) a b p data1 (j + 1) j ->
            let data2 := Swap data1 j a in
            rearranged a b data data2 /\ a <= j < b /\ data2 !! j = Some p
            /\ all_in a j data2 (fun x => less x p = true)
            /\ all_in (j + 1) b data2 (fun x => less x p = false)) as Hfinish.
  { intros data1 j Hr1 (Haj & _ & Hjb & Hb1 & Hp1 & Hlt & Hge) data2.
    split; [eapply rearranged_trans; [exact Hr1|apply Swap_rearranged; lia]|].
    split; [lia|]. unfold data2.
    destruct (decide (j = a)) as [->|Hne].
    - rewrite Swap_same. split; [done|]. split; [intros k x Hk; lia|done].
    - destruct (lookup_lt_is_Some_2 data1 j) as [y Hy]; [lia|].
      split; [rewrite Swap_lookup by lia; by rewrite decide_True|].
      split.
      + intros k x Hk. rewrite Swap_lookup by lia.
        rewrite decide_False by lia.
        destruct (decide (k = a)) as [->|].
        * rewrite Hy. intros [= <-]. apply (Hlt j); [lia|done].
        * apply Hlt. lia.
      + intros k x Hk. rewrite Swap_lookup by lia.
        rewrite !decide_False by lia. apply Hge. lia. }
  destruct (j1 <? i1) eqn:Hji; simpl.
  - apply Nat.ltb_lt in Hji. apply Hfinish; [done|].
    by apply (scanned_done _ a b p data0 i1 j1).
  - apply Nat.ltb_ge in Hji.
    destruct (Hswap Hji) as (x & y & Hx & Hy & Hxp & Hyp).
    pose proof (scanned_Swap _ a b p data0 i1 j1 x y Hs1 Hji Hx Hy Hxp Hyp) as Hs2.
    destruct (partition_loop_spec a b p (b - a) (Swap data0 i1 j1) (i1 + 1) (j1 - 1) Hs2)
      as [Hr2 Hs3].
    { destruct Hs1 as (Hai & Hij & Hjb & _). lia. }
    destruct (partition_loop less (b - a) (Swap data0 i1 j1) a (i1 + 1) (j1 - 1))
      as [data3 j3]; simpl in *.
    apply Hfinish; [|done].
    eapply rearranged_trans; [exact Hr0|].
    eapply rearranged_trans; [|eapply rearranged_weaken; [| |exact Hr2]; lia].
    destruct Hs1 as (Hai & Hij & Hjb & _). apply Swap_rearranged; lia.
Qed.

Lemma partitionEqual_loop_spec a b p : forall turns data i j,
  scanned (fun x => negb (less p x)) a b p data i j -> j + 1 - i < turns ->
  let r := partitionEqual_loop less turns data a i j in
  rearranged (a + 1) b data r.1
  /\ scanned (fun x => negb (less p x)) a b p r.1 r.2 (r.2 - 1).
Proof.
  induction turns as [|turns IH]; intros data i j Hs Hturns; [lia|].
  simpl.
  destruct (scanned_scans (fun x => negb (less p x))
              (fun i => negb (Less less data a i)) (fun j => Less less data a j)
              a b p data i j) as (Hs' & Hi' & Hj' & Hswap); [| |done|].
  { intros k x Hx. f_equal. apply Less_lookup; [apply Hs|done]. }
  { intros k x Hx. rewrite negb_involutive. apply Less_lookup; [apply Hs|done]. }
  set (i' := scan_up (j + 1 - i) (fun i => negb (Less less data a i)) i j) in *.
  set (j' := scan_down (fun j => Less less data a j) i' j) in *.
  destruct (j' <? i') eqn:Hji.
  - apply Nat.ltb_lt in Hji. simpl. split; [apply rearranged_refl|].
    destruct Hs' as (Hai & Hij & Hjb & Hb & Hp & Hlt & Hge).
    repeat split; try lia; try done.
    intros k x Hk. apply Hge. lia.
  - apply Nat.ltb_ge in Hji.
    destruct (Hswap Hji) as (x & y & Hx & Hy & Hxp & Hyp).
    pose proof (scanned_Swap _ a b p data i' j' x y Hs' Hji Hx Hy Hxp Hyp) as Hs''.
    destruct (IH (Swap data i' j') (i' + 1) (j' - 1) Hs'') as [Hr Hfin]; [lia|].
    split; [|done].
    eapply rearranged_trans; [|exact Hr].
    destruct Hs' as (Hai & Hij & Hjb & Hb & _). apply Swap_rearranged; lia.
Qed.

(** [partitionEqual_func]: the element [p] that was at [pivot] ends at [a],
    and [mid] separates the elements that [p] is not less than from those
    it is less than. *)
Lemma partitionEqual_func_spec data a b pivot p :
  a <= pivot < b -> b <= length data -> data !! pivot = Some p ->
  let r := partitionEqual_func less data a b pivot in
  rearranged a b data r.1
  /\ a < r.2 <= b
  /\ r.1 !! a = Some p
  /\ all_in (a + 1) r.2 r.1 (fun x => less p x = false)
  /\ all_in r.2 b r.1 (fun x => less p x = true).
Proof.
  intros Hpivot Hb Hp. unfold partitionEqual_func.
  set (data0 := Swap data a pivot).
  assert (rearranged a b data data0) as Hr0 by (apply Swap_rearranged; lia).
  assert (scanned (fun x => negb (less p x)) a b p data0 (a + 1) (b - 1)) as Hs0.
  { repeat split; try lia.
    - unfold data0. by rewrite Swap_length.
    - unfold data0. rewrite Swap_lookup by lia. by rewrite decide_True.
    - intros k x Hk. lia.
    - intros k x Hk. lia. }
  destruct (partitionEqual_loop_spec a b p (b - a) data0 (a + 1) (b - 1) Hs0)
    as [Hr1 Hs1]; [lia|].
  destruct (partitionEqual_loop less (b - a) data0 a (a + 1) (b - 1)) as [data1 mid];
    simpl in *.
  destruct Hs1 as (Hai & Hij & Hjb & Hb1 & Hp1 & Hlt & Hge).
  split; [eapply rearranged_trans; [exact Hr0|]|].
  { eapply rearranged_weaken; [| |exact Hr1]; lia. }
  split; [lia|]. split; [done|]. split.
  - intros k x Hk Hx. apply negb_true_iff. by apply (Hlt k).
  - intros k x Hk Hx. apply negb_false_iff. apply (Hge k); [lia|done].
Qed.
End partition.
End partition_facts.

Module order_facts.
Import sort range_facts.
Local Open Scope nat_scope.
Local Open Scope list_scope.

Section sorted_range.
Context {A : Type} (R : relation A).
Implicit Types data : list A.

Lemma StronglySorted_lookup (l : list A) i j x y :
  StronglySorted R l -> i < j -> l !! i = Some x -> l !! j = Some y -> R x y.
Proof.
  intros Hs. revert i j. induction Hs as [|z l Hs IH Hz]; intros i j Hij Hx Hy; [done|].
  destruct j as [|j]; [lia|]. destruct i as [|i]; simpl in *.
  - injection Hx as <-. rewrite Forall_forall in Hz. apply Hz.
    by eapply list_elem_of_lookup_2.
  - eapply (IH i j); [lia|done|done].
Qed.

Lemma sorted_range_StronglySorted (l : list A) :
  sorted_range R 0 (length l) l -> StronglySorted R l.
Proof.
  induction l as [|x l IH]; intros Hs; [constructor|].
  constructor.
  - apply IH. intros i j y z Hi Hij Hj Hy Hz.
    apply (Hs (S i) (S j)); simpl; try lia; done.
  - apply Forall_forall. intros y [k Hk]%list_elem_of_lookup.
    apply (Hs 0 (S k)); simpl; try lia; try done.
    apply lookup_lt_Some in Hk. lia.
Qed.

Lemma sorted_range_middle (before middle after : list A) :
  StronglySorted R middle ->
  sorted_range R (length before) (length before + length middle)
               (before ++ middle ++ after).
Proof.
  intros Hs i j x y Hi Hij Hj.
  rewrite (lookup_app_r before _ i), (lookup_app_r before _ j) by lia.
  rewrite (lookup_app_l middle after (i - _)), (lookup_app_l middle after (j - _)) by lia.
  apply (StronglySorted_lookup middle); [done|lia].
Qed.

Lemma sorted_range_frame a b a' b' data data' :
  frame a' b' data data' -> (b <= a' \/ b' <= a) ->
  sorted_range R a b data -> sorted_range R a b data'.
Proof.
  intros [_ Hf] Hdisj Hs i j x y Hi Hij Hj Hx Hy.
  apply (Hs i j); try done; rewrite <- Hf; try done; lia.
Qed.

Lemma sorted_range_empty a b data : b <= a + 1 -> sorted_range R a b data.
Proof. intros Hab i j x y Hi Hij Hj. lia. Qed.
End sorted_range.

Section strict_weak_order.
Context {A : Type} (less : A -> A -> bool) (good : A -> Prop).
Context `{!StrictWeakOrder less good}.
Implicit Types data : list A.

Local Abbreviation le := (not_after less) (only parsing).

Lemma less_irrefl x : good x -> less x x = false.
Proof.
  intros Hx. destruct (less x x) eqn:H; [|done]. by rewrite (less_asym x x) in H.
Qed.

Lemma le_refl x : good x -> le x x.
Proof. apply less_irrefl. Qed.

Lemma le_trans x y z : good x -> good y -> good z -> le x y -> le y z -> le x z.
Proof. unfold not_after. intros. by apply (less_negtrans z y x). Qed.

Lemma lt_le x y : good x -> good y -> less x y = true -> le x y.
Proof. unfold not_after. intros. by apply less_asym. Qed.

Lemma lt_le_trans x y z :
  good x -> good y -> good z -> less x y = true -> le y z -> less x z = true.
Proof.
  unfold not_after. intros Hx Hy Hz Hxy Hyz.
  destruct (less x z) eqn:Hxz; [done|].
  by rewrite (less_negtrans x z y) in Hxy.
Qed.

Lemma le_lt_trans x y z :
  good x -> good y -> good z -> le x y -> less y z = true -> less x z = true.
Proof.
  unfold not_after. intros Hx Hy Hz Hxy Hyz.
  destruct (less x z) eqn:Hxz; [done|].
  by rewrite (less_negtrans y x z) in Hyz.
Qed.

Lemma good_lookup data k x : Forall good data -> data !! k = Some x -> good x.
Proof. intros Hg Hx. rewrite Forall_forall in Hg. by eapply Hg, list_elem_of_lookup_2. Qed.

Lemma good_rearranged a b data data' :
  rearranged a b data data' -> Forall good data -> Forall good data'.
Proof. intros [Hp _] Hg. by rewrite Hp. Qed.

(** Ordered neighbours make a sorted range. *)
Lemma sorted_range_adjacent a b data :
  Forall good data ->
  (forall j x y, a < j -> j < b -> data !! (j - 1) = Some x -> data !! j = Some y -> le x y) ->
  sorted_range le a b data.
Proof.
  intros Hg Hadj i j x y Hi Hij Hj Hx Hy.
  revert y Hj Hy. induction j as [|j IH]; intros y Hj Hy; [lia|].
  destruct (lookup_lt_is_Some_2 data j) as [z Hz]; [apply lookup_lt_Some in Hy; lia|].
  assert (le z y) as Hzy.
  { apply (Hadj (S j)); try lia; [|done]. by replace (S j - 1) with j by lia. }
  destruct (decide (i = j)) as [->|Hne]; [congruence|].
  apply (le_trans x z y); eauto using good_lookup.
  apply IH; [lia|lia|done].
Qed.

(** Two sorted ranges around a pivot that separates them. *)
Lemma sorted_range_join a b mid data p :
  Forall good data -> a <= mid < b ->
  data !! mid = Some p ->
  all_in a mid data (fun x => le x p) ->
  all_in (mid + 1) b data (fun x => le p x) ->
  sorted_range le a mid data -> sorted_range le (mid + 1) b data ->
  sorted_range le a b data.
Proof.
  intros Hg Hmid Hp Hl Hr Hsl Hsr i j x y Hi Hij Hj Hx Hy.
  destruct (decide (j < mid)); [by apply (Hsl i j)|].
  destruct (decide (mid < i)); [apply (Hsr i j); try done; lia|].
  assert (le x p) as Hxp.
  { destruct (decide (i = mid)) as [->|].
    - replace x with p by congruence. apply le_refl. by eapply good_lookup.
    - apply (Hl i); [lia|done]. }
  assert (le p y) as Hpy.
  { destruct (decide (j = mid)) as [->|].
    - replace y with p by congruence. apply le_refl. by eapply good_lookup.
    - apply (Hr j); [lia|done]. }
  apply (le_trans x p y); eauto using good_lookup.
Qed.

(** [insertionSort_func] on a range. *)
Lemma insertionSort_func_range data a b :
  a <= b <= length data -> Forall good data ->
  rearranged a b data (insertionSort_func less data a b)
  /\ sorted_range le a b (insertionSort_func less data a b).
Proof.
  intros Hab Hg.
  pose proof (seg_split a b data Hab) as Hd.
  assert (length (take a data) = a) as Hla by (rewrite length_take; lia).
  assert (length (seg a b data) = b - a) as Hlm.
  { unfold seg. rewrite length_take, length_drop. lia. }
  revert Hd Hla Hlm.
  generalize (take a data) as before, (seg a b data) as middle, (drop b data) as after.
  intros before middle after -> Hla Hlm.
  pose proof (insertion_facts.insertionSort_func_spec less before middle after) as Hspec.
  rewrite Hla, Hlm in Hspec. replace (a + (b - a)) with b in Hspec by lia.
  rewrite Hspec.
  assert (length (isort less middle) = b - a) as Hli.
  { by rewrite insertion_facts.isort_Permutation. }
  split; [split|].
  - by rewrite insertion_facts.isort_Permutation.
  - split.
    + rewrite !length_app. lia.
    + intros k [Hk|Hk].
      * by rewrite !(lookup_app_l before) by lia.
      * rewrite !(lookup_app_r before) by lia.
        rewrite (lookup_app_r (isort less middle)), (lookup_app_r middle) by lia.
        by rewrite Hli, Hlm.
  - pose proof (sorted_range_middle le before (isort less middle) after) as Hs.
    rewrite Hla, Hli in Hs. replace (a + (b - a)) with b in Hs by lia.
    apply Hs. apply (insertion_facts.isort_sorted less good).
    apply Forall_app in Hg as [_ Hg]. by apply Forall_app in Hg as [Hg _].
Qed.
End strict_weak_order.
End order_facts.

Module heap_facts.
Import sort range_facts order_facts.
Local Open Scope nat_scope.
Local Open Scope list_scope.
Local Ltac Zify.zify_post_hook ::= Z.to_euclidean_division_equations.

Ltac solve_good :=
  match goal with
  | Hg : Forall ?good ?data, Hx : ?data !! _ = Some ?x |- ?good ?x =>
      exact (good_lookup good data _ x Hg Hx)
  end.

Section heap.
Context {A : Type} (less : A -> A -> bool) (good : A -> Prop).
Context `{!StrictWeakOrder less good}.
Implicit Types data : list A.

Local Abbreviation le := (not_after less) (only parsing).


Lemma siftDown_loop_spec lo hi first : forall turns data root,
  first + hi <= length data -> Forall good data ->
  lo <= root -> hi - root <= turns ->
  sifting less lo hi first root data ->
  rearranged (first + lo) (first + hi) data (siftDown_loop less turns data root hi first)
  /\ heap_from less lo hi first (siftDown_loop less turns data root hi first).
Proof.
  induction turns as [|turns IH]; intros data root Hlen Hg Hlo Hturns [I1 I2].
  - simpl. split; [apply rearranged_refl|].
    intros c x y Hc1 Hc Hp. apply I1; try done. lia.
  - cbn [siftDown_loop]. destruct (hi <=? 2 * root + 1) eqn:Hchild.
    { apply Nat.leb_le in Hchild. split; [apply rearranged_refl|].
      intros c x y Hc1 Hc Hp. apply I1; try done. lia. }
    apply Nat.leb_gt in Hchild.
    remember (2 * root + 1) as c1 eqn:Hc1def.
    set (child := if (c1 + 1 <? hi) && Less less data (first + c1) (first + c1 + 1)
                  then c1 + 1 else c1).
    destruct (lookup_lt_is_Some_2 data (first + root)) as [xr Hxr]; [lia|].
    destruct (lookup_lt_is_Some_2 data (first + c1)) as [x1 Hx1]; [lia|].
    assert (exists xc, data !! (first + child) = Some xc
              /\ (child = c1 \/ child = c1 + 1) /\ child < hi
              /\ (forall c x, c < hi -> (c - 1) / 2 = root -> 1 <= c ->
                    data !! (first + c) = Some x -> le x xc)) as (xc & Hxc & Hcc & Hchi & Hmax).
    { subst child. destruct (c1 + 1 <? hi) eqn:H2; cbn [andb].
      - apply Nat.ltb_lt in H2.
        destruct (lookup_lt_is_Some_2 data (first + c1 + 1)) as [x2 Hx2]; [lia|].
        rewrite (Less_lookup less data _ _ x1 x2) by done.
        destruct (less x1 x2) eqn:H12.
        + exists x2. replace (first + (c1 + 1)) with (first + c1 + 1) by lia.
          split; [done|]. split; [by right|]. split; [lia|].
          intros c x Hc Hp Hc1 Hx.
          assert (c = c1 \/ c = c1 + 1) as [->| ->] by lia.
          * replace x with x1 by congruence. apply (lt_le less good); try done; try solve_good.
          * replace (first + (c1 + 1)) with (first + c1 + 1) in Hx by lia.
            replace x with x2 by congruence. apply (le_refl less good); try done; try solve_good.
        + exists x1. split; [done|]. split; [by left|]. split; [lia|].
          intros c x Hc Hp Hc1 Hx.
          assert (c = c1 \/ c = c1 + 1) as [->| ->] by lia.
          * replace x with x1 by congruence. apply (le_refl less good); try done; try solve_good.
          * replace (first + (c1 + 1)) with (first + c1 + 1) in Hx by lia.
            replace x with x2 by congruence. done.
      - apply Nat.ltb_ge in H2. exists x1. split; [done|]. split; [by left|]. split; [lia|].
        intros c x Hc Hp Hc1 Hx.
        assert (c = c1) as -> by lia.
        replace x with x1 by congruence. apply (le_refl less good); try done; try solve_good. }
    clearbody child.
    rewrite (Less_lookup less data _ _ xr xc) by done.
    destruct (less xr xc) eqn:Hrc; cbn [negb].
    + (* swap and go on from [child] *)
      assert (first + root <> first + child) as Hne by lia.
      destruct (IH (Swap data (first + root) (first + child)) child) as [Hr Hh].
      * by rewrite Swap_length.
      * eapply (good_rearranged good); [|done]. apply (Swap_rearranged 0 (length data)); lia.
      * lia.
      * lia.
      * split.
        -- intros c x y Hc1 Hc Hp Hpc.
           rewrite !Swap_lookup by lia.
           destruct (decide (first + c = first + root)) as [Hcr|Hcr].
           { (* c = root *)
             assert (c = root) as -> by lia.
             rewrite Hxc. rewrite !decide_False by lia.
             intros [= <-] Hy. apply (I2 ltac:(lia) Hp child); try done; lia. }
           destruct (decide (first + c = first + child)) as [Hcc'|Hcc'].
           { assert (c = child) as -> by lia.
             assert ((child - 1) / 2 = root) as Hpr by lia.
             rewrite Hpr, Hxr. rewrite decide_True by done.
             intros [= <-]. rewrite Hxc. intros [= <-].
             apply (lt_le less good); try done; try solve_good. }
           destruct (decide (first + (c - 1) / 2 = first + root)) as [Hpr|Hpr].
           { rewrite Hxc. intros Hx [= <-]. apply (Hmax c); try done. lia. }
           rewrite decide_False by lia.
           apply I1; try done. lia.
        -- intros _ _ c x y Hc1 Hc Hp.
           assert ((child - 1) / 2 = root) as Hpr by lia.
           rewrite Hpr. rewrite !Swap_lookup by lia.
           rewrite (decide_False (P := first + c = first + root)) by lia.
           rewrite (decide_False (P := first + c = first + child)) by lia.
           rewrite decide_True by done. rewrite Hxc.
           intros Hx [= <-]. apply (I1 c); try done; try lia.
           by rewrite Hp.
      * split; [|done].
        eapply rearranged_trans; [|eapply rearranged_weaken; [| |exact Hr]; lia].
        apply Swap_rearranged; lia.
    + split; [apply rearranged_refl|].
      intros c x y Hc1 Hc Hp Hx Hy.
      destruct (decide ((c - 1) / 2 = root)) as [Hpr|Hpr]; [|by apply (I1 c)].
      rewrite Hpr in Hy. replace y with xr by congruence.
      apply (le_trans less good x xc xr); try done; try solve_good.
      by apply (Hmax c).
Qed.

Lemma siftDown_func_spec data lo hi first :
  first + hi <= length data -> Forall good data ->
  heap_from less (lo + 1) hi first data ->
  rearranged (first + lo) (first + hi) data (siftDown_func less data lo hi first)
  /\ heap_from less lo hi first (siftDown_func less data lo hi first).
Proof.
  intros Hlen Hg Hh. apply siftDown_loop_spec; try done; try lia.
  split.
  - intros c x y Hc1 Hc Hp Hne. apply Hh; try done. lia.
  - intros H1 Hp. lia.
Qed.

Lemma heap_root_max m first data top :
  Forall good data -> first + m <= length data ->
  heap_from less 0 m first data -> data !! first = Some top ->
  forall k x, k < m -> data !! (first + k) = Some x -> le x top.
Proof.
  intros Hg Hlen Hh Htop k. induction k as [k IH] using lt_wf_ind. intros x Hk Hx.
  destruct (decide (k = 0)) as [->|Hk0].
  - rewrite Nat.add_0_r in Hx. replace x with top by congruence.
    apply (le_refl less good). solve_good.
  - destruct (lookup_lt_is_Some_2 data (first + (k - 1) / 2)) as [y Hy]; [lia|].
    apply (le_trans less good x y top); try solve_good.
    + apply (Hh k); try done; lia.
    + apply (IH ((k - 1) / 2)); try done; lia.
Qed.

Lemma heapSort_build hi first : forall n data,
  first + hi <= length data -> Forall good data ->
  heap_from less n hi first data ->
  let data' := foldl (fun data i => siftDown_func less data i hi first) data (rev (seq 0 n)) in
  rearranged first (first + hi) data data' /\ heap_from less 0 hi first data'.
Proof.
  induction n as [|n IH]; intros data Hlen Hg Hh; cbn zeta.
  - split; [apply rearranged_refl|done].
  - rewrite seq_S, rev_unit. cbn [foldl Nat.add].
    destruct (siftDown_func_spec data n hi first) as [Hr Hh']; try done.
    { by replace (n + 1) with (S n) by lia. }
    destruct (IH (siftDown_func less data n hi first)) as [Hr' Hh'']; try done.
    { by rewrite (rearranged_length _ _ _ _ Hr). }
    { by apply (good_rearranged good _ _ _ _ Hr). }
    split; [|done].
    eapply rearranged_trans; [|exact Hr'].
    eapply rearranged_weaken; [| |exact Hr]; lia.
Qed.

Lemma heapSort_pop hi first : forall m data,
  m <= hi -> first + hi <= length data -> Forall good data ->
  heap_from less 0 m first data ->
  sorted_range le (first + m) (first + hi) data ->
  (forall k j x y, k < m -> m <= j < hi ->
     data !! (first + k) = Some x -> data !! (first + j) = Some y -> le x y) ->
  let data' :=
    foldl (fun data i => siftDown_func less (Swap data first (first + i)) 0 i first)
          data (rev (seq 0 m)) in
  rearranged first (first + hi) data data' /\ sorted_range le first (first + hi) data'.
Proof.
  induction m as [|m IH]; intros data Hm Hlen Hg Hh Hs Hsep; cbn zeta.
  - split; [apply rearranged_refl|]. by rewrite Nat.add_0_r in Hs.
  - rewrite seq_S, rev_unit. cbn [foldl Nat.add].
    set (data1 := Swap data first (first + m)).
    assert (rearranged first (first + S m) data data1) as Hr1
      by (apply Swap_rearranged; lia).
    assert (Forall good data1) as Hg1 by (by apply (good_rearranged good _ _ _ _ Hr1)).
    assert (length data1 = length data) as Hl1 by (apply Swap_length).
    destruct (lookup_lt_is_Some_2 data first) as [top Htop]; [lia|].
    destruct (lookup_lt_is_Some_2 data (first + m)) as [last Hlast]; [lia|].
    assert (forall k, data1 !! (first + k)
                      = if decide (k = 0) then Some last
                        else if decide (k = m) then Some top else data !! (first + k)) as Hd1.
    { intros k. unfold data1. rewrite Swap_lookup by lia.
      destruct (decide (k = 0)) as [->|].
      - rewrite Nat.add_0_r. by rewrite decide_True.
      - rewrite decide_False by lia.
        destruct (decide (k = m)) as [->|]; [by rewrite decide_True|].
        by rewrite decide_False by lia. }
    destruct (siftDown_func_spec data1 0 m first) as [Hr2 Hh2]; try done; [lia| |].
    { intros c x y Hc1 Hc Hp. rewrite !Hd1. rewrite !decide_False by lia.
      apply Hh; try done; lia. }
    set (data2 := siftDown_func less data1 0 m first) in *.
    rewrite Nat.add_0_r in Hr2.
    assert (rearranged first (first + S m) data data2) as Hr12.
    { eapply rearranged_trans; [exact Hr1|].
      eapply rearranged_weaken; [| |exact Hr2]; lia. }
    assert (forall j, m <= j -> data2 !! (first + j)
                      = if decide (j = m) then Some top else data !! (first + j)) as Hd2.
    { intros j Hj. destruct Hr2 as [_ [_ Hf]]. rewrite Hf by lia.
      rewrite Hd1. destruct (decide (j = 0)) as [->|]; [|done].
      assert (m = 0) as -> by lia. rewrite decide_True by done.
      rewrite Nat.add_0_r in Hlast. congruence. }
    destruct (IH data2) as [Hr3 Hs3]; try done.
    + lia.
    + by rewrite (rearranged_length _ _ _ _ Hr2), Hl1.
    + by apply (good_rearranged good _ _ _ _ Hr2).
    + intros i j x y Hi Hij Hj. 
      replace i with (first + (i - first)) by lia.
      replace j with (first + (j - first)) by lia.
      rewrite !Hd2 by lia.
      destruct (decide (i - first = m)) as [Him|Him].
      * rewrite decide_False by lia. intros [= <-] Hy.
        apply (Hsep 0 (j - first)); try done; try lia.
        by rewrite Nat.add_0_r.
      * rewrite decide_False by lia. intros Hx Hy.
        apply (Hs (first + (i - first)) (first + (j - first))); try done; lia.
    + assert (all_in first (first + S m) data
                (fun x => forall j y, m <= j < hi -> data2 !! (first + j) = Some y -> le x y))
        as Hall.
      { intros k x Hk Hx j y Hj. rewrite Hd2 by lia.
        destruct (decide (j = m)) as [->|].
        - intros [= <-].
          apply (heap_root_max (S m) first data top Hg ltac:(lia) Hh Htop (k - first));
            [lia|].
          by replace (first + (k - first)) with k by lia.
        - intros Hy. apply (Hsep (k - first) j); try done; try lia.
          by replace (first + (k - first)) with k by lia. }
      apply (all_in_rearranged first (first + S m) data data2) in Hall; [|lia|done].
      intros k j x y Hk Hj Hx Hy.
      exact (Hall (first + k) x ltac:(lia) Hx j y Hj Hy).
    + split; [|done].
      eapply rearranged_trans; [|exact Hr3].
      eapply rearranged_weaken; [| |exact Hr12]; lia.
Qed.

(** [heapSort_func] on a range. *)
Lemma heapSort_func_range data a b :
  a <= b <= length data -> Forall good data ->
  rearranged a b data (heapSort_func less data a b)
  /\ sorted_range le a b (heapSort_func less data a b).
Proof.
  intros Hab Hg. unfold heapSort_func.
  destruct (heapSort_build (b - a) a (S ((b - a - 1) / 2)) data) as [Hr1 Hh1];
    try done; [lia| |].
  { intros c x y Hc1 Hc Hp. lia. }
  set (data1 := foldl _ data (rev (seq 0 (S ((b - a - 1) / 2))))) in *.
  destruct (heapSort_pop (b - a) a (b - a) data1) as [Hr2 Hs2]; try done.
  - rewrite (rearranged_length _ _ _ _ Hr1). lia.
  - by apply (good_rearranged good _ _ _ _ Hr1).
  - apply sorted_range_empty. lia.
  - intros k j x y Hk Hj. lia.
  - replace (a + (b - a)) with b in * by lia.
    split; [by eapply rearranged_trans|done].
Qed.
End heap.
End heap_facts.

Module pivot_facts.
Import sort range_facts order_facts.
Local Open Scope nat_scope.
Local Open Scope list_scope.
Local Ltac Zify.zify_post_hook ::= Z.to_euclidean_division_equations.

Section pivot.
Context {A : Type} (less : A -> A -> bool).
Implicit Types data : list A.

Lemma reverseRange_loop_rearranged a b : forall turns data i j,
  a <= i -> j < b -> rearranged a b data (reverseRange_loop turns data i j).
Proof.
  induction turns as [|turns IH]; intros data i j Hi Hj; simpl; [apply rearranged_refl|].
  destruct (i <? j) eqn:Hij; [|apply rearranged_refl].
  apply Nat.ltb_lt in Hij.
  eapply rearranged_trans; [apply (Swap_rearranged a b data i j); lia|].
  apply IH; lia.
Qed.

Lemma reverseRange_func_rearranged data a b :
  rearranged a b data (reverseRange_func data a b).
Proof.
  unfold reverseRange_func. destruct (decide (a < b)) as [Hab|Hab].
  - apply reverseRange_loop_rearranged; lia.
  - replace (b - a) with 0 by lia. apply rearranged_refl.
Qed.

Lemma pow2_size_nat (p : positive) : (2 ^ N.of_nat (Pos.size_nat p) <= 2 * N.pos p)%N.
Proof.
  induction p as [p IH|p IH|]; simpl Pos.size_nat.
  - rewrite Nat2N.inj_succ, N.pow_succ_r'. lia.
  - rewrite Nat2N.inj_succ, N.pow_succ_r'. lia.
  - done.
Qed.

Lemma nextPowerOfTwo_le n : 1 <= n -> (nextPowerOfTwo n <= 2 * N.of_nat n)%N.
Proof.
  intros Hn. unfold nextPowerOfTwo, bits_Len. rewrite N.shiftl_1_l.
  destruct (N.of_nat n) as [|p] eqn:Hp; [lia|]. simpl N.size_nat. apply pow2_size_nat.
Qed.

Lemma breakPatterns_other n random :
  1 <= n ->
  (let other := N.to_nat (N.land random (nextPowerOfTwo n - 1)) in
   if n <=? other then other - n else other) < n.
Proof.
  intros Hn. pose proof (nextPowerOfTwo_le n Hn) as Hle.
  assert (N.land random (nextPowerOfTwo n - 1) < nextPowerOfTwo n)%N as Hlt.
  { unfold nextPowerOfTwo in *. rewrite N.shiftl_1_l in *.
    rewrite N.sub_1_r, <- N.ones_equiv, N.land_ones.
    apply N.mod_lt. apply N.pow_nonzero. lia. }
  cbn zeta. destruct (n <=? _) eqn:Hc.
  - apply Nat.leb_le in Hc. lia.
  - apply Nat.leb_gt in Hc. lia.
Qed.

Lemma breakPatterns_func_rearranged data a b :
  a <= b -> rearranged a b data (breakPatterns_func data a b).
Proof.
  intros Hab. unfold breakPatterns_func.
  destruct (8 <=? b - a) eqn:Hn; [|apply rearranged_refl].
  apply Nat.leb_le in Hn.
  assert (forall l (st : list A * N), Forall (fun i => i < 3) l ->
            rearranged a b st.1
              (foldl (fun (st : list A * N) (i : nat) =>
                        let '(data, random) := st in
                        let random := xorshift_Next random in
                        let other :=
                          N.to_nat (N.land random (nextPowerOfTwo (b - a) - 1)) in
                        let other := if b - a <=? other then other - (b - a) else other in
                        (Swap data (a + (b - a) / 4 * 2 - 1 - 1 + i) (a + other), random))
                     st l).1) as Hfold.
  { induction l as [|i l IH]; intros [data' random] Hl; cbn [foldl];
      [apply rearranged_refl|].
    apply Forall_cons in Hl as [Hi Hl].
    eapply rearranged_trans; [|apply IH; done]. cbn [fst].
    pose proof (breakPatterns_other (b - a) (xorshift_Next random) ltac:(lia)) as Ho.
    cbn zeta in Ho.
    apply Swap_rearranged; lia. }
  apply (Hfold (seq 0 3) (data, N.of_nat (b - a))).
  repeat constructor; lia.
Qed.

Lemma order2_func_in data a b swaps :
  let r := order2_func less data a b swaps in
  (r.1.1 = a /\ r.1.2 = b) \/ (r.1.1 = b /\ r.1.2 = a).
Proof. unfold order2_func. destruct (Less less data b a); simpl; tauto. Qed.

Lemma median_func_in data a b c swaps :
  let r := median_func less data a b c swaps in r.1 = a \/ r.1 = b \/ r.1 = c.
Proof.
  unfold median_func.
  pose proof (order2_func_in data a b swaps) as H1.
  destruct (order2_func less data a b swaps) as [[a1 b1] s1]; simpl in H1.
  pose proof (order2_func_in data b1 c s1) as H2.
  destruct (order2_func less data b1 c s1) as [[b2 c2] s2]; simpl in H2.
  pose proof (order2_func_in data a1 b2 s2) as H3.
  destruct (order2_func less data a1 b2 s2) as [[a3 b3] s3]; simpl in H3.
  simpl. lia.
Qed.

(** The pivot that [choosePivot_func] chooses lies in the range. *)
Lemma choosePivot_func_in data a b :
  a < b ->
  a <= (choosePivot_func less data a b).1 < b.
Proof.
  intros Hab. unfold choosePivot_func.
  remember (b - a) as l eqn:Hl.
  set (r := if 8 <=? l then _ else _).
  assert (a <= r.1 < b) as Hr.
  { subst r. destruct (8 <=? l) eqn:H8; [|cbn [fst snd]; lia].
    apply Nat.leb_le in H8.
    set (q := if shortestNinther <=? l then _ else _).
    assert (a <= q.1.1.1 < b /\ a <= q.1.1.2 < b /\ a <= q.1.2 < b) as Hq.
    { subst q. destruct (shortestNinther <=? l) eqn:H50; [|cbn [fst snd]; lia].
      apply Nat.leb_le in H50. unfold shortestNinther in H50.
      unfold medianAdjacent_func.
      pose proof (median_func_in data (a + l / 4 * 1 - 1) (a + l / 4 * 1)
                    (a + l / 4 * 1 + 1) 0) as H1.
      destruct (median_func less data (a + l / 4 * 1 - 1) (a + l / 4 * 1)
                  (a + l / 4 * 1 + 1) 0) as [i1 s1]; cbn [fst snd] in H1.
      pose proof (median_func_in data (a + l / 4 * 2 - 1) (a + l / 4 * 2)
                    (a + l / 4 * 2 + 1) s1) as H2.
      destruct (median_func less data (a + l / 4 * 2 - 1) (a + l / 4 * 2)
                  (a + l / 4 * 2 + 1) s1) as [j1 s2]; cbn [fst snd] in H2.
      pose proof (median_func_in data (a + l / 4 * 3 - 1) (a + l / 4 * 3)
                    (a + l / 4 * 3 + 1) s2) as H3.
      destruct (median_func less data (a + l / 4 * 3 - 1) (a + l / 4 * 3)
                  (a + l / 4 * 3 + 1) s2) as [k1 s3]; cbn [fst snd] in H3.
      cbn [fst snd]. lia. }
    destruct q as [[[i1 j1] k1] s1]; cbn [fst snd] in Hq.
    pose proof (median_func_in data i1 j1 k1 s1) as Hm.
    destruct (median_func less data i1 j1 k1 s1) as [j2 s2]; cbn [fst snd] in *. lia. }
  destruct r as [j swaps]; cbn [fst snd] in Hr.
  destruct (swaps =? 0); [done|]. destruct (swaps =? maxSwaps); done.
Qed.
End pivot.
End pivot_facts.

Module shifting_facts.
Import sort range_facts order_facts heap_facts.
Local Open Scope nat_scope.
Local Open Scope list_scope.

Section shifting.
Context {A : Type} (less : A -> A -> bool) (good : A -> Prop).
Context `{!StrictWeakOrder less good}.
Implicit Types data : list A.

Local Abbreviation le := (not_after less) (only parsing).

Lemma lower_bound_rearranged a b data data' :
  a <= b <= length data -> rearranged a b data data' ->
  lower_bound less a b data -> lower_bound less a b data'.
Proof.
  intros Hab Hr Hlb p Ha Hp.
  apply (all_in_rearranged a b data data'); [done|done|].
  apply Hlb; [done|]. destruct Hr as [_ [_ Hf]]. rewrite <- Hf; [done|lia].
Qed.

Lemma lower_bound_weaken a b b' data :
  b' <= b -> lower_bound less a b data -> lower_bound less a b' data.
Proof.
  intros Hb Hlb p Ha Hp. eapply all_in_weaken; [| |by apply Hlb]; lia.
Qed.

Lemma sorted_range_snoc a j data top :
  Forall good data ->
  sorted_range le a j data -> data !! j = Some top ->
  all_in a j data (fun x => le x top) ->
  sorted_range le a (j + 1) data.
Proof.
  intros Hg Hs Htop Hall i1 i2 x y Hi Hij Hj Hx Hy.
  destruct (decide (i2 = j)) as [->|].
  - replace y with top by congruence. apply (Hall i1); [lia|done].
  - apply (Hs i1 i2); try done; lia.
Qed.

Lemma sorted_range_weaken a b a' b' data :
  a <= a' -> b' <= b -> sorted_range le a b data -> sorted_range le a' b' data.
Proof. intros Ha Hb Hs i j x y Hi Hij Hj. apply Hs; lia. Qed.

Lemma sorted_range_top a j data x top :
  Forall good data -> a <= j ->
  sorted_range le a (j + 1) data -> data !! j = Some top ->
  forall k, a <= k <= j -> data !! k = Some x -> le x top.
Proof.
  intros Hg Haj Hs Htop k Hk Hx.
  destruct (decide (k = j)) as [->|].
  - replace x with top by congruence. apply (le_refl less good). solve_good.
  - apply (Hs k j); try done; lia.
Qed.

Lemma skip_ordered_spec b data : forall turns i,
  b - i <= turns ->
  let i' := skip_ordered less turns data i b in
  i <= i' /\ (i <= b -> i' <= b)
  /\ (forall k, i <= k < i' -> Less less data k (k - 1) = false)
  /\ (i' < b -> Less less data i' (i' - 1) = true).
Proof.
  induction turns as [|turns IH]; intros i Hturns; cbn [skip_ordered]; cbn zeta.
  - repeat split; try lia.
  - destruct (i <? b) eqn:Hib; cbn [andb].
    + apply Nat.ltb_lt in Hib. destruct (Less less data i (i - 1)) eqn:HL; cbn [negb].
      * repeat split; try lia. done.
      * destruct (IH (S i)) as (H1 & H2 & H3 & H4); [lia|].
        repeat split; try lia; [|done].
        intros k Hk. destruct (decide (k = i)) as [->|]; [done|]. apply H3. lia.
    + apply Nat.ltb_ge in Hib. repeat split; try lia.
Qed.

Lemma shift_right_rearranged i b : forall turns data j,
  i < j -> rearranged i b data (shift_right less turns data j b).
Proof.
  induction turns as [|turns IH]; intros data j Hij; cbn [shift_right];
    [apply rearranged_refl|].
  destruct (j <? b) eqn:Hjb; [|apply rearranged_refl].
  apply Nat.ltb_lt in Hjb.
  destruct (negb _); [apply rearranged_refl|].
  eapply rearranged_trans; [apply (Swap_rearranged i b data j (j - 1)); lia|].
  apply IH. lia.
Qed.

(** [shift_left] at [j] inserts the element at [j] into the sorted range
    before it; it stops at [a] at the latest, where the element before the
    range is not after it. *)
Lemma shift_left_spec a : forall j data,
  a <= j -> j < length data -> Forall good data ->
  lower_bound less a (j + 1) data -> sorted_range le a j data ->
  rearranged a (j + 1) data (shift_left less data j)
  /\ sorted_range le a (j + 1) (shift_left less data j).
Proof.
  induction j as [|j IH]; intros data Haj Hj Hg Hlb Hs; cbn [shift_left].
  - split; [apply rearranged_refl|]. intros i1 i2 x y. lia.
  - destruct (lookup_lt_is_Some_2 data (S j)) as [x Hx]; [lia|].
    destruct (lookup_lt_is_Some_2 data j) as [z Hz]; [lia|].
    rewrite (Less_lookup less data (S j) j x z) by done.
    destruct (less x z) eqn:Hxz; cbn [negb].
    + (* the element moves left *)
      assert (a <= j) as Haj'.
      { destruct (decide (a = S j)) as [->|]; [|lia].
        specialize (Hlb z ltac:(lia)). replace (S j - 1) with j in Hlb by lia.
        specialize (Hlb Hz (S j) x ltac:(lia) Hx). unfold not_after in Hlb. congruence. }
      set (data1 := Swap data (S j) j).
      assert (rearranged a (S j + 1) data data1) as Hr1 by (apply Swap_rearranged; lia).
      assert (forall k, data1 !! k = if decide (k = S j) then Some z
                                     else if decide (k = j) then Some x else data !! k) as Hd1.
      { intros k. unfold data1. rewrite Swap_lookup by lia. by rewrite Hx, Hz. }
      destruct (IH data1) as [Hr2 Hs2]; try done.
      * unfold data1. rewrite Swap_length. lia.
      * by apply (good_rearranged good _ _ _ _ Hr1).
      * apply (lower_bound_weaken a (S j + 1)); [lia|].
        apply (lower_bound_rearranged a (S j + 1) data data1); [lia|done|done].
      * intros i1 i2 u v Hi1 Hi12 Hi2. rewrite !Hd1. rewrite !decide_False by lia.
        apply Hs; lia.
      * split.
        -- eapply rearranged_trans; [exact Hr1|].
           eapply rearranged_weaken; [| |exact Hr2]; lia.
        -- assert (Forall good (shift_left less data1 j)) as Hg2.
           { apply (good_rearranged good _ _ _ _ Hr2).
             by apply (good_rearranged good _ _ _ _ Hr1). }
           apply (sorted_range_snoc a (S j) _ z Hg2).
           ++ by replace (S j) with (j + 1) by lia.
           ++ destruct Hr2 as [_ [_ Hf]]. rewrite Hf by lia.
              rewrite Hd1. by rewrite decide_True.
           ++ replace (S j) with (j + 1) by lia.
              apply (all_in_rearranged a (j + 1) data1); [| done |].
              { unfold data1. rewrite Swap_length. lia. }
              intros k u Hk. rewrite Hd1. rewrite decide_False by lia.
              destruct (decide (k = j)) as [->|].
              ** intros [= <-]. by apply (lt_le less good); try solve_good.
              ** intros Hu. apply (Hs k j); try done; lia.
    + (* the element stays *)
      split; [apply rearranged_refl|].
      replace (S j + 1) with (S (S j)) by lia.
      destruct (decide (a = S j)) as [->|Hne].
      { intros i1 i2 u v. lia. }
      replace (S (S j)) with (S j + 1) by lia.
      apply (sorted_range_snoc a (S j) data x); try done.
      intros k u Hk Hu.
      apply (le_trans less good u z x); try solve_good; [|done].
      assert (sorted_range le a (j + 1) data) as Hs'
        by (by replace (j + 1) with (S j) by lia).
      exact (sorted_range_top a j data u z Hg ltac:(lia) Hs' Hz k ltac:(lia) Hu).
Qed.

Lemma sorted_range_grow a i i' data :
  Forall good data -> a < i -> i <= i' -> i' <= length data ->
  sorted_range le a i data ->
  (forall k, i <= k < i' -> Less less data k (k - 1) = false) ->
  sorted_range le a i' data.
Proof.
  intros Hg Hai Hii Hlen Hs Hadj.
  apply (sorted_range_adjacent less good); [done|].
  intros j x y Haj Hji Hx Hy.
  destruct (decide (j < i)) as [Hlt|Hge].
  - apply (Hs (j - 1) j); try done; lia.
  - specialize (Hadj j ltac:(lia)).
    by rewrite (Less_lookup less data j (j - 1) y x) in Hadj.
Qed.

Lemma partialInsertionSort_loop_spec a b : forall steps data i,
  a < i -> i <= b -> b <= length data -> Forall good data ->
  lower_bound less a b data -> sorted_range le a i data ->
  let r := partialInsertionSort_loop less steps data a b i in
  rearranged a b data r.1 /\ (r.2 = true -> sorted_range le a b r.1).
Proof.
  induction steps as [|steps IH]; intros data i Hai Hib Hlen Hg Hlb Hs;
    cbn [partialInsertionSort_loop]; cbn zeta.
  - split; [apply rearranged_refl|done].
  - destruct (skip_ordered_spec b data (b - i) i) as (K1 & K2 & K3 & K4); [lia|].
    set (i' := skip_ordered less (b - i) data i b) in *.
    assert (sorted_range le a i' data) as Hs'.
    { apply (sorted_range_grow a i i'); try done; lia. }
    destruct (i' =? b) eqn:Heq.
    { apply Nat.eqb_eq in Heq. rewrite Heq in Hs'. split; [apply rearranged_refl|done]. }
    apply Nat.eqb_neq in Heq.
    destruct (b - a <? shortestShifting); [split; [apply rearranged_refl|done]|].
    specialize (K4 ltac:(lia)).
    set (data1 := Swap data i' (i' - 1)).
    assert (rearranged a b data data1) as Hr1 by (apply Swap_rearranged; lia).
    assert (Forall good data1) as Hg1 by (by apply (good_rearranged good _ _ _ _ Hr1)).
    assert (length data1 = length data) as Hl1 by apply Swap_length.
    assert (lower_bound less a b data1) as Hlb1.
    { apply (lower_bound_rearranged a b data data1); [lia|done|done]. }
    set (data2 := if 2 <=? i' - a then shift_left less data1 (i' - 1) else data1).
    assert (rearranged a b data1 data2 /\ sorted_range le a i' data2) as [Hr2 Hs2].
    { subst data2. destruct (2 <=? i' - a) eqn:H2.
      - apply Nat.leb_le in H2.
        destruct (shift_left_spec a (i' - 1) data1) as [Hr Hsl]; try done; try lia.
        + apply (lower_bound_weaken a b); [lia|done].
        + intros i1 i2 u v Hi1 Hi12 Hi2. unfold data1.
          rewrite !Swap_lookup by lia. rewrite !decide_False by lia.
          apply Hs'; lia.
        + replace (i' - 1 + 1) with i' in * by lia.
          split; [|done]. eapply rearranged_weaken; [| |exact Hr]; lia.
      - apply Nat.leb_gt in H2. split; [apply rearranged_refl|].
        intros i1 i2 u v. lia. }
    set (data3 := if 2 <=? b - i' then shift_right less (b - (i' + 1)) data2 (i' + 1) b
                  else data2).
    assert (rearranged i' b data2 data3) as Hr3.
    { subst data3. destruct (2 <=? b - i'); [|apply rearranged_refl].
      apply shift_right_rearranged. lia. }
    assert (rearranged a b data data3) as Hr13.
    { eapply rearranged_trans; [exact Hr1|]. eapply rearranged_trans; [exact Hr2|].
      eapply rearranged_weaken; [| |exact Hr3]; lia. }
    destruct (IH data3 i') as [Hr4 Hs4]; try done; try lia.
    + rewrite (rearranged_length _ _ _ _ Hr13). done.
    + by apply (good_rearranged good _ _ _ _ Hr13).
    + apply (lower_bound_rearranged a b data data3); [lia|done|done].
    + apply (sorted_range_frame le a i' i' b data2 data3); [apply Hr3|lia|done].
    + split; [by eapply rearranged_trans|done].
Qed.

(** [partialInsertionSort_func]: when it answers true, the range is sorted. *)
Lemma partialInsertionSort_func_spec data a b :
  a < b -> b <= length data -> Forall good data -> lower_bound less a b data ->
  let r := partialInsertionSort_func less data a b in
  rearranged a b data r.1 /\ (r.2 = true -> sorted_range le a b r.1).
Proof.
  intros Hab Hlen Hg Hlb. apply partialInsertionSort_loop_spec; try done; try lia.
  intros i1 i2 u v. lia.
Qed.
End shifting.
End shifting_facts.

Module pdqsort_facts.
Import sort range_facts order_facts heap_facts partition_facts pivot_facts shifting_facts.
Local Open Scope nat_scope.
Local Open Scope list_scope.

Section pdqsort.
Context {A : Type} (less : A -> A -> bool) (good : A -> Prop).
Context `{!StrictWeakOrder less good}.
Implicit Types data : list A.

Local Abbreviation le := (not_after less) (only parsing).

Lemma lower_bound_frame a b a' b' data data' :
  frame a' b' data data' -> (a <= b /\ b <= a') \/ b' + 1 <= a ->
  lower_bound less a b data -> lower_bound less a b data'.
Proof.
  intros Hf Hb Hlb p Ha Hp.
  apply (all_in_frame a b a' b' data data'); [done|lia|].
  apply Hlb; [done|]. destruct Hf as [_ Hf]. rewrite <- Hf; [done|lia].
Qed.

(** Both sides of a partition sorted, one after the other, in either order. *)
Lemma sorted_after_partition a b mid a1 b1 a2 b2 data4 data5 data6 p :
  (a1 = a /\ b1 = mid /\ a2 = mid + 1 /\ b2 = b)
  \/ (a1 = mid + 1 /\ b1 = b /\ a2 = a /\ b2 = mid) ->
  a <= mid < b -> b <= length data4 -> Forall good data4 ->
  data4 !! mid = Some p ->
  all_in a mid data4 (fun x => less x p = true) ->
  all_in (mid + 1) b data4 (fun x => less x p = false) ->
  rearranged a1 b1 data4 data5 -> sorted_range le a1 b1 data5 ->
  rearranged a2 b2 data5 data6 -> sorted_range le a2 b2 data6 ->
  rearranged a b data4 data6 /\ sorted_range le a b data6.
Proof.
  intros Hcase Hmid Hlen Hg Hp Hlt Hge Hr5 Hs5 Hr6 Hs6.
  assert (length data5 = length data4) as Hl5 by (by eapply rearranged_length).
  assert (rearranged a b data4 data6) as Hr.
  { destruct Hcase as [(-> & -> & -> & ->)|(-> & -> & -> & ->)];
      (eapply rearranged_trans;
       [eapply rearranged_weaken; [| |exact Hr5]; lia
       |eapply rearranged_weaken; [| |exact Hr6]; lia]). }
  split; [done|].
  assert (Forall good data6) as Hg6 by (by apply (good_rearranged good _ _ _ _ Hr)).
  assert (data6 !! mid = Some p
          /\ all_in a mid data6 (fun x => less x p = true)
          /\ all_in (mid + 1) b data6 (fun x => less x p = false)
          /\ sorted_range le a mid data6 /\ sorted_range le (mid + 1) b data6)
    as (Hp6 & Hlt6 & Hge6 & Hsl & Hsr).
  { destruct Hcase as [(-> & -> & -> & ->)|(-> & -> & -> & ->)].
    - split; [|split; [|split; [|split]]]; [| | | |done].
      + destruct Hr5 as [_ [_ Hf5]], Hr6 as [_ [_ Hf6]]. rewrite Hf6, Hf5 by lia. done.
      + apply (all_in_frame a mid (mid + 1) b data5); [apply Hr6|lia|].
        apply (all_in_rearranged a mid data4); [lia|done|done].
      + apply (all_in_rearranged (mid + 1) b data5); [lia|done|].
        apply (all_in_frame (mid + 1) b a mid data4); [apply Hr5|lia|done].
      + apply (sorted_range_frame le a mid (mid + 1) b data5); [apply Hr6|lia|done].
    - split; [|split; [|split; [|split]]]; [| | |done|].
      + destruct Hr5 as [_ [_ Hf5]], Hr6 as [_ [_ Hf6]]. rewrite Hf6, Hf5 by lia. done.
      + apply (all_in_rearranged a mid data5); [lia|done|].
        apply (all_in_frame a mid (mid + 1) b data4); [apply Hr5|lia|done].
      + apply (all_in_frame (mid + 1) b a mid data5); [apply Hr6|lia|].
        apply (all_in_rearranged (mid + 1) b data4); [lia|done|done].
      + apply (sorted_range_frame le (mid + 1) b a mid data5); [apply Hr6|lia|done]. }
  apply (sorted_range_join less good a b mid data6 p); try done.
  intros k x Hk Hx. apply (lt_le less good); try solve_good.
  by apply (Hlt6 k).
Qed.

(** The range after [partitionEqual_func], its right part sorted. *)
Lemma sorted_after_partitionEqual a b mid data3 data4 data5 lowest p :
  1 <= a -> a < mid <= b -> b <= length data3 -> Forall good data3 ->
  data3 !! (a - 1) = Some lowest -> less lowest p = false -> good p ->
  lower_bound less a b data3 ->
  rearranged a b data3 data4 ->
  data4 !! a = Some p ->
  all_in (a + 1) mid data4 (fun x => less p x = false) ->
  all_in mid b data4 (fun x => less p x = true) ->
  rearranged mid b data4 data5 -> sorted_range le mid b data5 ->
  sorted_range le a b data5.
Proof.
  intros Ha Hmid Hlen Hg Hlow Hlp Hgp Hlb Hr4 Hpa Heq Hgt Hr5 Hs5.
  assert (length data4 = length data3) as Hl4 by (by eapply rearranged_length).
  assert (rearranged a b data3 data5) as Hr.
  { eapply rearranged_trans; [exact Hr4|].
    eapply rearranged_weaken; [| |exact Hr5]; lia. }
  assert (Forall good data5) as Hg5 by (by apply (good_rearranged good _ _ _ _ Hr)).
  assert (good lowest) as Hgl by solve_good.
  assert (all_in a b data5 (fun x => le p x)) as Hall.
  { apply (all_in_rearranged a b data3); [lia|done|].
    intros k x Hk Hx. unfold not_after.
    apply (less_negtrans x lowest p); try done; try solve_good.
    by apply (Hlb lowest Ha Hlow k). }
  assert (all_in a mid data5 (fun x => le x p)) as Heq5.
  { apply (all_in_frame a mid mid b data4); [apply Hr5|lia|].
    intros k x Hk Hx. destruct (decide (k = a)) as [->|].
    - replace x with p by congruence. by apply (le_refl less good).
    - apply (Heq k); [lia|done]. }
  assert (all_in mid b data5 (fun x => less p x = true)) as Hgt5.
  { apply (all_in_rearranged mid b data4); [lia|done|done]. }
  intros i1 i2 x y Hi1 Hi12 Hi2 Hx Hy.
  destruct (decide (mid <= i1)) as [Hm1|Hm1]; [by apply (Hs5 i1 i2)|].
  assert (le x p) as Hxp by (apply (Heq5 i1); [lia|done]).
  destruct (decide (mid <= i2)) as [Hm2|Hm2].
  - apply (lt_le less good); try solve_good.
    apply (le_lt_trans less good x p y); try solve_good; try done.
    apply (Hgt5 i2); [lia|done].
  - apply (le_trans less good x p y); try solve_good; try done.
    apply (Hall i2); [lia|done].
Qed.

Lemma lower_bound_after_partitionEqual a b mid data4 p :
  a < mid <= b -> b <= length data4 -> Forall good data4 ->
  data4 !! a = Some p ->
  all_in (a + 1) mid data4 (fun x => less p x = false) ->
  all_in mid b data4 (fun x => less p x = true) ->
  lower_bound less mid b data4.
Proof.
  intros Hmid Hlen Hg Hpa Heq Hgt q _ Hq k x Hk Hx.
  assert (less p q = false) as Hpq.
  { destruct (decide (mid - 1 = a)) as [Hma|Hma].
    - rewrite Hma in Hq. replace q with p by congruence.
      apply (less_irrefl less good). solve_good.
    - apply (Heq (mid - 1)); [lia|done]. }
  unfold not_after. destruct (less x q) eqn:Hxq; [|done].
  assert (less p q = true); [|congruence].
  apply (lt_le_trans less good p x q); try solve_good.
  - by apply (Hgt k).
  - apply (lt_le less good); try solve_good. done.
Qed.

(** [pdqsort_func] sorts the range it is given. *)
Lemma pdqsort_loop_spec : forall turns data a b limit wasBalanced wasPartitioned,
  a <= b <= length data -> b - a < turns -> Forall good data ->
  lower_bound less a b data ->
  rearranged a b data (pdqsort_loop less turns data a b limit wasBalanced wasPartitioned)
  /\ sorted_range le a b
       (pdqsort_loop less turns data a b limit wasBalanced wasPartitioned).
Proof.
  induction turns as [|turns IH];
    intros data a b limit wasBalanced wasPartitioned Hab Hturns Hg Hlb; [lia|].
  cbn [pdqsort_loop]. cbn zeta.
  destruct (b - a <=? maxInsertion) eqn:Hins;
    [by apply (insertionSort_func_range less good)|].
  apply Nat.leb_gt in Hins. unfold maxInsertion in Hins.
  destruct (limit =? 0); [by apply (heapSort_func_range less good)|].
  set (st := if negb wasBalanced then _ else _).
  assert (rearranged a b data st.1) as Hr1.
  { subst st. destruct (negb wasBalanced); cbn [fst];
      [apply breakPatterns_func_rearranged; lia|apply rearranged_refl]. }
  destruct st as [data1 limit1]; cbn [fst] in Hr1.
  pose proof (choosePivot_func_in less data1 a b ltac:(lia)) as Hpivot.
  destruct (choosePivot_func less data1 a b) as [pivot hint]; cbn [fst] in Hpivot.
  set (st := match hint with decreasingHint => _ | _ => _ end).
  assert (rearranged a b data1 st.1.1 /\ a <= st.1.2 < b) as [Hr2 Hpivot2].
  { subst st. destruct hint; cbn [fst snd]; try (split; [apply rearranged_refl|done]).
    split; [apply reverseRange_func_rearranged|lia]. }
  destruct st as [[data2 pivot2] hint2]; cbn [fst snd] in Hr2, Hpivot2.
  assert (rearranged a b data data2) as Hr12 by (by eapply rearranged_trans).
  assert (length data2 = length data) as Hl2 by (by eapply rearranged_length).
  assert (Forall good data2) as Hg2 by (by apply (good_rearranged good _ _ _ _ Hr12)).
  assert (lower_bound less a b data2) as Hlb2.
  { by apply (lower_bound_rearranged less a b data data2). }
  set (st := match hint2 with increasingHint => _ | _ => _ end).
  assert (rearranged a b data2 st.1 /\ (st.2 = true -> sorted_range le a b st.1))
    as [Hr3 Hs3].
  { subst st. destruct hint2; cbn [fst snd]; try (split; [apply rearranged_refl|done]).
    destruct (wasBalanced && wasPartitioned); [|split; [apply rearranged_refl|done]].
    apply (partialInsertionSort_func_spec less good); try done; lia. }
  destruct st as [data3 sorted]; cbn [fst snd] in Hr3, Hs3.
  assert (rearranged a b data data3) as Hr13 by (by eapply rearranged_trans).
  destruct sorted; [split; [done|by apply Hs3]|]. clear Hs3.
  assert (length data3 = length data) as Hl3 by (by eapply rearranged_length).
  assert (Forall good data3) as Hg3 by (by apply (good_rearranged good _ _ _ _ Hr13)).
  assert (lower_bound less a b data3) as Hlb3.
  { by apply (lower_bound_rearranged less a b data data3). }
  destruct (lookup_lt_is_Some_2 data3 pivot2) as [p Hp]; [lia|].
  destruct ((0 <? a) && negb (Less less data3 (a - 1) pivot2)) eqn:Hequal.
  - (* many elements equal to the pivot *)
    apply andb_true_iff in Hequal as [Ha Hlp]. apply Nat.ltb_lt in Ha.
    destruct (lookup_lt_is_Some_2 data3 (a - 1)) as [lowest Hlow]; [lia|].
    rewrite (Less_lookup less data3 _ _ lowest p) in Hlp by done.
    apply negb_true_iff in Hlp.
    pose proof (partitionEqual_func_spec less data3 a b pivot2 p Hpivot2 ltac:(lia) Hp)
      as (Hr4 & Hmid & Hpa & Heq & Hgt).
    destruct (partitionEqual_func less data3 a b pivot2) as [data4 mid];
      cbn [fst snd] in Hr4, Hmid, Hpa, Heq, Hgt.
    assert (length data4 = length data3) as Hl4 by (by eapply rearranged_length).
    assert (Forall good data4) as Hg4 by (by apply (good_rearranged good _ _ _ _ Hr4)).
    destruct (IH data4 mid b limit1 wasBalanced wasPartitioned) as [Hr5 Hs5];
      try done; try lia.
    { apply (lower_bound_after_partitionEqual a b mid data4 p); try done; lia. }
    split.
    + eapply rearranged_trans; [exact Hr13|]. eapply rearranged_trans; [exact Hr4|].
      eapply rearranged_weaken; [| |exact Hr5]; lia.
    + apply (sorted_after_partitionEqual a b mid data3 data4 _ lowest p);
        try done; try lia. solve_good.
  - clear Hequal.
    pose proof (partition_func_spec less data3 a b pivot2 p Hpivot2 ltac:(lia) Hp)
      as (Hr4 & Hmid & Hpm & Hlt & Hge).
    destruct (partition_func less data3 a b pivot2) as [[data4 mid] alreadyPartitioned];
      cbn [fst snd] in Hr4, Hmid, Hpm, Hlt, Hge.
    assert (length data4 = length data3) as Hl4 by (by eapply rearranged_length).
    assert (Forall good data4) as Hg4 by (by apply (good_rearranged good _ _ _ _ Hr4)).
    assert (lower_bound less a mid data4) as Hlbl.
    { apply (lower_bound_weaken less a b); [lia|].
      apply (lower_bound_rearranged less a b data3 data4); [lia|done|done]. }
    assert (lower_bound less (mid + 1) b data4) as Hlbr.
    { intros q _. replace (mid + 1 - 1) with mid by lia. rewrite Hpm. intros [= <-].
      intros k x Hk Hx. by apply (Hge k). }
    assert (rearranged a b data data4) as Hr14 by (by eapply rearranged_trans).
    destruct (mid - a <? b - mid).
    + destruct (IH data4 a mid limit1 true true) as [Hr5 Hs5]; try done; try lia.
      set (data5 := pdqsort_loop less turns data4 a mid limit1 true true) in *.
      assert (length data5 = length data4) as Hl5 by (by eapply rearranged_length).
      match goal with
      | |- context [pdqsort_loop less turns data5 (mid + 1) b limit1 ?wb ?wp] =>
          destruct (IH data5 (mid + 1) b limit1 wb wp) as [Hr6 Hs6]
      end; try lia.
      { by apply (good_rearranged good _ _ _ _ Hr5). }
      { apply (lower_bound_frame (mid + 1) b a mid data4); [apply Hr5|lia|done]. }
      destruct (sorted_after_partition a b mid a mid (mid + 1) b data4 data5 _ p
                  (or_introl (conj eq_refl (conj eq_refl (conj eq_refl eq_refl))))
                  Hmid ltac:(lia) Hg4 Hpm Hlt Hge Hr5 Hs5 Hr6 Hs6) as [Hr Hs].
      split; [by eapply rearranged_trans|done].
    + destruct (IH data4 (mid + 1) b limit1 true true) as [Hr5 Hs5]; try done; try lia.
      set (data5 := pdqsort_loop less turns data4 (mid + 1) b limit1 true true) in *.
      assert (length data5 = length data4) as Hl5 by (by eapply rearranged_length).
      match goal with
      | |- context [pdqsort_loop less turns data5 a mid limit1 ?wb ?wp] =>
          destruct (IH data5 a mid limit1 wb wp) as [Hr6 Hs6]
      end; try lia.
      { by apply (good_rearranged good _ _ _ _ Hr5). }
      { apply (lower_bound_frame a mid (mid + 1) b data4); [apply Hr5|lia|done]. }
      destruct (sorted_after_partition a b mid (mid + 1) b a mid data4 data5 _ p
                  (or_intror (conj eq_refl (conj eq_refl (conj eq_refl eq_refl))))
                  Hmid ltac:(lia) Hg4 Hpm Hlt Hge Hr5 Hs5 Hr6 Hs6) as [Hr Hs].
      split; [by eapply rearranged_trans|done].
Qed.

(** [sort.Slice] sorts, for a [less] that is a strict weak order on the
    elements of the slice. *)
Lemma Slice_sorted (x : list A) :
  Forall good x -> StronglySorted le (Slice less x).
Proof.
  intros Hg. unfold Slice, pdqsort_func.
  destruct (pdqsort_loop_spec (length x - 0 + 1) x 0 (length x) (bits_Len (length x))
              true true) as [Hr Hs]; try done; try lia.
  { intros p Hp. lia. }
  apply sorted_range_StronglySorted.
  by rewrite (rearranged_length _ _ _ _ Hr).
Qed.
End pdqsort.
End pdqsort_facts.

(** ** Eligibility *)

(** C3: [GetAvailableProviders] returns exactly the registered adapters, in
    registration order, that support at least one of the two currencies and
    at least one of the two countries. *)
Theorem GetAvailableProviders_exactly_eligible
    (rh : RemittanceHub) (fromCountry toCountry : string) (fromCurrency toCurrency : Currency) :
  GetAvailableProviders rh fromCountry toCountry fromCurrency toCurrency
    = filter (eligible fromCountry toCountry fromCurrency toCurrency) (providers rh)
  /\ forall provider,
       provider ∈ GetAvailableProviders rh fromCountry toCountry fromCurrency toCurrency
       <-> provider ∈ providers rh
           /\ (exists currency, currency ∈ GetSupportedCurrencies provider
                                /\ (currency = fromCurrency \/ currency = toCurrency))
           /\ (exists country, country ∈ GetSupportedCountries provider
                               /\ (country = fromCountry \/ country = toCountry)).
Proof.
  split; [apply GetAvailableProviders_filter|].
  intros provider. rewrite GetAvailableProviders_filter, list_elem_of_filter.
  unfold eligible. rewrite !Exists_exists. tauto.
Qed.

(** ** Quote aggregation *)

(** C2: when one eligible adapter fails with an error and the others
    succeed, [GetQuotes] returns without error the quotes of the others, each
    once and none for the failing adapter, and the failure is only logged. *)
Theorem GetQuotes_partial_failure
    (rh : RemittanceHub) (req : TransactionRequest.t)
    (before after : list RemittanceProvider) (failing : RemittanceProvider) (err : error) :
  corridor_providers rh req = (before ++ failing :: after)%list ->
  GetQuote failing req = Done (Err err) ->
  Forall (fun provider => exists quote, GetQuote provider req = Done (Ok quote))
         (before ++ after) ->
  exists quotes,
    result (GetQuotes rh req) = Done (Ok quotes)
    /\ quotes ≡ₚ successful_quotes req (before ++ after)
    /\ length quotes = length (before ++ after)
    /\ log_line ("Error getting quote from " ++ GetName failing ++ ": " ++ Error err)
         ∈ trace (GetQuotes rh req).
Proof.
  intros Hcorridor Hfail Hothers.
  apply Forall_app in Hothers as [Hbefore Hafter].
  assert (first_panic req (corridor_providers rh req) = None) as Hnone.
  { apply first_panic_None. rewrite Hcorridor.
    apply Forall_app. split; [|constructor; [eauto|]].
    - eapply Forall_impl; [exact Hbefore|]. intros p [q Hq]. eauto.
    - eapply Forall_impl; [exact Hafter|]. intros p [q Hq]. eauto. }
  assert (successful_quotes req (corridor_providers rh req)
          = successful_quotes req (before ++ after)) as Hquotes.
  { rewrite Hcorridor, !successful_quotes_app. f_equal.
    simpl. unfold succeeded at 1. by rewrite Hfail. }
  eexists. rewrite GetQuotes_result, Hnone, Hquotes.
  split; [done|]. split; [apply sort_facts.Slice_Permutation|]. split.
  - rewrite sort_facts.Slice_Permutation. apply successful_quotes_all.
    by apply Forall_app.
  - unfold GetQuotes. fold (corridor_providers rh req).
    rewrite trace_bind. apply elem_of_app. left.
    rewrite Hcorridor. apply GetQuotes_range_logs; [|done].
    eapply Forall_impl; [exact Hbefore|]. intros p [q Hq]. eauto.
Qed.

(** C6: when no registered adapter is eligible, or every eligible adapter
    fails with an error, [GetQuotes] returns the empty list and no error. *)
Theorem GetQuotes_no_quotes (rh : RemittanceHub) (req : TransactionRequest.t) :
  Forall (fun provider => exists err, GetQuote provider req = Done (Err err))
         (corridor_providers rh req) ->
  result (GetQuotes rh req) = Done (Ok []).
Proof.
  intros Hall. rewrite GetQuotes_result.
  rewrite (proj2 (first_panic_None req _)).
  - by rewrite successful_quotes_none.
  - eapply Forall_impl; [exact Hall|]. intros p [e He]. eauto.
Qed.

(** C7: the adapters that [GetQuotes] asks for a quote are those that
    [GetAvailableProviders] returns for the home country US on the source
    side and the country code of the recipient's address on the target
    side, in that order (all of them unless one panics); the sender named in
    the request plays no part. *)
Theorem GetQuotes_home_country (rh : RemittanceHub) (req : TransactionRequest.t) :
  let available :=
    GetAvailableProviders rh "US"
      (Address.CountryCode (Recipient.Address (TransactionRequest.Recipient req)))
      (TransactionRequest.FromCurrency req) (TransactionRequest.ToCurrency req) in
  quoted (trace (GetQuotes rh req)) = attempted req available
  /\ quoted (trace (GetQuotes rh req)) `prefix_of` available
  /\ (first_panic req available = None -> quoted (trace (GetQuotes rh req)) = available).
Proof.
  intros available. pose proof (GetQuotes_quoted rh req) as Hq.
  fold available in Hq. unfold corridor_providers in Hq. fold available in Hq.
  rewrite Hq. split; [done|]. split; [apply attempted_prefix|apply attempted_all].
Qed.

(** C10: the error result of [GetQuotes] is nil whatever the adapters do, and
    [GetBestQuote] returns an error exactly when the aggregated list is
    empty. *)
Theorem GetQuotes_error_always_nil (rh : RemittanceHub) (req : TransactionRequest.t) :
  (forall err, result (GetQuotes rh req) <> Done (Err err))
  /\ ((exists err, result (GetBestQuote rh req) = Done (Err err))
      <-> result (GetQuotes rh req) = Done (Ok [])).
Proof.
  rewrite GetBestQuote_result, GetQuotes_result.
  destruct (first_panic req _) as [msg|].
  - split; [done|]. split; [intros [err ?]; done|done].
  - split; [done|].
    destruct (sort.Slice _ _) as [|q quotes]; split; try done; eauto.
    intros [err ?]. done.
Qed.

(** C4: [GetBestQuote] returns the first element of the list that
    [GetQuotes] returns; on the empty list it returns the error
    "no quotes available", which is none of the errors an adapter of the
    repository reports, and it never hands on an error of an adapter. *)
Theorem GetBestQuote_first (rh : RemittanceHub) (req : TransactionRequest.t) :
  result (GetBestQuote rh req)
  = match result (GetQuotes rh req) with
    | Done (Ok (best :: _)) => Done (Ok best)
    | Done (Ok []) => Done (Err (errorString "no quotes available"))
    | Done (Err err) => Done (Err err)
    | Panicked msg => Panicked msg
    end
  /\ trace (GetBestQuote rh req) = trace (GetQuotes rh req)
  /\ (forall err, result (GetBestQuote rh req) = Done (Err err) ->
        err = errorString "no quotes available")
  /\ (forall wd w r wr err,
        GetQuote (Wise wd w) req = Done (Err err)
        \/ GetQuote (Remitly wd r) req = Done (Err err)
        \/ GetQuote (WorldRemit wd wr) req = Done (Err err) ->
        err <> errorString "no quotes available").
Proof.
  split; [apply GetBestQuote_result|]. split; [apply GetBestQuote_trace|]. split.
  - intros err. rewrite GetBestQuote_result, GetQuotes_result.
    destruct (first_panic req _); [done|].
    destruct (sort.Slice _ _); [|done]. by intros [= <-].
  - intros wd w r wr err [H|[H|H]]; [|done|done].
    by apply Wise_GetQuote_errors in H as [[s ->]|[[s ->]|[[s ->]|[[s ->]|[-> | ->]]]]].
Qed.

(** ** Routing a transfer *)

(** C5: for a name that no registered adapter bears, [SendMoneyWithProvider]
    reports "provider ... not found" and calls no adapter; otherwise it makes
    one call, [SendMoney] of the first adapter of that name with the request
    it was given, and returns what this call returns, error or panic
    included, without turning to another adapter. *)
Theorem SendMoneyWithProvider_routing
    (rh : RemittanceHub) (providerName : string) (req : TransactionRequest.t) :
  SendMoneyWithProvider rh providerName req
  = match lookup_provider providerName (providers rh) with
    | None => ([], Done (Err (wrapError ("provider " ++ providerName ++ " not found"))))
    | Some provider => ([call_SendMoney provider req], SendMoney provider req)
    end
  /\ (lookup_provider providerName (providers rh) = None
      <-> forall provider, provider ∈ providers rh -> GetName provider <> providerName)
  /\ (forall provider, lookup_provider providerName (providers rh) = Some provider ->
        provider ∈ providers rh /\ GetName provider = providerName).
Proof.
  unfold SendMoneyWithProvider.
  induction (providers rh) as [|provider rest (IH1 & IH2 & IH3)]; simpl.
  - split; [done|]. split; [|done]. split; [|done]. intros _ p Hp. by apply elem_of_nil in Hp.
  - destruct (String.eqb_spec (GetName provider) providerName) as [Heq|Hne].
    + rewrite decide_True by done. split; [done|]. split.
      * split; [done|]. intros H. destruct (H provider); [left|done].
      * intros p [= <-]. split; [left|done].
    + rewrite decide_False by done. split; [done|]. split.
      * rewrite IH2. split.
        -- intros H p [->|Hp]%elem_of_cons; auto.
        -- intros H p Hp. apply H. by right.
      * intros p Hp. destruct (IH3 p Hp). split; [by right|done].
Qed.

(** ** The adapters *)

(** C9, as the code has it: a quote returned by [GetQuote] of any of the
    three adapters has the amount of the request as [Amount]; its
    [TotalCost] is [Amount + Fee] when it comes from Wise or from WorldRemit,
    and when the program does not fuse [x*y + z]; the [TotalCost] of a quote
    of Remitly, whose fee is the product [Amount * 0.02], is
    [Amount * 0.02 + Amount] rounded once where the program fuses the two
    operations, and [Amount + Fee] where it does not. *)
Theorem GetQuote_TotalCost
    (wd : World) (w : WiseProvider.t) (r : RemitlyProvider.t) (wr : WorldRemitProvider.t)
    (req : TransactionRequest.t) (quote : RemittanceQuote.t) :
  GetQuote (Wise wd w) req = Done (Ok quote)
  \/ GetQuote (Remitly wd r) req = Done (Ok quote)
  \/ GetQuote (WorldRemit wd wr) req = Done (Ok quote) ->
  RemittanceQuote.Amount quote = TransactionRequest.Amount req
  /\ (GetQuote (Wise wd w) req = Done (Ok quote)
      \/ GetQuote (WorldRemit wd wr) req = Done (Ok quote)
      \/ fused wd = false ->
      RemittanceQuote.TotalCost quote
      = (TransactionRequest.Amount req + RemittanceQuote.Fee quote)%float)
  /\ (GetQuote (Remitly wd r) req = Done (Ok quote) ->
      RemittanceQuote.Fee quote = (TransactionRequest.Amount req * 0.02)%float
      /\ RemittanceQuote.TotalCost quote
         = if fused wd
           then fma (TransactionRequest.Amount req) 0.02%float (TransactionRequest.Amount req)
           else (TransactionRequest.Amount req + RemittanceQuote.Fee quote)%float).
Proof.
  assert (forall q, GetQuote (Wise wd w) req = Done (Ok q) ->
            RemittanceQuote.Amount q = TransactionRequest.Amount req
            /\ RemittanceQuote.TotalCost q
               = (TransactionRequest.Amount req + RemittanceQuote.Fee q)%float) as Hwise.
  { intros q H. simpl in H. unfold Wise_GetQuote in H.
    destruct (Wise_makeRequest _ _ _ _ _) as [resp|?]; [|done].
    destruct (Decode_map resp) as [quoteResp|?]; [|done].
    destruct (assert_float64 (member "fee" quoteResp)) as [fee|?]; [|done].
    destruct (assert_float64 (member "rate" quoteResp)) as [rate|?]; [|done].
    destruct (assert_float64 (member "targetAmount" quoteResp)) as [target|?]; [|done].
    simpl in H. by injection H as <-. }
  assert (forall q, GetQuote (WorldRemit wd wr) req = Done (Ok q) ->
            RemittanceQuote.Amount q = TransactionRequest.Amount req
            /\ RemittanceQuote.TotalCost q
               = (TransactionRequest.Amount req + RemittanceQuote.Fee q)%float) as Hworldremit.
  { intros q H. simpl in H. unfold WorldRemit_GetQuote in H. by injection H as <-. }
  assert (forall q, GetQuote (Remitly wd r) req = Done (Ok q) ->
            RemittanceQuote.Amount q = TransactionRequest.Amount req
            /\ RemittanceQuote.Fee q = (TransactionRequest.Amount req * 0.02)%float
            /\ RemittanceQuote.TotalCost q
               = if fused wd
                 then fma (TransactionRequest.Amount req) 0.02%float
                          (TransactionRequest.Amount req)
                 else (TransactionRequest.Amount req + RemittanceQuote.Fee q)%float)
    as Hremitly.
  { intros q H. simpl in H. unfold Remitly_GetQuote in H. injection H as <-. simpl.
    by destruct (fused wd). }
  intros Horigin. split; [|split].
  - destruct Horigin as [H|[H|H]];
      [apply (Hwise _ H)|apply (Hremitly _ H)|apply (Hworldremit _ H)].
  - intros [H|[H|Hfused]]; [apply (Hwise _ H)|apply (Hworldremit _ H)|].
    destruct Horigin as [H|[H|H]]; [apply (Hwise _ H)| |apply (Hworldremit _ H)].
    destruct (Hremitly _ H) as (_ & _ & Hcost). by rewrite Hfused in Hcost.
  - intros H. destruct (Hremitly _ H) as (_ & Hfee & Hcost). done.
Qed.

(** C8, at the failing input: Wise answers with a JSON object that has no
    "fee" and no "id" member (the body of an error reply); [GetQuote] and
    [SendMoney] of the Wise adapter panic on their unchecked type assertions
    instead of returning an error. *)
Theorem Wise_panics_on_malformed_response (w : WiseProvider.t) :
  GetQuote (Wise (world_answering wise_refusal) w) main_request
    = Panicked "interface conversion: interface {} is nil, not float64"
  /\ SendMoney (Wise (world_answering wise_refusal) w) main_request
    = Panicked "interface conversion: interface {} is nil, not string".
Proof. split; reflexivity. Qed.

(** ** The order of the quotes *)

(** C1, as the code has it: [GetQuotes] returns the quotes it collected,
    each once, sorted non-decreasingly by [TotalCost] if no [TotalCost] is
    NaN, however many they are; in what order it returns quotes of one
    [TotalCost] is not settled. *)
Theorem GetQuotes_order
    (rh : RemittanceHub) (req : TransactionRequest.t) (quotes : list RemittanceQuote.t) :
  result (GetQuotes rh req) = Done (Ok quotes) ->
  quotes ≡ₚ successful_quotes req (corridor_providers rh req)
  /\ (no_NaN quotes -> sorted_by_TotalCost quotes).
Proof.
  rewrite GetQuotes_result.
  destruct (first_panic req _); [done|]. intros [= <-].
  split; [apply sort_facts.Slice_Permutation|].
  intros Hnum. unfold no_NaN in Hnum.
  apply (StronglySorted_weaken (not_after byTotalCost) cost_le has_cost);
    [apply not_after_cost_le|done|].
  rewrite sort_facts.Slice_Permutation in Hnum.
  by apply (pdqsort_facts.Slice_sorted byTotalCost has_cost).
Qed.

(** ** The statements at concrete inputs *)

(** C1 fails as stated, twice: of thirteen quotes, two of one [TotalCost]
    come out against the registration order; and three quotes of which one
    has no number as [TotalCost] are returned unsorted. *)
Lemma GetQuotes_order_fails :
  (exists quotes,
     result (GetQuotes (hub_of thirteen_providers) main_request) = Done (Ok quotes)
     /\ no_NaN quotes
     /\ map RemittanceQuote.Provider (filter (same_cost 1002%float) quotes) = ["P02"; "P01"]
     /\ ~ ties_in_order
          (successful_quotes main_request
             (corridor_providers (hub_of thirteen_providers) main_request))
          quotes)
  /\ (exists quotes,
        result (GetQuotes (hub_of providers_with_NaN) main_request) = Done (Ok quotes)
        /\ map RemittanceQuote.Provider quotes = ["A"; "B"; "C"]
        /\ ~ sorted_by_TotalCost quotes).
Proof.
  split.
  - eexists. split; [vm_compute; reflexivity|]. split; [|split].
    + repeat constructor.
    + reflexivity.
    + intros Hties. specialize (Hties 1002%float).
      apply (f_equal (map RemittanceQuote.Provider)) in Hties.
      vm_compute in Hties. discriminate.
  - eexists. split; [vm_compute; reflexivity|]. split; [reflexivity|].
    intros Hsorted. apply StronglySorted_inv in Hsorted as [_ Hall].
    apply Forall_cons in Hall as [_ Hall]. apply Forall_cons in Hall as [Hle _].
    vm_compute in Hle. discriminate.
Qed.

(** C1: [GetQuotes_order] on the request of [main], Wise answering, and on
    the thirteen providers above. *)
Lemma GetQuotes_order_witness :
  (exists quotes,
     result (GetQuotes (hub (NewWalletRemittanceService (world_answering wise_answer)))
                       main_request) = Done (Ok quotes)
     /\ map RemittanceQuote.Provider quotes = ["WorldRemit"; "Wise"; "Remitly"]
     /\ sorted_by_TotalCost quotes)
  /\ (exists quotes,
        result (GetQuotes (hub_of thirteen_providers) main_request) = Done (Ok quotes)
        /\ length quotes = 13%nat
        /\ sorted_by_TotalCost quotes).
Proof.
  split.
  - eexists. split; [vm_compute; reflexivity|]. split; [reflexivity|].
    match goal with |- sorted_by_TotalCost ?q =>
      destruct (GetQuotes_order
                  (hub (NewWalletRemittanceService (world_answering wise_answer)))
                  main_request q) as (_ & Hsorted)
    end.
    + vm_compute. reflexivity.
    + apply Hsorted. repeat constructor.
  - eexists. split; [vm_compute; reflexivity|]. split; [reflexivity|].
    match goal with |- sorted_by_TotalCost ?q =>
      destruct (GetQuotes_order (hub_of thirteen_providers) main_request q)
        as (_ & Hsorted)
    end.
    + vm_compute. reflexivity.
    + apply Hsorted. repeat constructor.
Defined.

(** C2: [GetQuotes_partial_failure] on the request of [main], Wise being
    out of reach. *)
Lemma GetQuotes_partial_failure_witness :
  exists quotes,
    result (GetQuotes (hub (NewWalletRemittanceService world_offline)) main_request)
      = Done (Ok quotes)
    /\ map RemittanceQuote.Provider quotes = ["WorldRemit"; "Remitly"].
Proof.
  destruct (GetQuotes_partial_failure
              (hub (NewWalletRemittanceService world_offline)) main_request
              []
              [Remitly world_offline (NewRemitlyProvider "remitly-api-key");
               WorldRemit world_offline
                 (NewWorldRemitProvider "worldremit-api-key" "worldremit-secret")]
              (Wise world_offline (NewWiseProvider "wise-api-key" "wise-profile-id"))
              (url_Error "Post https://api.transferwise.com/v1/quotes: dial tcp: i/o timeout"))
    as (quotes & Hresult & _).
  - reflexivity.
  - reflexivity.
  - repeat constructor; eexists; reflexivity.
  - exists quotes. split; [exact Hresult|].
    vm_compute in Hresult. injection Hresult as <-. reflexivity.
Defined.

(** C6: [GetQuotes_no_quotes] on a hub whose only adapter fails, and on an
    empty hub. *)
Lemma GetQuotes_no_quotes_witness :
  result (GetQuotes (wise_only world_offline) main_request) = Done (Ok [])
  /\ result (GetQuotes NewRemittanceHub main_request) = Done (Ok []).
Proof.
  split.
  - apply (GetQuotes_no_quotes (wise_only world_offline) main_request).
    repeat constructor. eexists. reflexivity.
  - apply (GetQuotes_no_quotes NewRemittanceHub main_request). constructor.
Defined.

(** C9 fails as stated where the program fuses [x*y + z]: the quote of
    Remitly for the amount 7.46 has the total cost 7.6092, and its amount
    plus its fee is 7.6091999999999995. *)
Lemma GetQuote_TotalCost_fails :
  exists quote,
    GetQuote (Remitly world_fusing (NewRemitlyProvider "remitly-api-key"))
             (with_transfer main_request 7.46%float USD PHP) = Done (Ok quote)
    /\ RemittanceQuote.Amount quote = 7.46%float
    /\ RemittanceQuote.TotalCost quote = 7.6092%float
    /\ (RemittanceQuote.Amount quote + RemittanceQuote.Fee quote)%float
       = 7.6091999999999995%float
    /\ RemittanceQuote.TotalCost quote
       <> (RemittanceQuote.Amount quote + RemittanceQuote.Fee quote)%float.
Proof.
  eexists. split; [reflexivity|]. split; [reflexivity|].
  split; [vm_compute; reflexivity|]. split; [vm_compute; reflexivity|].
  intros H. apply (f_equal (fun x => PrimFloat.eqb x 7.6092%float)) in H.
  vm_compute in H. discriminate.
Qed.

(** C9: [GetQuote_TotalCost] on the quote of Remitly for the request of
    [main], in a program that does not fuse, and for the amount 7.46 in one
    that does. *)
Lemma GetQuote_TotalCost_witness :
  (exists quote,
     GetQuote (Remitly (world_answering wise_answer) (NewRemitlyProvider "remitly-api-key"))
              main_request = Done (Ok quote)
     /\ RemittanceQuote.Fee quote = 20%float
     /\ RemittanceQuote.TotalCost quote = 1020%float
     /\ RemittanceQuote.TotalCost quote
        = (TransactionRequest.Amount main_request + RemittanceQuote.Fee quote)%float)
  /\ (exists quote,
        GetQuote (Remitly world_fusing (NewRemitlyProvider "remitly-api-key"))
                 (with_transfer main_request 7.46%float USD PHP) = Done (Ok quote)
        /\ RemittanceQuote.TotalCost quote = fma 7.46%float 0.02%float 7.46%float).
Proof.
  split.
  - eexists. split; [reflexivity|]. split; [reflexivity|]. split; [reflexivity|].
    refine (proj1 (proj2 (GetQuote_TotalCost
                            (world_answering wise_answer)
                            (NewWiseProvider "wise-api-key" "wise-profile-id")
                            (NewRemitlyProvider "remitly-api-key")
                            (NewWorldRemitProvider "worldremit-api-key" "worldremit-secret")
                            main_request _ (or_intror (or_introl eq_refl)))) _).
    right. right. reflexivity.
  - eexists. split; [reflexivity|].
    refine (proj2 (proj2 (proj2 (GetQuote_TotalCost
                                   world_fusing
                                   (NewWiseProvider "wise-api-key" "wise-profile-id")
                                   (NewRemitlyProvider "remitly-api-key")
                                   (NewWorldRemitProvider "worldremit-api-key"
                                      "worldremit-secret")
                                   (with_transfer main_request 7.46%float USD PHP) _
                                   (or_intror (or_introl eq_refl)))) eq_refl)).
Defined.

(** * Further properties of the code *)

(** ** The hub *)

Lemma logged_app t1 t2 : logged (t1 ++ t2) = logged t1 ++ logged t2.
Proof. apply omap_app. Qed.

Lemma sent_app t1 t2 : sent (t1 ++ t2) = sent t1 ++ sent t2.
Proof. apply omap_app. Qed.

Lemma GetQuotes_range_sent req available : forall quotes,
  sent (trace (GetQuotes_range available req quotes)) = [].
Proof.
  induction available as [|provider rest IH]; intros quotes; simpl; [done|].
  rewrite trace_bind, sent_app. unfold invoke_GetQuote at 1 2. simpl.
  destruct (GetQuote provider req) as [[quote|err]|msg]; simpl; [apply IH| |done].
  rewrite trace_bind, sent_app. simpl. apply IH.
Qed.

Lemma GetQuotes_range_logged req available : forall quotes,
  logged (trace (GetQuotes_range available req quotes))
  = omap (failure_line req) (attempted req available).
Proof.
  induction available as [|provider rest IH]; intros quotes; simpl; [done|].
  rewrite trace_bind, logged_app. unfold invoke_GetQuote at 1 2. simpl.
  unfold failure_line at 1.
  destruct (GetQuote provider req) as [[quote|err]|msg]; simpl; [apply IH| |done].
  rewrite trace_bind, logged_app. simpl. f_equal. apply IH.
Qed.

Lemma GetQuotes_trace_range rh req :
  trace (GetQuotes rh req) = trace (GetQuotes_range (corridor_providers rh req) req []).
Proof.
  unfold GetQuotes. fold (corridor_providers rh req). rewrite trace_bind.
  destruct (result _); simpl; by rewrite app_nil_r.
Qed.

(** Every provider is accounted for by a quote or by a line of the log. *)
Lemma quotes_and_failures req l :
  first_panic req l = None ->
  length (successful_quotes req l) + length (omap (failure_line req) l) = length l.
Proof.
  unfold successful_quotes.
  induction l as [|provider rest IH]; simpl; [done|].
  unfold succeeded at 1, failure_line at 1.
  destruct (GetQuote provider req) as [[quote|err]|msg]; simpl; [| |done];
    intros H; rewrite ?Nat.add_succ_r; f_equal; exact (IH H).
Qed.

Lemma elem_of_successful_quotes req l quote :
  quote ∈ successful_quotes req l
  <-> exists provider, provider ∈ l /\ GetQuote provider req = Done (Ok quote).
Proof.
  unfold successful_quotes. rewrite list_elem_of_omap. unfold succeeded.
  split; intros (provider & Hin & H); exists provider; (split; [done|]).
  - destruct (GetQuote provider req) as [[q|]|]; congruence.
  - by rewrite H.
Qed.

Lemma corridor_providers_registered rh req provider :
  provider ∈ corridor_providers rh req -> provider ∈ providers rh.
Proof.
  unfold corridor_providers. rewrite GetAvailableProviders_filter.
  by intros [_ ?]%list_elem_of_filter.
Qed.

Lemma lookup_provider_Some name l provider :
  lookup_provider name l = Some provider -> provider ∈ l /\ GetName provider = name.
Proof.
  induction l as [|p rest IH]; simpl; [done|].
  destruct (decide (GetName p = name)) as [Heq|Hne].
  - intros [= <-]. split; [left|done].
  - intros H. destruct (IH H). split; [by right|done].
Qed.

Lemma lookup_provider_elem name l provider :
  provider ∈ l -> GetName provider = name ->
  exists found, lookup_provider name l = Some found.
Proof.
  induction l as [|p rest IH]; simpl; [by intros ?%elem_of_nil|].
  intros Hin Hname. destruct (decide (GetName p = name)); [eauto|].
  apply elem_of_cons in Hin as [->|Hin]; [done|auto].
Qed.

Lemma lookup_provider_NoDup name l provider :
  NoDup (map GetName l) -> provider ∈ l -> GetName provider = name ->
  lookup_provider name l = Some provider.
Proof.
  induction l as [|p rest IH]; simpl; [by intros _ ?%elem_of_nil|].
  intros [Hp Hnd]%NoDup_cons Hin Hname.
  destruct (decide (GetName p = name)) as [Heq|Hne].
  - apply elem_of_cons in Hin as [->|Hin]; [done|].
    destruct Hp. rewrite Heq, <- Hname. apply list_elem_of_fmap. eauto.
  - apply elem_of_cons in Hin as [->|Hin]; [done|auto].
Qed.

Lemma lookup_provider_app name l1 l2 :
  lookup_provider name (l1 ++ l2)
  = match lookup_provider name l1 with
    | Some provider => Some provider
    | None => lookup_provider name l2
    end.
Proof.
  induction l1 as [|p rest IH]; simpl; [done|].
  by destruct (decide (GetName p = name)).
Qed.

Lemma SendMoneyWithProvider_lookup rh providerName req :
  SendMoneyWithProvider rh providerName req
  = match lookup_provider providerName (providers rh) with
    | None => ([], Done (Err (wrapError ("provider " ++ providerName ++ " not found"))))
    | Some provider => ([call_SendMoney provider req], SendMoney provider req)
    end.
Proof.
  unfold SendMoneyWithProvider.
  induction (providers rh) as [|p rest IH]; simpl; [done|].
  destruct (String.eqb_spec (GetName p) providerName) as [Heq|Hne].
  - by rewrite decide_True.
  - by rewrite decide_False.
Qed.

Lemma Slice_head_least (quotes : list RemittanceQuote.t) best rest :
  no_NaN quotes -> sort.Slice byTotalCost quotes = best :: rest ->
  forall quote, quote ∈ quotes -> cost_le best quote.
Proof.
  intros Hnum Hsorted quote Hin.
  pose proof (pdqsort_facts.Slice_sorted byTotalCost has_cost quotes Hnum) as Hs.
  assert (Forall has_cost (best :: rest)) as Hnum'.
  { rewrite <- Hsorted. by rewrite sort_facts.Slice_Permutation. }
  rewrite Hsorted in Hs. apply StronglySorted_inv in Hs as [_ Hall].
  rewrite <- sort_facts.Slice_Permutation with (less := byTotalCost) in Hin.
  rewrite Hsorted in Hin. apply Forall_cons in Hnum' as [Hbest Hrest].
  apply elem_of_cons in Hin as [->|Hin].
  - apply not_after_cost_le; [done|done|]. unfold not_after, byTotalCost.
    destruct (PrimFloat.ltb _ _) eqn:Hlt; [|done].
    by rewrite (float_facts.ltb_asym _ _ Hbest Hbest Hlt) in Hlt.
  - rewrite Forall_forall in Hall, Hrest.
    apply not_after_cost_le; auto.
Qed.

(** X1: when no quote collected has NaN as [TotalCost], the quote that
    [GetBestQuote] returns is one of the quotes of the eligible adapters and
    none of them costs less. *)
Theorem GetBestQuote_cheapest
    (rh : RemittanceHub) (req : TransactionRequest.t) (best : RemittanceQuote.t) :
  result (GetBestQuote rh req) = Done (Ok best) ->
  no_NaN (successful_quotes req (corridor_providers rh req)) ->
  best ∈ successful_quotes req (corridor_providers rh req)
  /\ forall quote, quote ∈ successful_quotes req (corridor_providers rh req) ->
       cost_le best quote.
Proof.
  rewrite GetBestQuote_result, GetQuotes_result.
  destruct (first_panic req _); [done|].
  destruct (sort.Slice _ _) as [|first rest] eqn:Hsorted; [done|].
  intros [= ->] Hnum. split.
  - rewrite <- sort_facts.Slice_Permutation with (less := byTotalCost).
    rewrite Hsorted. left.
  - by apply (Slice_head_least _ best rest).
Qed.

(** X2: [GetQuotes] calls [SendMoney] of no adapter; it logs one line for
    each adapter it asked that returned an error, in registration order; and
    when it returns, the quotes and the logged lines are together as many
    as the eligible adapters. *)
Theorem GetQuotes_accounts_for_every_provider
    (rh : RemittanceHub) (req : TransactionRequest.t) :
  sent (trace (GetQuotes rh req)) = []
  /\ logged (trace (GetQuotes rh req))
     = omap (failure_line req) (attempted req (corridor_providers rh req))
  /\ forall quotes, result (GetQuotes rh req) = Done (Ok quotes) ->
       length quotes + length (logged (trace (GetQuotes rh req)))
       = length (corridor_providers rh req).
Proof.
  rewrite GetQuotes_trace_range, GetQuotes_range_sent, GetQuotes_range_logged.
  split; [done|]. split; [done|]. intros quotes. rewrite GetQuotes_result.
  destruct (first_panic req _) eqn:Hpanic; [done|]. intros [= <-].
  rewrite attempted_all by done.
  rewrite sort_facts.Slice_Permutation. by apply quotes_and_failures.
Qed.

(** X3: a panic of one adapter's [GetQuote] is not recovered: [GetQuotes]
    and [GetBestQuote] panic with it, whatever the adapters asked before
    returned, and the adapters registered after it are not asked. *)
Theorem GetQuotes_panic_aborts
    (rh : RemittanceHub) (req : TransactionRequest.t)
    (before after : list RemittanceProvider) (failing : RemittanceProvider) (msg : string) :
  corridor_providers rh req = before ++ failing :: after ->
  Forall (fun provider => exists r, GetQuote provider req = Done r) before ->
  GetQuote failing req = Panicked msg ->
  result (GetQuotes rh req) = Panicked msg
  /\ result (GetBestQuote rh req) = Panicked msg
  /\ quoted (trace (GetQuotes rh req)) = before ++ [failing].
Proof.
  intros Hcorridor Hbefore Hfail.
  assert (first_panic req (before ++ failing :: after) = Some msg
          /\ attempted req (before ++ failing :: after) = before ++ [failing]) as [Hp Ha].
  { clear Hcorridor. induction Hbefore as [|p rest [r Hr] _ [IH1 IH2]]; simpl.
    - by rewrite Hfail.
    - rewrite Hr. split; [done|]. by f_equal. }
  rewrite GetBestQuote_result, GetQuotes_quoted, GetQuotes_result, Hcorridor, Hp, Ha.
  done.
Qed.

(** X3 in the wallet service: Wise answers with the body of an error reply;
    no quote is returned, although Remitly and WorldRemit, registered after
    Wise, have one for the request. *)
Lemma GetQuotes_panic_aborts_witness :
  result (GetRemittanceOptions (NewWalletRemittanceService (world_answering wise_refusal))
            main_request)
    = Panicked "interface conversion: interface {} is nil, not float64"
  /\ map GetName (quoted (trace (GetRemittanceOptions
                                   (NewWalletRemittanceService (world_answering wise_refusal))
                                   main_request))) = ["Wise"]
  /\ (exists quote, GetQuote (Remitly (world_answering wise_refusal)
                                (NewRemitlyProvider "remitly-api-key")) main_request
                    = Done (Ok quote)).
Proof.
  destruct (GetQuotes_panic_aborts
              (hub (NewWalletRemittanceService (world_answering wise_refusal)))
              main_request []
              [Remitly (world_answering wise_refusal) (NewRemitlyProvider "remitly-api-key");
               WorldRemit (world_answering wise_refusal)
                 (NewWorldRemitProvider "worldremit-api-key" "worldremit-secret")]
              (Wise (world_answering wise_refusal)
                 (NewWiseProvider "wise-api-key" "wise-profile-id"))
              "interface conversion: interface {} is nil, not float64")
    as (Hresult & _ & Hquoted).
  - reflexivity.
  - constructor.
  - reflexivity.
  - split; [exact Hresult|]. split.
    + unfold GetRemittanceOptions. rewrite Hquoted. reflexivity.
    + eexists. reflexivity.
Defined.

(** X1 on the request of [main], Wise answering: the best quote is that of
    WorldRemit. *)
Lemma GetBestQuote_cheapest_witness :
  exists best,
    result (GetBestQuote (hub (NewWalletRemittanceService (world_answering wise_answer)))
              main_request) = Done (Ok best)
    /\ RemittanceQuote.Provider best = "WorldRemit"
    /\ forall quote,
         quote ∈ successful_quotes main_request
                   (corridor_providers
                      (hub (NewWalletRemittanceService (world_answering wise_answer)))
                      main_request) ->
         cost_le best quote.
Proof.
  eexists. split; [vm_compute; reflexivity|]. split; [reflexivity|].
  match goal with |- forall quote, _ ∈ ?l -> cost_le ?b _ =>
    destruct (GetBestQuote_cheapest
                (hub (NewWalletRemittanceService (world_answering wise_answer)))
                main_request b) as [_ Hleast]
  end.
  - vm_compute. reflexivity.
  - repeat constructor.
  - exact Hleast.
Defined.

(** X4: when every registered adapter puts its own name on its quotes, the
    provider named by the quote of [GetBestQuote] is registered:
    [SendMoneyWithProvider] with that name does not report "provider not
    found" but calls [SendMoney] of an adapter of that name; if no two
    registered adapters bear the same name, this is the adapter that gave the
    quote. *)
Theorem GetBestQuote_provider_registered
    (rh : RemittanceHub) (req : TransactionRequest.t) (best : RemittanceQuote.t) :
  Forall (names_its_quote req) (providers rh) ->
  result (GetBestQuote rh req) = Done (Ok best) ->
  exists provider,
    provider ∈ providers rh
    /\ GetName provider = RemittanceQuote.Provider best
    /\ SendMoneyWithProvider rh (RemittanceQuote.Provider best) req
       = ([call_SendMoney provider req], SendMoney provider req)
    /\ (NoDup (map GetName (providers rh)) -> GetQuote provider req = Done (Ok best)).
Proof.
  intros Hnames. rewrite GetBestQuote_result, GetQuotes_result.
  destruct (first_panic req _); [done|].
  destruct (sort.Slice _ _) as [|first rest] eqn:Hsorted; [done|]. intros [= ->].
  assert (best ∈ successful_quotes req (corridor_providers rh req)) as Hin.
  { rewrite <- sort_facts.Slice_Permutation with (less := byTotalCost).
    rewrite Hsorted. left. }
  apply elem_of_successful_quotes in Hin as (origin & Horigin & Hquote).
  apply corridor_providers_registered in Horigin.
  rewrite Forall_forall in Hnames.
  pose proof (Hnames origin Horigin best Hquote) as Hname.
  destruct (lookup_provider_elem (RemittanceQuote.Provider best) (providers rh) origin)
    as [found Hfound]; [done|done|].
  exists found. destruct (lookup_provider_Some _ _ _ Hfound) as [Hreg Hfname].
  split; [done|]. split; [done|]. split.
  - by rewrite SendMoneyWithProvider_lookup, Hfound.
  - intros Hnodup.
    rewrite (lookup_provider_NoDup _ _ origin Hnodup Horigin) in Hfound by done.
    by injection Hfound as <-.
Qed.

(** The three adapters of the repository put their own name on their quotes. *)
Lemma adapters_name_their_quotes wd w r wr req :
  names_its_quote req (Wise wd w) /\ names_its_quote req (Remitly wd r)
  /\ names_its_quote req (WorldRemit wd wr).
Proof.
  unfold names_its_quote. simpl. split; [|split]; intros quote.
  - unfold Wise_GetQuote.
    destruct (Wise_makeRequest _ _ _ _ _) as [resp|?]; [|done].
    destruct (Decode_map resp) as [quoteResp|?]; [|done].
    destruct (assert_float64 (member "fee" quoteResp)) as [fee|?]; [|done].
    destruct (assert_float64 (member "rate" quoteResp)) as [rate|?]; [|done].
    destruct (assert_float64 (member "targetAmount" quoteResp)) as [target|?]; [|done].
    simpl. by intros [= <-].
  - unfold Remitly_GetQuote. by intros [= <-].
  - unfold WorldRemit_GetQuote. by intros [= <-].
Qed.

(** X4 on the steps of [main], Wise answering: the best option of the
    wallet service, then [SendRemittance] with the provider it names. *)
Lemma GetBestQuote_provider_registered_witness :
  let service := NewWalletRemittanceService (world_answering wise_answer) in
  exists best provider,
    result (GetBestOption service main_request) = Done (Ok best)
    /\ GetName provider = "WorldRemit"
    /\ GetQuote provider main_request = Done (Ok best)
    /\ SendRemittance service (RemittanceQuote.Provider best) main_request
       = ([call_SendMoney provider main_request], SendMoney provider main_request).
Proof.
  intros service.
  assert (exists best, result (GetBestOption service main_request) = Done (Ok best)
                       /\ RemittanceQuote.Provider best = "WorldRemit") as (best & Hbest & Hname).
  { eexists. split; [vm_compute; reflexivity|reflexivity]. }
  destruct (GetBestQuote_provider_registered (hub service) main_request best)
    as (provider & _ & Hprovider & Hsend & Horigin).
  - simpl.
    destruct (adapters_name_their_quotes (world_answering wise_answer)
                (NewWiseProvider "wise-api-key" "wise-profile-id")
                (NewRemitlyProvider "remitly-api-key")
                (NewWorldRemitProvider "worldremit-api-key" "worldremit-secret")
                main_request) as (H1 & H2 & H3).
    repeat constructor; assumption.
  - exact Hbest.
  - exists best, provider. split; [exact Hbest|]. split; [congruence|].
    split; [|exact Hsend].
    apply Horigin. apply (bool_decide_unpack _). vm_compute. reflexivity.
Defined.

(** X5: registering one more adapter changes nothing for the adapters
    already registered: the eligible adapters of a corridor are those of
    before, followed by the new one if it is eligible, and a name that an
    earlier adapter bears is still routed to that adapter; the new adapter is
    reached by its name only if no earlier adapter bears it. *)
Theorem AddProvider_keeps_routing
    (rh : RemittanceHub) (added : RemittanceProvider)
    (fromCountry toCountry : string) (fromCurrency toCurrency : Currency)
    (providerName : string) (req : TransactionRequest.t) :
  GetAvailableProviders (AddProvider rh added) fromCountry toCountry fromCurrency toCurrency
  = GetAvailableProviders rh fromCountry toCountry fromCurrency toCurrency
    ++ (if decide (eligible fromCountry toCountry fromCurrency toCurrency added)
        then [added] else [])
  /\ SendMoneyWithProvider (AddProvider rh added) providerName req
     = match lookup_provider providerName (providers rh) with
       | Some _ => SendMoneyWithProvider rh providerName req
       | None =>
           if decide (GetName added = providerName)
           then ([call_SendMoney added req], SendMoney added req)
           else SendMoneyWithProvider rh providerName req
       end.
Proof.
  split.
  - rewrite !GetAvailableProviders_filter. simpl. rewrite filter_app.
    by f_equal.
  - rewrite !SendMoneyWithProvider_lookup. simpl. rewrite lookup_provider_app.
    destruct (lookup_provider providerName (providers rh)); [done|]. simpl.
    by destruct (decide _).
Qed.

(** X6: the eligibility filter does not tell the source side from the
    target side: exchanging the two countries, or the two currencies, gives
    the same adapters. *)
Theorem GetAvailableProviders_symmetric
    (rh : RemittanceHub) (fromCountry toCountry : string) (fromCurrency toCurrency : Currency) :
  GetAvailableProviders rh toCountry fromCountry fromCurrency toCurrency
  = GetAvailableProviders rh fromCountry toCountry fromCurrency toCurrency
  /\ GetAvailableProviders rh fromCountry toCountry toCurrency fromCurrency
     = GetAvailableProviders rh fromCountry toCountry fromCurrency toCurrency.
Proof.
  rewrite !GetAvailableProviders_filter.
  split; apply list_filter_iff; intros provider; unfold eligible;
    (split; intros [Hcurrency Hcountry];
     (split; [eapply Exists_impl; [exact Hcurrency|]|eapply Exists_impl; [exact Hcountry|]]);
     simpl; tauto).
Qed.

(** ** The wallet service *)

Lemma filter_ext_elem {A} (P Q : A -> Prop) `{!forall x, Decision (P x)}
    `{!forall x, Decision (Q x)} (l : list A) :
  (forall x, x ∈ l -> P x <-> Q x) -> filter P l = filter Q l.
Proof.
  induction l as [|x rest IH]; intros Hext; [done|].
  rewrite !filter_cons, IH by (intros y Hy; apply Hext; by right).
  destruct (decide (P x)) as [HP|HP], (decide (Q x)) as [HQ|HQ]; try done.
  - destruct HQ. apply (Hext x); [left|done].
  - destruct HP. apply (Hext x); [left|done].
Qed.

Lemma first_panic_ext req1 req2 l :
  (forall provider, provider ∈ l -> GetQuote provider req1 = GetQuote provider req2) ->
  first_panic req1 l = first_panic req2 l.
Proof.
  induction l as [|p rest IH]; intros H; simpl; [done|].
  rewrite (H p) by left. rewrite IH; [done|]. intros q Hq. apply H. by right.
Qed.

Lemma omap_ext_elem {A B} (f g : A -> option B) (l : list A) :
  (forall x, x ∈ l -> f x = g x) -> omap f l = omap g l.
Proof.
  induction l as [|x rest IH]; intros Hext; [done|].
  simpl. rewrite (Hext x) by left.
  destruct (g x); [f_equal|]; apply IH; intros y Hy; apply Hext; by right.
Qed.

Lemma successful_quotes_ext req1 req2 l :
  (forall provider, provider ∈ l -> GetQuote provider req1 = GetQuote provider req2) ->
  successful_quotes req1 l = successful_quotes req2 l.
Proof.
  intros H. apply omap_ext_elem. intros p Hp. unfold succeeded. by rewrite (H p).
Qed.

Lemma attempted_ext req1 req2 l :
  (forall provider, provider ∈ l -> GetQuote provider req1 = GetQuote provider req2) ->
  attempted req1 l = attempted req2 l.
Proof.
  induction l as [|p rest IH]; intros H; simpl; [done|].
  rewrite (H p) by left. rewrite IH; [done|]. intros q Hq. apply H. by right.
Qed.

Lemma failure_lines_ext req1 req2 (l : list RemittanceProvider) :
  (forall provider, provider ∈ l -> GetQuote provider req1 = GetQuote provider req2) ->
  omap (failure_line req1) l = omap (failure_line req2) l.
Proof.
  intros H. apply omap_ext_elem. intros p Hp. unfold failure_line. by rewrite (H p).
Qed.

(** The adapters of the repository read the amount and the two currencies
    of a request for a quote, and nothing else. *)
Lemma adapters_read_the_transfer wd w r wr req1 req2 :
  same_transfer req1 req2 ->
  GetQuote (Wise wd w) req1 = GetQuote (Wise wd w) req2
  /\ GetQuote (Remitly wd r) req1 = GetQuote (Remitly wd r) req2
  /\ GetQuote (WorldRemit wd wr) req1 = GetQuote (WorldRemit wd wr) req2.
Proof.
  intros (Hamount & Hfrom & Hto). simpl.
  unfold Wise_GetQuote, Remitly_GetQuote, WorldRemit_GetQuote.
  by rewrite Hamount, Hfrom, Hto.
Qed.

(** All three adapters of the wallet service list the home country. *)
Lemma wallet_service_registry wd :
  providers (hub (NewWalletRemittanceService wd))
  = [Wise wd (NewWiseProvider "wise-api-key" "wise-profile-id");
     Remitly wd (NewRemitlyProvider "remitly-api-key");
     WorldRemit wd (NewWorldRemitProvider "worldremit-api-key" "worldremit-secret")].
Proof. reflexivity. Qed.

Lemma wallet_service_eligible wd toCountry fromCurrency toCurrency provider :
  provider ∈ providers (hub (NewWalletRemittanceService wd)) ->
  eligible "US" toCountry fromCurrency toCurrency provider
  <-> Exists (fun currency => currency = fromCurrency \/ currency = toCurrency)
             (GetSupportedCurrencies provider).
Proof.
  rewrite wallet_service_registry. unfold eligible.
  intros Hin. split; [by intros [? _]|]. intros H. split; [done|].
  repeat (apply elem_of_cons in Hin as [->|Hin]; [by left; left|]).
  by apply elem_of_nil in Hin.
Qed.

Lemma wallet_service_corridor wd req1 req2 :
  TransactionRequest.FromCurrency req1 = TransactionRequest.FromCurrency req2 ->
  TransactionRequest.ToCurrency req1 = TransactionRequest.ToCurrency req2 ->
  corridor_providers (hub (NewWalletRemittanceService wd)) req1
  = corridor_providers (hub (NewWalletRemittanceService wd)) req2.
Proof.
  intros Hfrom Hto. unfold corridor_providers.
  rewrite !GetAvailableProviders_filter. apply filter_ext_elem.
  intros provider Hin. rewrite !wallet_service_eligible by done.
  by rewrite Hfrom, Hto.
Qed.

(** X7: what the wallet service answers to a request for quotes depends on
    the amount and on the two currencies of the request only: the recipient
    and the recipient's country, the sender, the payment method, the purpose
    and the reference play no part, neither in the choice of the adapters
    (all three list the home country US) nor in their quotes. *)
Theorem GetRemittanceOptions_reads_the_transfer_only
    (wd : World) (req1 req2 : TransactionRequest.t) :
  same_transfer req1 req2 ->
  result (GetRemittanceOptions (NewWalletRemittanceService wd) req1)
  = result (GetRemittanceOptions (NewWalletRemittanceService wd) req2)
  /\ result (GetBestOption (NewWalletRemittanceService wd) req1)
     = result (GetBestOption (NewWalletRemittanceService wd) req2)
  /\ logged (trace (GetRemittanceOptions (NewWalletRemittanceService wd) req1))
     = logged (trace (GetRemittanceOptions (NewWalletRemittanceService wd) req2)).
Proof.
  intros Hsame. unfold GetRemittanceOptions, GetBestOption.
  set (service := NewWalletRemittanceService wd).
  assert (corridor_providers (hub service) req1 = corridor_providers (hub service) req2)
    as Hcorridor by (apply wallet_service_corridor; apply Hsame).
  assert (forall provider, provider ∈ corridor_providers (hub service) req2 ->
            GetQuote provider req1 = GetQuote provider req2) as Hquotes.
  { intros provider Hin%corridor_providers_registered.
    unfold service in Hin. rewrite wallet_service_registry in Hin.
    destruct (adapters_read_the_transfer wd
                (NewWiseProvider "wise-api-key" "wise-profile-id")
                (NewRemitlyProvider "remitly-api-key")
                (NewWorldRemitProvider "worldremit-api-key" "worldremit-secret")
                req1 req2 Hsame) as (H1 & H2 & H3).
    repeat (apply elem_of_cons in Hin as [->|Hin]; [done|]).
    by apply elem_of_nil in Hin. }
  assert (result (GetQuotes (hub service) req1) = result (GetQuotes (hub service) req2))
    as Hresult.
  { rewrite !GetQuotes_result, Hcorridor.
    by rewrite (first_panic_ext req1 req2), (successful_quotes_ext req1 req2). }
  split; [done|]. split.
  - by rewrite !GetBestQuote_result, Hresult.
  - rewrite !GetQuotes_trace_range, !GetQuotes_range_logged, Hcorridor.
    rewrite (attempted_ext req1 req2) by done.
    apply failure_lines_ext. intros provider Hin. apply Hquotes.
    destruct (attempted_prefix req2 (corridor_providers (hub service) req2)) as [rest Hrest].
    rewrite Hrest. apply elem_of_app. by left.
Qed.

(** X7 on the request of [main], Wise answering: sent to a recipient in a
    country that no adapter lists, it gets the same three quotes. *)
Lemma GetRemittanceOptions_reads_the_transfer_only_witness :
  let service := NewWalletRemittanceService (world_answering wise_answer) in
  result (GetRemittanceOptions service (with_recipient main_request recipient_elsewhere))
  = result (GetRemittanceOptions service main_request)
  /\ exists quotes,
       result (GetRemittanceOptions service main_request) = Done (Ok quotes)
       /\ map RemittanceQuote.Provider quotes = ["WorldRemit"; "Wise"; "Remitly"].
Proof.
  intros service. split.
  - apply (GetRemittanceOptions_reads_the_transfer_only (world_answering wise_answer)
             (with_recipient main_request recipient_elsewhere) main_request).
    repeat split; reflexivity.
  - eexists. split; [vm_compute; reflexivity|reflexivity].
Defined.

Lemma elem_of_Exists_eq (from to : string) (l : list string) :
  Exists (fun x => x = from \/ x = to) l <-> from ∈ l \/ to ∈ l.
Proof.
  rewrite Exists_exists. split.
  - intros (x & Hx & [->| ->]); auto.
  - intros [H|H]; eauto.
Qed.

(** X8: the best option of the wallet service is the error "no quotes
    available", with no adapter asked, when neither currency of the request is
    one of USD, EUR, GBP, INR, PHP and MXN; in every other case it is not an
    error: Remitly or WorldRemit has a quote, and the call returns a quote
    unless the Wise adapter panics. *)
Theorem GetBestOption_no_quotes (wd : World) (req : TransactionRequest.t) :
  let service := NewWalletRemittanceService wd in
  let known := [USD; EUR; GBP; INR; PHP; MXN] in
  ((TransactionRequest.FromCurrency req ∉ known)
   /\ (TransactionRequest.ToCurrency req ∉ known) ->
   GetBestOption service req = ([], Done (Err (errorString "no quotes available"))))
  /\ ((TransactionRequest.FromCurrency req ∈ known
       \/ TransactionRequest.ToCurrency req ∈ known) ->
      (exists best, result (GetBestOption service req) = Done (Ok best))
      \/ (exists msg,
            result (GetBestOption service req) = Panicked msg
            /\ Wise_GetQuote wd (NewWiseProvider "wise-api-key" "wise-profile-id") req
               = Panicked msg)).
Proof.
  intros service known. unfold GetBestOption.
  set (wise := Wise wd (NewWiseProvider "wise-api-key" "wise-profile-id")).
  set (remitly := Remitly wd (NewRemitlyProvider "remitly-api-key")).
  set (worldremit :=
         WorldRemit wd (NewWorldRemitProvider "worldremit-api-key" "worldremit-secret")).
  assert (corridor_providers (hub service) req
          = filter (fun provider =>
                      Exists (fun currency => currency = TransactionRequest.FromCurrency req
                                              \/ currency = TransactionRequest.ToCurrency req)
                             (GetSupportedCurrencies provider))
                   [wise; remitly; worldremit]) as Hcorridor.
  { unfold corridor_providers. rewrite GetAvailableProviders_filter.
    apply filter_ext_elem. intros provider Hin. by apply (wallet_service_eligible wd). }
  rewrite !filter_cons, filter_nil in Hcorridor.
  split.
  - intros [Hfrom Hto].
    rewrite !decide_False in Hcorridor.
    + unfold GetBestQuote, GetQuotes. fold (corridor_providers (hub service) req).
      by rewrite Hcorridor.
    + rewrite elem_of_Exists_eq. intros [H|H]; [apply Hfrom|apply Hto];
        revert H; unfold known, wise, remitly, worldremit; simpl;
        unfold Wise_GetSupportedCurrencies, Remitly_GetSupportedCurrencies,
          WorldRemit_GetSupportedCurrencies;
        rewrite !elem_of_cons; tauto.
    + rewrite elem_of_Exists_eq. intros [H|H]; [apply Hfrom|apply Hto];
        revert H; unfold known, wise, remitly, worldremit; simpl;
        unfold Wise_GetSupportedCurrencies, Remitly_GetSupportedCurrencies,
          WorldRemit_GetSupportedCurrencies;
        rewrite !elem_of_cons; tauto.
    + rewrite elem_of_Exists_eq. intros [H|H]; [apply Hfrom|apply Hto];
        revert H; unfold known, wise, remitly, worldremit; simpl;
        unfold Wise_GetSupportedCurrencies, Remitly_GetSupportedCurrencies,
          WorldRemit_GetSupportedCurrencies;
        rewrite !elem_of_cons; tauto.
  - intros Hknown.
    assert (Exists (fun currency => currency = TransactionRequest.FromCurrency req
                                    \/ currency = TransactionRequest.ToCurrency req)
                   (GetSupportedCurrencies remitly)
            \/ Exists (fun currency => currency = TransactionRequest.FromCurrency req
                                       \/ currency = TransactionRequest.ToCurrency req)
                      (GetSupportedCurrencies worldremit)) as Hasked.
    { rewrite !elem_of_Exists_eq. unfold known in Hknown.
      unfold remitly, worldremit. simpl.
      unfold Remitly_GetSupportedCurrencies, WorldRemit_GetSupportedCurrencies.
      rewrite !elem_of_cons in *. tauto. }
    rewrite GetBestQuote_result, GetQuotes_result.
    destruct (decide (Exists _ (GetSupportedCurrencies wise))) as [Hw|Hw],
             (decide (Exists _ (GetSupportedCurrencies remitly))) as [Hr|Hr],
             (decide (Exists _ (GetSupportedCurrencies worldremit))) as [Hwr|Hwr];
      cbv beta in *; try tauto; rewrite Hcorridor;
      unfold wise, remitly, worldremit, successful_quotes, succeeded;
      cbn [first_panic omap list_omap GetQuote
           Wise Remitly WorldRemit Remitly_GetQuote WorldRemit_GetQuote];
      try (destruct (Wise_GetQuote wd _ req) as [[quote|err]|msg];
           [| |right; by exists msg]);
      left;
      (destruct (sort.Slice _ _) as [|best rest] eqn:Hsorted; [|by eauto]);
      apply (f_equal length) in Hsorted;
      rewrite sort_facts.Slice_Permutation in Hsorted; done.
Qed.

(** X9: the wallet service knows its three adapters by the names "Wise",
    "Remitly" and "WorldRemit", in this spelling: for every other name
    [SendRemittance] reports "provider ... not found" and calls no adapter,
    and for these three it calls the adapter, which for Remitly and
    WorldRemit returns a pending transaction. *)
Theorem SendRemittance_by_name
    (wd : World) (providerName : string) (req : TransactionRequest.t) :
  let service := NewWalletRemittanceService wd in
  (providerName ∉ ["Wise"; "Remitly"; "WorldRemit"]
   <-> SendRemittance service providerName req
       = ([], Done (Err (wrapError ("provider " ++ providerName ++ " not found")))))
  /\ (providerName ∈ ["Wise"; "Remitly"; "WorldRemit"] ->
      exists provider,
        provider ∈ providers (hub service) /\ GetName provider = providerName
        /\ SendRemittance service providerName req
           = ([call_SendMoney provider req], SendMoney provider req))
  /\ (providerName = "Remitly" \/ providerName = "WorldRemit" ->
      exists resp,
        result (SendRemittance service providerName req) = Done (Ok resp)
        /\ TransactionResponse.Status resp = StatusPending).
Proof.
  intros service. unfold SendRemittance.
  rewrite SendMoneyWithProvider_lookup. unfold service.
  rewrite wallet_service_registry. cbn [lookup_provider GetName Wise Remitly WorldRemit].
  unfold Wise_GetName, Remitly_GetName, WorldRemit_GetName.
  rewrite !elem_of_cons, elem_of_nil.
  destruct (decide ("Wise" = providerName)) as [<-|Hw].
  { split; [split; [tauto|done]|]. split; [|intros [?|?]; done].
    intros _. eexists. split; [left|]. by split. }
  destruct (decide ("Remitly" = providerName)) as [<-|Hr].
  { split; [split; [tauto|done]|]. split.
    - intros _. eexists. split; [right; left|]. by split.
    - intros _. eexists. split; [reflexivity|reflexivity]. }
  destruct (decide ("WorldRemit" = providerName)) as [<-|Hwr].
  { split; [split; [tauto|done]|]. split.
    - intros _. eexists. split; [right; right; left|]. by split.
    - intros _. eexists. split; [reflexivity|reflexivity]. }
  split; [split; [done|]|]. { intros _ [?|[?|[?|[]]]]; congruence. }
  split; [intros [?|[?|[?|[]]]]; congruence|intros [?|?]; congruence].
Qed.

(** ** The adapters *)

Lemma is_nan_true x : is_nan x = true <-> Prim2SF x = S754_nan.
Proof.
  pose proof (float_facts.is_nan_Prim2SF x) as H.
  destruct (is_nan x); split; try done.
  - intros _. destruct (Prim2SF x) eqn:Hx; try done;
      (assert (true = false) as Hf by (apply H; done); done).
  - intros Hx. destruct (proj1 H eq_refl Hx).
Qed.

Lemma is_nan_add x y : is_nan x = true -> is_nan (x + y) = true.
Proof.
  rewrite !is_nan_true, FloatAxioms.add_spec. intros ->. reflexivity.
Qed.

Lemma is_nan_mul x y : is_nan x = true -> is_nan (x * y) = true.
Proof.
  rewrite !is_nan_true, FloatAxioms.mul_spec. intros ->. reflexivity.
Qed.

Lemma is_nan_fma x y z : is_nan x = true -> is_nan (fma x y z) = true.
Proof.
  rewrite is_nan_true. unfold fma. intros ->. reflexivity.
Qed.

Lemma fmt_d_inj n m : fmt_d n = fmt_d m -> n = m.
Proof.
  unfold fmt_d. intros H. apply DecimalZ.to_int_inj.
  assert (forall k, NilZero.int_of_string (NilZero.string_of_int (Z.to_int k))
                    = Some (Z.to_int k)) as Hparse.
  { intros k. apply NilZero.isi; destruct k; simpl; try done;
      intros [= Hnil]; by apply DecimalPos.Unsigned.to_uint_nonnil in Hnil. }
  apply (f_equal NilZero.int_of_string) in H. rewrite !Hparse in H. by injection H.
Qed.

Lemma append_inj_r (prefix s1 s2 : string) :
  (prefix ++ s1 = prefix ++ s2)%string -> s1 = s2.
Proof.
  induction prefix as [|a prefix IH]; simpl; [done|]. intros [= H]. auto.
Qed.

(** X10: the Wise adapter does not ask for a quote of an amount that is NaN
    or infinite: [json.Marshal] refuses the request body, and [GetQuote]
    returns its error, in whatever state the network is. *)
Theorem Wise_GetQuote_amount_not_finite
    (wd : World) (w : WiseProvider.t) (req : TransactionRequest.t) :
  is_finite (TransactionRequest.Amount req) = false ->
  Wise_GetQuote wd w req
  = Done (Err (json_UnsupportedValueError (FormatFloat (TransactionRequest.Amount req)))).
Proof.
  intros Hamount. unfold Wise_GetQuote, Wise_makeRequest, json_Marshal.
  simpl. by rewrite Hamount.
Qed.

(** X10 for an amount of plus infinity, the backend being ready to answer. *)
Lemma Wise_GetQuote_amount_not_finite_witness :
  Wise_GetQuote (world_answering wise_answer) (NewWiseProvider "wise-api-key" "wise-profile-id")
    (with_transfer main_request infinity USD PHP)
  = Done (Err (json_UnsupportedValueError "+Inf")).
Proof.
  apply (Wise_GetQuote_amount_not_finite (world_answering wise_answer)
           (NewWiseProvider "wise-api-key" "wise-profile-id")
           (with_transfer main_request infinity USD PHP)).
  reflexivity.
Defined.

(** X11: Remitly and WorldRemit, which compute their quote from the amount,
    quote an amount that is NaN: the quote has NaN as [TotalCost]. *)
Theorem GetQuote_amount_not_a_number
    (wd : World) (req : TransactionRequest.t) :
  is_nan (TransactionRequest.Amount req) = true ->
  (exists quote, Remitly_GetQuote wd req = Done (Ok quote)
                 /\ is_nan (RemittanceQuote.TotalCost quote) = true)
  /\ (exists quote, WorldRemit_GetQuote wd req = Done (Ok quote)
                    /\ is_nan (RemittanceQuote.TotalCost quote) = true).
Proof.
  intros Hamount. split; eexists; (split; [reflexivity|]); simpl.
  - destruct (fused wd); [by apply is_nan_fma|by apply is_nan_add].
  - by apply is_nan_add.
Qed.

Lemma GetQuote_amount_not_a_number_witness :
  exists quote,
    Remitly_GetQuote world_offline (with_transfer main_request nan USD PHP) = Done (Ok quote)
    /\ is_nan (RemittanceQuote.TotalCost quote) = true.
Proof.
  destruct (GetQuote_amount_not_a_number world_offline
              (with_transfer main_request nan USD PHP)) as [Hremitly _].
  - reflexivity.
  - exact Hremitly.
Defined.

(** X12: a response of [SendMoney] of any of the three adapters reports a
    pending transfer of the amount of the request, and its tracking URL is
    the tracking address of the provider followed by the transaction id;
    Remitly and WorldRemit return such a response to every request. *)
Theorem SendMoney_response
    (wd : World) (w : WiseProvider.t) (req : TransactionRequest.t) :
  (forall resp, Wise_SendMoney wd w req = Done (Ok resp) ->
     pending_for req resp
     /\ TransactionResponse.TrackingURL resp
        = ("https://wise.com/track/" ++ TransactionResponse.TransactionID resp)%string)
  /\ (exists resp, Remitly_SendMoney wd req = Done (Ok resp)
        /\ pending_for req resp
        /\ TransactionResponse.TrackingURL resp
           = ("https://remitly.com/track/" ++ TransactionResponse.TransactionID resp)%string)
  /\ (exists resp, WorldRemit_SendMoney wd req = Done (Ok resp)
        /\ pending_for req resp
        /\ TransactionResponse.TrackingURL resp
           = ("https://worldremit.com/track/" ++ TransactionResponse.TransactionID resp)%string).
Proof.
  split; [|split].
  - intros resp. unfold Wise_SendMoney.
    destruct (Wise_makeRequest _ _ _ _ _) as [answer|?]; [|done].
    destruct (Decode_map answer) as [transferResp|?]; [|done].
    destruct (assert_string (member "id" transferResp)) as [id|?]; [|done].
    simpl. by intros [= <-].
  - eexists. split; [reflexivity|]. by repeat split.
  - eexists. split; [reflexivity|]. by repeat split.
Qed.

(** X13: the fee, the exchange rate and the estimated time in a response of
    [SendMoney] of Remitly and of WorldRemit are those of the quote of the
    same adapter for the same request; the Wise adapter reports the fee 10
    and the rate 1.2 whatever it quoted, and there is a request quoted with
    another fee. *)
Theorem SendMoney_fee_and_quote
    (wd : World) (w : WiseProvider.t) (req : TransactionRequest.t) :
  (forall quote resp,
     Remitly_GetQuote wd req = Done (Ok quote) -> Remitly_SendMoney wd req = Done (Ok resp) ->
     TransactionResponse.Fee resp = RemittanceQuote.Fee quote
     /\ TransactionResponse.ExchangeRate resp = RemittanceQuote.ExchangeRate quote
     /\ TransactionResponse.EstimatedTime resp = RemittanceQuote.EstimatedTime quote)
  /\ (forall quote resp,
        WorldRemit_GetQuote wd req = Done (Ok quote) ->
        WorldRemit_SendMoney wd req = Done (Ok resp) ->
        TransactionResponse.Fee resp = RemittanceQuote.Fee quote
        /\ TransactionResponse.ExchangeRate resp = RemittanceQuote.ExchangeRate quote
        /\ TransactionResponse.EstimatedTime resp = RemittanceQuote.EstimatedTime quote)
  /\ (forall resp,
        Wise_SendMoney wd w req = Done (Ok resp) ->
        TransactionResponse.Fee resp = 10%float
        /\ TransactionResponse.ExchangeRate resp = 1.2%float)
  /\ (exists quote resp,
        Wise_GetQuote (world_answering wise_answer) w main_request = Done (Ok quote)
        /\ Wise_SendMoney (world_answering wise_answer) w main_request = Done (Ok resp)
        /\ TransactionResponse.Fee resp <> RemittanceQuote.Fee quote).
Proof.
  split; [|split; [|split]].
  - intros quote resp [= <-] [= <-]. done.
  - intros quote resp [= <-] [= <-]. done.
  - intros resp. unfold Wise_SendMoney.
    destruct (Wise_makeRequest _ _ _ _ _) as [answer|?]; [|done].
    destruct (Decode_map answer) as [transferResp|?]; [|done].
    destruct (assert_string (member "id" transferResp)) as [id|?]; [|done].
    simpl. by intros [= <-].
  - eexists _, _. split; [reflexivity|]. split; [reflexivity|]. simpl.
    intros H. apply (f_equal (fun x => PrimFloat.eqb x 10)) in H. vm_compute in H.
    discriminate.
Qed.

(** X14: the transaction id that Remitly and WorldRemit give a transfer is
    made of the second of the call alone: two transfers get the same id
    exactly when they are sent in the same second, whatever the requests. *)
Theorem SendMoney_TransactionID_of_the_second
    (wd1 wd2 : World) (req1 req2 : TransactionRequest.t) :
  (forall resp1 resp2,
     Remitly_SendMoney wd1 req1 = Done (Ok resp1) ->
     Remitly_SendMoney wd2 req2 = Done (Ok resp2) ->
     TransactionResponse.TransactionID resp1 = TransactionResponse.TransactionID resp2
     <-> time_Unix (time_Now wd1) = time_Unix (time_Now wd2))
  /\ (forall resp1 resp2,
        WorldRemit_SendMoney wd1 req1 = Done (Ok resp1) ->
        WorldRemit_SendMoney wd2 req2 = Done (Ok resp2) ->
        TransactionResponse.TransactionID resp1 = TransactionResponse.TransactionID resp2
        <-> time_Unix (time_Now wd1) = time_Unix (time_Now wd2)).
Proof.
  split; intros resp1 resp2 [= <-] [= <-]; simpl; (split; [|by intros ->]);
    intros H%append_inj_r; by apply fmt_d_inj.
Qed.

Lemma Wise_makeRequest_GET wd w endpoint :
  Wise_makeRequest wd w "GET" endpoint None
  = match transport wd (Wise_request w "GET" endpoint None) with
    | http.Failed msg => Err (url_Error msg)
    | http.Response body => Ok body
    end.
Proof. reflexivity. Qed.

(** X15: asking an adapter for the status of the transaction that its
    [SendMoney] has just returned gives, when it gives a response, a report
    on the same transaction id with the same tracking URL, whose status is
    PENDING or COMPLETED; Remitly and WorldRemit report every transaction as
    COMPLETED, the one they returned as PENDING a moment ago included. *)
Theorem GetTransactionStatus_round_trip
    (wd : World) (w : WiseProvider.t) (req : TransactionRequest.t) :
  (forall resp st,
     Wise_SendMoney wd w req = Done (Ok resp) ->
     Wise_GetTransactionStatus wd w (TransactionResponse.TransactionID resp) = Done (Ok st) ->
     reports_on resp st)
  /\ (forall resp,
        Remitly_SendMoney wd req = Done (Ok resp) ->
        exists st,
          Remitly_GetTransactionStatus (TransactionResponse.TransactionID resp) = Done (Ok st)
          /\ reports_on resp st
          /\ TransactionResponse.Status st = StatusCompleted)
  /\ (forall resp,
        WorldRemit_SendMoney wd req = Done (Ok resp) ->
        exists st,
          WorldRemit_GetTransactionStatus (TransactionResponse.TransactionID resp)
            = Done (Ok st)
          /\ reports_on resp st
          /\ TransactionResponse.Status st = StatusCompleted).
Proof.
  split; [|split].
  - intros resp st. unfold Wise_SendMoney.
    destruct (Wise_makeRequest _ _ "POST" _ _) as [answer|?]; [|done].
    destruct (Decode_map answer) as [transferResp|?]; [|done].
    destruct (assert_string (member "id" transferResp)) as [id|?]; [|done].
    simpl. intros [= <-]. simpl. unfold Wise_GetTransactionStatus.
    destruct (Wise_makeRequest _ _ "GET" _ _) as [answer'|?]; [|done].
    destruct (Decode_map answer') as [statusResp|?]; [|done].
    destruct (assert_string (member "status" statusResp)) as [reported|?]; [|done].
    simpl. intros [= <-]. unfold reports_on. simpl.
    split; [done|]. split; [done|]. destruct (String.eqb reported _); auto.
  - intros resp [= <-]. eexists. split; [reflexivity|].
    unfold reports_on. simpl. auto.
  - intros resp [= <-]. eexists. split; [reflexivity|].
    unfold reports_on. simpl. auto.
Qed.

(** X16: when Wise answers a status request with a JSON object, the Wise
    adapter reports COMPLETED if the "status" member is the string
    "outgoing_payment_sent" and PENDING if it is any other string, a
    cancelled or refunded transfer included; when the member is missing or
    is not a string, the adapter panics. *)
Theorem Wise_GetTransactionStatus_by_answer
    (wd : World) (w : WiseProvider.t) (transactionID : string)
    (answer : list (string * json)) :
  transport wd (Wise_request w "GET" ("/v1/transfers/" ++ transactionID) None)
    = http.Response (http.JSONText (JObject answer)) ->
  match member "status" answer with
  | JString reported =>
      exists st,
        Wise_GetTransactionStatus wd w transactionID = Done (Ok st)
        /\ TransactionResponse.TransactionID st = transactionID
        /\ (reported = "outgoing_payment_sent" ->
            TransactionResponse.Status st = StatusCompleted)
        /\ (reported <> "outgoing_payment_sent" ->
            TransactionResponse.Status st = StatusPending)
  | other =>
      Wise_GetTransactionStatus wd w transactionID
      = Panicked ("interface conversion: interface {} is " ++ type_name other
                  ++ ", not string")
  end.
Proof.
  intros Hanswer. unfold Wise_GetTransactionStatus.
  rewrite Wise_makeRequest_GET, Hanswer. simpl.
  destruct (member "status" answer) as [|b|f|reported|l|m]; try reflexivity.
  simpl. eexists. split; [reflexivity|]. simpl. split; [done|].
  destruct (String.eqb_spec reported "outgoing_payment_sent"); split; done.
Qed.

(** X16 on three answers: a transfer that was paid out, a transfer that was
    cancelled, and the body of an error reply. *)
Lemma Wise_GetTransactionStatus_by_answer_witness :
  let w := NewWiseProvider "wise-api-key" "wise-profile-id" in
  (exists st, Wise_GetTransactionStatus
                (world_answering (wise_transfer "outgoing_payment_sent")) w "T-1"
              = Done (Ok st)
              /\ TransactionResponse.Status st = StatusCompleted)
  /\ (exists st, Wise_GetTransactionStatus (world_answering (wise_transfer "cancelled")) w "T-1"
                 = Done (Ok st)
                 /\ TransactionResponse.Status st = StatusPending)
  /\ Wise_GetTransactionStatus (world_answering wise_refusal) w "T-1"
     = Panicked "interface conversion: interface {} is nil, not string".
Proof.
  intros w. split; [|split].
  - destruct (Wise_GetTransactionStatus_by_answer
                (world_answering (wise_transfer "outgoing_payment_sent")) w "T-1"
                [("id", JString "T-1"); ("status", JString "outgoing_payment_sent")])
      as (st & Hst & _ & Hcompleted & _); [reflexivity|].
    exists st. split; [exact Hst|]. apply Hcompleted. reflexivity.
  - destruct (Wise_GetTransactionStatus_by_answer
                (world_answering (wise_transfer "cancelled")) w "T-1"
                [("id", JString "T-1"); ("status", JString "cancelled")])
      as (st & Hst & _ & _ & Hpending); [reflexivity|].
    exists st. split; [exact Hst|]. apply Hpending. discriminate.
  - apply (Wise_GetTransactionStatus_by_answer (world_answering wise_refusal) w "T-1"
             [("error", JString "unauthorized")]).
    reflexivity.
Defined.

Lemma Decode_elements_Ok (l : list json) :
  Forall decodes_as_map l -> exists maps, Decode_elements l = Ok maps /\ length maps = length l.
Proof.
  induction 1 as [|v rest Hv _ (maps & Hmaps & Hlen)]; simpl; [by eexists|].
  destruct v; try done; rewrite Hmaps; eexists; (split; [reflexivity|]); simpl; by f_equal.
Qed.

(** X17: from an answer of Wise to a request for rates, [GetExchangeRates]
    of the Wise adapter takes the "rate" member of the first element and
    nothing else: it returns this rate with the two currencies it was asked
    for, the fee 5 and one hour of validity, whatever the other elements say;
    to [null] and to the empty array it answers "no exchange rate found";
    on an array that starts with [null] it panics. *)
Theorem Wise_GetExchangeRates_by_answer
    (wd : World) (w : WiseProvider.t) (from to : Currency) (body : http.ResponseBody) :
  transport wd (Wise_request w "GET" ("/v1/rates?source=" ++ from ++ "&target=" ++ to) None)
    = http.Response body ->
  (body = http.JSONText JNull \/ body = http.JSONText (JArray []) ->
   Wise_GetExchangeRates wd w from to = Done (Err (errorString "no exchange rate found")))
  /\ (forall first rest rate,
        body = http.JSONText (JArray (JObject first :: rest)) ->
        Forall decodes_as_map rest ->
        member "rate" first = JNumber rate ->
        Wise_GetExchangeRates wd w from to
        = Done (Ok {| ExchangeRate.From := from;
                      ExchangeRate.To := to;
                      ExchangeRate.Rate := rate;
                      ExchangeRate.Fee := 5%float;
                      ExchangeRate.ValidUntil := (time_Now wd + 3600000000000)%Z |}))
  /\ (forall quoted,
        Wise_GetExchangeRates wd w from to = Done (Ok quoted) ->
        exists first rest,
          body = http.JSONText (JArray (first :: rest))
          /\ Forall decodes_as_map (first :: rest)
          /\ match first with
             | JObject m => member "rate" m = JNumber (ExchangeRate.Rate quoted)
             | _ => False
             end)
  /\ (forall rest,
        body = http.JSONText (JArray (JNull :: rest)) ->
        Forall decodes_as_map rest ->
        Wise_GetExchangeRates wd w from to
        = Panicked "interface conversion: interface {} is nil, not float64").
Proof.
  intros Hanswer. unfold Wise_GetExchangeRates.
  rewrite Wise_makeRequest_GET, Hanswer. split; [|split; [|split]]; cycle 3.
  { intros rest -> Hrest. simpl.
    by destruct (Decode_elements_Ok rest Hrest) as (maps & -> & _). }
  - by intros [-> | ->].
  - intros first rest rate -> Hrest Hrate. simpl.
    destruct (Decode_elements_Ok rest Hrest) as (maps & -> & _).
    by rewrite Hrate.
  - intros quoted. destruct body as [| |text|[| | | |l|]]; try done.
    destruct l as [|first rest]; [done|]. simpl.
    destruct first as [| | | | |m]; try done.
    + destruct (Decode_elements rest); [|done].
      simpl. done.
    + destruct (Decode_elements rest) as [maps|] eqn:Hrest; [|done].
      destruct (member "rate" m) as [| |rate| | |] eqn:Hrate; try done.
      simpl. intros [= <-]. exists (JObject m), rest. split; [done|]. split; [|done].
      constructor; [done|].
      clear -Hrest. revert maps Hrest.
      induction rest as [|v rest IH]; intros maps; [constructor|]. simpl.
      destruct v; try done; (destruct (Decode_elements rest); [|done]);
        intros _; (constructor; [done|by eapply IH]).
Qed.

(** X17 on an answer with two rates, and on the empty array. *)
Lemma Wise_GetExchangeRates_by_answer_witness :
  let w := NewWiseProvider "wise-api-key" "wise-profile-id" in
  (exists quoted,
     Wise_GetExchangeRates (world_answering wise_rates) w USD PHP = Done (Ok quoted)
     /\ ExchangeRate.Rate quoted = 1.2%float)
  /\ Wise_GetExchangeRates (world_answering (http.JSONText (JArray []))) w USD PHP
     = Done (Err (errorString "no exchange rate found")).
Proof.
  intros w. split.
  - destruct (Wise_GetExchangeRates_by_answer (world_answering wise_rates) w USD PHP wise_rates)
      as (_ & Hfirst & _ & _); [reflexivity|].
    eexists. split.
    + apply (Hfirst [("rate", JNumber 1.2%float); ("source", JString "USD")]
                    [JObject [("rate", JNumber 1.3%float)]] 1.2%float);
        [reflexivity|by repeat constructor|reflexivity].
    + reflexivity.
  - destruct (Wise_GetExchangeRates_by_answer
                (world_answering (http.JSONText (JArray []))) w USD PHP
                (http.JSONText (JArray []))) as (Hnone & _ & _ & _); [reflexivity|].
    apply Hnone. by right.
Defined.

(** X18: the rate that Remitly and WorldRemit give for a pair of currencies
    is the same for every pair, and it is the exchange rate of their quotes;
    a rate is valid for as long from the call that gave it as a quote is from
    the call that gave the quote, the two calls reading the clock each on its
    own; the fee that WorldRemit gives with the rate is the fee of its quotes,
    while Remitly gives the fee 3 with the rate and charges 2% of the amount
    in its quotes. *)
Theorem GetExchangeRates_agree_with_quotes
    (wd1 wd2 : World) (from to : Currency) (req : TransactionRequest.t) :
  (exists quoted quote,
     Remitly_GetExchangeRates wd1 from to = Done (Ok quoted)
     /\ Remitly_GetQuote wd2 req = Done (Ok quote)
     /\ ExchangeRate.From quoted = from /\ ExchangeRate.To quoted = to
     /\ ExchangeRate.Rate quoted = RemittanceQuote.ExchangeRate quote
     /\ (ExchangeRate.ValidUntil quoted - time_Now wd1
         = RemittanceQuote.ValidUntil quote - time_Now wd2)%Z
     /\ ExchangeRate.Fee quoted = 3%float
     /\ RemittanceQuote.Fee quote = (TransactionRequest.Amount req * 0.02)%float)
  /\ (exists quoted quote,
        WorldRemit_GetExchangeRates wd1 from to = Done (Ok quoted)
        /\ WorldRemit_GetQuote wd2 req = Done (Ok quote)
        /\ ExchangeRate.From quoted = from /\ ExchangeRate.To quoted = to
        /\ ExchangeRate.Rate quoted = RemittanceQuote.ExchangeRate quote
        /\ (ExchangeRate.ValidUntil quoted - time_Now wd1
            = RemittanceQuote.ValidUntil quote - time_Now wd2)%Z
        /\ ExchangeRate.Fee quoted = RemittanceQuote.Fee quote).
Proof.
  split; eexists _, _; (split; [reflexivity|]); (split; [reflexivity|]);
    simpl; repeat split; unfold time_Add; lia.
Qed.

(** X19: a quote of any of the three adapters bears the name of the adapter
    and is valid for a fixed time from the call: 24 hours for Wise, 30
    minutes for Remitly, 15 minutes for WorldRemit; the amount received that
    Remitly and WorldRemit quote is the amount times the exchange rate. *)
Theorem GetQuote_provider_and_validity
    (wd : World) (w : WiseProvider.t) (r : RemitlyProvider.t) (wr : WorldRemitProvider.t)
    (req : TransactionRequest.t) (quote : RemittanceQuote.t) :
  (GetQuote (Wise wd w) req = Done (Ok quote) ->
   RemittanceQuote.Provider quote = GetName (Wise wd w)
   /\ (RemittanceQuote.ValidUntil quote - time_Now wd = 86400000000000)%Z)
  /\ (GetQuote (Remitly wd r) req = Done (Ok quote) ->
      RemittanceQuote.Provider quote = GetName (Remitly wd r)
      /\ (RemittanceQuote.ValidUntil quote - time_Now wd = 1800000000000)%Z
      /\ RemittanceQuote.ReceivedAmount quote
         = (TransactionRequest.Amount req * RemittanceQuote.ExchangeRate quote)%float)
  /\ (GetQuote (WorldRemit wd wr) req = Done (Ok quote) ->
      RemittanceQuote.Provider quote = GetName (WorldRemit wd wr)
      /\ (RemittanceQuote.ValidUntil quote - time_Now wd = 900000000000)%Z
      /\ RemittanceQuote.ReceivedAmount quote
         = (TransactionRequest.Amount req * RemittanceQuote.ExchangeRate quote)%float).
Proof.
  simpl. split; [|split].
  - unfold Wise_GetQuote.
    destruct (Wise_makeRequest _ _ _ _ _) as [resp|?]; [|done].
    destruct (Decode_map resp) as [quoteResp|?]; [|done].
    destruct (assert_float64 (member "fee" quoteResp)) as [fee|?]; [|done].
    destruct (assert_float64 (member "rate" quoteResp)) as [rate|?]; [|done].
    destruct (assert_float64 (member "targetAmount" quoteResp)) as [target|?]; [|done].
    simpl. intros [= <-]. simpl. split; [done|]. unfold time_Add, time_Hour, time_Minute,
      time_Second. lia.
  - unfold Remitly_GetQuote. intros [= <-]. simpl. split; [done|]. split; [|done].
    unfold time_Add, time_Minute, time_Second. lia.
  - unfold WorldRemit_GetQuote. intros [= <-]. simpl. split; [done|]. split; [|done].
    unfold time_Add, time_Minute, time_Second. lia.
Qed.

(** ** The signature of WorldRemit *)

Lemma append_assoc (s1 s2 s3 : string) : ((s1 ++ s2) ++ s3 = s1 ++ (s2 ++ s3))%string.
Proof.
  induction s1 as [|a s1 IH]; [done|].
  change (String a (String.append (String.append s1 s2) s3)
          = String a (String.append s1 (String.append s2 s3))).
  by rewrite IH.
Qed.

Lemma EncodeToString_length (src : list N) :
  String.length (hex.EncodeToString src) = 2 * length src.
Proof. induction src as [|v rest IH]; simpl; [done|]. rewrite IH. lia. Qed.

Lemma digit_lower_hex (v : N) :
  (v < 16)%N -> hex.digit v ∈ String.list_ascii_of_string "0123456789abcdef".
Proof.
  intros Hv. unfold hex.digit. remember (N.to_nat v) as k eqn:Hk.
  assert (k < 16) as Hlt by lia. clear Hk Hv.
  do 16 (destruct k as [|k]; [apply (bool_decide_unpack _); by vm_compute|]). lia.
Qed.

Lemma EncodeToString_lower_hex (src : list N) :
  Forall (fun v => (v < 256)%N) src -> lower_hex (hex.EncodeToString src).
Proof.
  unfold lower_hex. induction 1 as [|v rest Hv _ IH]; simpl; [constructor|].
  constructor; [|constructor; [|done]]; apply digit_lower_hex.
  - rewrite N.shiftr_div_pow2. apply N.Div0.div_lt_upper_bound. simpl. lia.
  - change 15%N with (N.ones 4). rewrite N.land_ones. by apply N.mod_lt.
Qed.

Lemma PutUint32_bytes (v : N) :
  length (sha256.PutUint32 v) = 4 /\ Forall (fun b => (b < 256)%N) (sha256.PutUint32 v).
Proof. split; [done|]. repeat constructor; by apply N.mod_lt. Qed.

Lemma Sum256_bytes (data : list N) :
  length (sha256.Sum256 data) = 32 /\ Forall (fun b => (b < 256)%N) (sha256.Sum256 data).
Proof.
  unfold sha256.Sum256.
  destruct (sha256.blockGeneric _ _ _) as [[[[[[[h0 h1] h2] h3] h4] h5] h6] h7].
  split; [done|]. rewrite !Forall_app. repeat split; apply PutUint32_bytes.
Qed.

(** X20: whatever the secret and the four fields, the signature that
    [generateSignature] returns is 64 characters long, each of them a digit
    of lower-case hexadecimal. *)
Theorem generateSignature_format
    (wr : WorldRemitProvider.t) (method endpoint timestamp body : string) :
  String.length (WorldRemit_generateSignature wr method endpoint timestamp body) = 64
  /\ lower_hex (WorldRemit_generateSignature wr method endpoint timestamp body).
Proof.
  unfold WorldRemit_generateSignature, hmac.Sum. split.
  - rewrite EncodeToString_length. by rewrite (proj1 (Sum256_bytes _)).
  - apply EncodeToString_lower_hex. apply Sum256_bytes.
Qed.

Lemma unbroken_split (a a' x x' : string) :
  unbroken a -> unbroken a' ->
  (a ++ newline ++ x = a' ++ newline ++ x')%string -> a = a' /\ x = x'.
Proof.
  unfold unbroken. revert a'.
  induction a as [|c a IH]; intros [|c' a'] Ha Ha' H;
    cbv [String.append newline] in H; fold String.append in H.
  - by injection H as ->.
  - injection H as Hhead _. destruct Ha'. rewrite Hhead. left.
  - injection H as Hhead _. destruct Ha. rewrite <- Hhead. left.
  - injection H as -> Htail. destruct (IH a') as [-> ->]; [| |exact Htail|done].
    + intros Hin. apply Ha. by right.
    + intros Hin. apply Ha'. by right.
Qed.

(** X21: [generateSignature] signs the four fields joined by line breaks,
    and nothing marks where a field ends: a piece that follows a line break
    at the end of one field can stand before a line break at the start of
    the next one and the signature is the same; when the method, the
    endpoint and the timestamp hold no line break, the signed message
    determines the four fields. *)
Theorem generateSignature_fields
    (wr : WorldRemitProvider.t) (method endpoint timestamp body : string) :
  (forall piece,
     WorldRemit_generateSignature wr (method ++ newline ++ piece) endpoint timestamp body
     = WorldRemit_generateSignature wr method (piece ++ newline ++ endpoint) timestamp body)
  /\ (forall piece,
        WorldRemit_generateSignature wr method (endpoint ++ newline ++ piece) timestamp body
        = WorldRemit_generateSignature wr method endpoint (piece ++ newline ++ timestamp) body)
  /\ (forall piece,
        WorldRemit_generateSignature wr method endpoint (timestamp ++ newline ++ piece) body
        = WorldRemit_generateSignature wr method endpoint timestamp (piece ++ newline ++ body))
  /\ (forall method' endpoint' timestamp' body',
        unbroken method -> unbroken endpoint -> unbroken timestamp ->
        unbroken method' -> unbroken endpoint' -> unbroken timestamp' ->
        signing_message method endpoint timestamp body
        = signing_message method' endpoint' timestamp' body' ->
        method = method' /\ endpoint = endpoint' /\ timestamp = timestamp' /\ body = body').
Proof.
  unfold WorldRemit_generateSignature, signing_message.
  split; [|split; [|split]].
  - intros piece. by rewrite !append_assoc.
  - intros piece. by rewrite !append_assoc.
  - intros piece. by rewrite !append_assoc.
  - intros method' endpoint' timestamp' body' Hm He Ht Hm' He' Ht' H.
    apply unbroken_split in H as [-> H]; [|done|done].
    apply unbroken_split in H as [-> H]; [|done|done].
    apply unbroken_split in H as [-> ->]; done.
Qed.

(** The signature of a request for quotes sent at 1700000000. *)
Example generateSignature_example :
  WorldRemit_generateSignature (NewWorldRemitProvider "worldremit-api-key" "worldremit-secret")
    "GET" "/v1/quotes" "1700000000" ""
  = "39d14fa722968c45a3aa45766f6cc41e4424700f4340da4957f7312aff644099".
Proof. vm_compute. reflexivity. Qed.

(** ** The request plumbing of Wise and Remitly *)


